(** * Duplicalis: the duplicate classification engine

    A shallow embedding of [src/cache.js], [src/similarity.js] and
    [src/labels.js], and of the helpers around them that choose the language
    ([src/i18n.js]), clean and merge option objects ([config.js]) and prepare
    the figures and snippets of the report ([src/output.js]), followed by the
    properties proved about them.

    Conventions of the embedding:
    - a JavaScript string is a [string] holding its UTF-8 bytes; the text
      helpers ([trim], [toLowerCase], [\W]) act on ASCII, which is what the
      regular expressions of the source see, and leave other bytes alone;
    - a similarity score is an exact rational ([Q]) and [toFixed(4)] is the
      decimal rounding of that rational; the components of an embedding
      vector are real numbers ([R]) where the code computes with them
      ([combineVectors]) and an abstract type where it only passes them on
      ([findSimilarities], [labelPair]); floating-point rounding is not
      modelled;
    - a property that may be absent is an [option]; reading [.length] (or
      calling a method) on an absent value raises a [TypeError], which is an
      explicit [Throw] of the [result] monad;
    - objects used as maps and the JS [Map] are association lists kept in
      insertion order, which is the order JavaScript enumerates them in;
    - what the sources import from outside ([cosine] of [math.js], the
      message catalogue of [i18n.js], msgpackr's [encode] and [decode],
      [JSON.parse], the file system and the calls that write to it, the value
      drawn by [Math.random], the style loader, the representation builder
      and the embedding backend) is a parameter of the definitions that use
      it. *)

From Stdlib Require Import ZArith QArith Qround Qabs String Ascii Bool Lia Arith List.
From Stdlib Require Import Reals Psatz Sorted Permutation.
Import ListNotations.

Set Implicit Arguments.

(* ================================================================== *)
(** ** Exceptions *)

Inductive error : Type :=
| TypeError (what : string)
| IOError (what : string)
| ParseError (what : string).

Inductive result (A : Type) : Type :=
| Ok (a : A)
| Throw (e : error).

Arguments Ok {A} a.
Arguments Throw {A} e.

Definition bind {A B : Type} (m : result A) (k : A -> result B) : result B :=
  match m with
  | Ok a => k a
  | Throw e => Throw e
  end.

(** [try { body } catch (e) { handler e }] *)
Definition try_catch {A : Type} (body : result A) (handler : error -> result A)
  : result A :=
  match body with
  | Ok a => Ok a
  | Throw e => handler e
  end.

Definition error_message (e : error) : string :=
  match e with
  | TypeError w => w
  | IOError w => w
  | ParseError w => w
  end.

Declare Scope js_scope.
Delimit Scope js_scope with js.
Notation "x <- m ;; k" := (bind m (fun x => k))
  (at level 61, m at next level, right associativity) : js_scope.
Notation "' pat <- m ;; k" := (bind m (fun x => match x with pat => k end))
  (at level 61, pat pattern, m at next level, right associativity) : js_scope.

(** A loop whose body may throw: the first exception ends the loop. *)
Fixpoint foldM {A S : Type} (body : S -> A -> result S) (xs : list A) (s : S)
  : result S :=
  match xs with
  | [] => Ok s
  | x :: rest => bind (body s x) (foldM body rest)
  end.

(* ================================================================== *)
(** ** SHA-1 (Node's [crypto.createHash('sha1')]) *)

Module Sha1.
Local Open Scope Z_scope.

Definition w32 (x : Z) : Z := x mod 4294967296.
Definition rotl (n x : Z) : Z :=
  w32 (Z.lor (Z.shiftl x n) (Z.shiftr x (32 - n))).
Definition not32 (x : Z) : Z := Z.lxor x 4294967295.

Definition bytes_of_string (s : string) : list Z :=
  map (fun c => Z.of_N (N_of_ascii c)) (list_ascii_of_string s).

(** the low [n] bytes of [x], most significant first *)
Fixpoint be_bytes (n : nat) (x : Z) : list Z :=
  match n with
  | O => []
  | S k => be_bytes k (Z.shiftr x 8) ++ [Z.land x 255]
  end.

Definition pad (msg : list Z) : list Z :=
  let len := Z.of_nat (length msg) in
  msg ++ [128] ++ repeat 0 (Z.to_nat ((55 - len) mod 64)) ++ be_bytes 8 (8 * len).

Fixpoint words (n : nat) (bs : list Z) : list Z :=
  match n with
  | O => []
  | S k =>
      match bs with
      | a :: b :: c :: d :: rest =>
          (Z.shiftl a 24 + Z.shiftl b 16 + Z.shiftl c 8 + d) :: words k rest
      | _ => []
      end
  end.

(** the message schedule, newest word first *)
Fixpoint extend (n : nat) (rw : list Z) : list Z :=
  match n with
  | O => rw
  | S k =>
      let x := Z.lxor (Z.lxor (nth 2 rw 0) (nth 7 rw 0))
                      (Z.lxor (nth 13 rw 0) (nth 15 rw 0)) in
      extend k (rotl 1 x :: rw)
  end.

Definition schedule (block : list Z) : list Z :=
  rev (extend 64 (rev (words 16 block))).

Record regs : Type := Regs { ra : Z; rb : Z; rc : Z; rd : Z; re : Z }.

Definition H0 : regs :=
  Regs 0x67452301 0xEFCDAB89 0x98BADCFE 0x10325476 0xC3D2E1F0.

Definition round (t : nat) (r : regs) (w : Z) : regs :=
  let '(Regs a b c d e) := r in
  let '(f, k) :=
    if (t <? 20)%nat then
      (Z.lor (Z.land b c) (Z.land (not32 b) d), 0x5A827999)
    else if (t <? 40)%nat then
      (Z.lxor (Z.lxor b c) d, 0x6ED9EBA1)
    else if (t <? 60)%nat then
      (Z.lor (Z.lor (Z.land b c) (Z.land b d)) (Z.land c d), 0x8F1BBCDC)
    else
      (Z.lxor (Z.lxor b c) d, 0xCA62C1D6) in
  Regs (w32 (rotl 5 a + f + e + k + w)) a (rotl 30 b) c d.

Fixpoint rounds (t : nat) (ws : list Z) (r : regs) : regs :=
  match ws with
  | [] => r
  | w :: rest => rounds (S t) rest (round t r w)
  end.

Definition compress (h : regs) (block : list Z) : regs :=
  let r := rounds 0 (schedule block) h in
  Regs (w32 (ra h + ra r)) (w32 (rb h + rb r)) (w32 (rc h + rc r))
       (w32 (rd h + rd r)) (w32 (re h + re r)).

Fixpoint blocks (n : nat) (bs : list Z) (h : regs) : regs :=
  match n with
  | O => h
  | S k => blocks k (skipn 64 bs) (compress h (firstn 64 bs))
  end.

Definition digest (msg : list Z) : regs :=
  let padded := pad msg in
  blocks (Nat.div (length padded) 64) padded H0.

Definition hex_digit (x : Z) : ascii :=
  if x <? 10 then ascii_of_N (Z.to_N (48 + x))
  else ascii_of_N (Z.to_N (87 + x)).

Definition hex_byte (x : Z) : list ascii :=
  [hex_digit (Z.shiftr x 4); hex_digit (Z.land x 15)].

Definition hex_word (x : Z) : list ascii :=
  flat_map hex_byte (be_bytes 4 x).

Definition hex (msg : list Z) : string :=
  let r := digest msg in
  string_of_list_ascii
    (hex_word (ra r) ++ hex_word (rb r) ++ hex_word (rc r)
     ++ hex_word (rd r) ++ hex_word (re r)).
End Sha1.

(* ================================================================== *)
(** ** [src/cache.js]: fingerprints *)

Module Cache.
Local Open Scope string_scope.

(** The [crypto] hash object: the bytes fed to it so far. *)
Definition hash : Type := list Z.
Definition createHash : hash := [].
Definition update (h : hash) (s : string) : hash :=
  (h ++ Sha1.bytes_of_string s)%list.
Definition digest_hex (h : hash) : string := Sha1.hex h.

(** [x || ''] on an argument that is a string or absent *)
Definition orEmpty (x : option string) : string :=
  match x with
  | Some s => s
  | None => EmptyString
  end.

Definition fingerprintRepresentation
  (codeRep styleRep styleText structureRep holisticRep : option string) : string :=
  let h := createHash in
  let h := update h (orEmpty codeRep) in
  let h := update h (orEmpty styleRep) in
  let h := update h (orEmpty styleText) in
  let h := update h (orEmpty structureRep) in
  let h := update h (orEmpty holisticRep) in
  digest_hex h.


(** *** The persisted store *)

(** Values that [msgpackr]'s [decode] or [JSON.parse] can return. *)
#[local] Unset Elimination Schemes.
Inductive jsval : Type :=
| VUndefined
| VNull
| VBool (b : bool)
| VNum (n : Q)
| VStr (s : string)
| VArr (items : list jsval)
| VObj (fields : list (string * jsval))
| VFunction.
#[local] Set Elimination Schemes.

Definition CACHE_VERSION : Q := 1.

Definition emptyStore : jsval :=
  VObj [("version"%string, VNum CACHE_VERSION); ("entries"%string, VObj [])].

(** [v.key]: a [TypeError] on [undefined] and [null]; own properties on an
    object; on an array the only key read below that exists is the
    prototype method [entries]. *)
Definition getProp (v : jsval) (key : string) : result jsval :=
  match v with
  | VUndefined | VNull =>
      Throw (TypeError ("Cannot read properties of undefined (reading '"
                          ++ key ++ "')"))
  | VObj fields =>
      Ok (match find (fun kv => String.eqb (fst kv) key) fields with
          | Some kv => snd kv
          | None => VUndefined
          end)
  | VArr _ => Ok (if String.eqb key "entries" then VFunction else VUndefined)
  | _ => Ok VUndefined
  end.

Definition truthy (v : jsval) : bool :=
  match v with
  | VUndefined | VNull => false
  | VBool b => b
  | VNum n => negb (Qeq_bool n 0)
  | VStr s => negb (String.eqb s "")
  | VArr _ | VObj _ | VFunction => true
  end.

(** [v === n] for a number [n] *)
Definition strictEqNum (v : jsval) (n : Q) : bool :=
  match v with
  | VNum m => Qeq_bool m n
  | _ => false
  end.

Record fileSystem : Type := {
  existsSync : string -> bool;
  readFileSync : string -> result (list Z)
}.

Section LoadCache.
(** [decode] of msgpackr and [JSON.parse (raw.toString 'utf8')] *)
Variable decode : list Z -> result jsval.
Variable JSON_parse : list Z -> result jsval.
(** [getI18n(language).errCacheReadPrefix] *)
Variable errCacheReadPrefix : option string -> string.
Variable disk : fileSystem.

(** [`${i18n.errCacheReadPrefix} ${cachePath}: ${error.message}`] *)
Definition warningLine (language : option string) (p : string) (e : error)
  : string :=
  errCacheReadPrefix language ++ " " ++ p ++ ": " ++ error_message e.

(** The result is the store together with the lines given to
    [console.warn]. *)
Definition loadCache (cachePath : option string) (language : option string)
  : result (jsval * list string) :=
  match cachePath with
  | None => Ok (emptyStore, [])
  | Some p =>
      if String.eqb p "" then Ok (emptyStore, [])
      else if negb (existsSync disk p) then Ok (emptyStore, [])
      else
        try_catch
          (raw <- readFileSync disk p ;;
           parsed <- try_catch (decode raw) (fun _ => JSON_parse raw) ;;
           version <- getProp parsed "version" ;;
           reject <-
             (if negb (strictEqNum version CACHE_VERSION) then Ok true
              else (entries <- getProp parsed "entries" ;;
                    Ok (negb (truthy entries)))) ;;
           if (reject : bool) then Ok (emptyStore, [])
           else Ok (parsed, []))%js
          (fun e => Ok (emptyStore, [warningLine language p e]))
  end.
End LoadCache.

Definition buildCacheKey (modelKey componentId : string) : string :=
  modelKey ++ ":" ++ componentId.

End Cache.

(* ================================================================== *)
(** ** Numbers and text helpers *)

Definition Qltb (x y : Q) : bool := negb (Qle_bool y x).
Definition Qgeb (x y : Q) : bool := Qle_bool y x.
Definition Qgtb (x y : Q) : bool := negb (Qle_bool x y).
Definition Qnat (n : nat) : Q := inject_Z (Z.of_nat n).

(** [Number(x.toFixed(4))]: the nearest multiple of 1/10000, the one of
    larger magnitude when two are equally near. *)
Definition round4 (x : Q) : Q :=
  if Qltb x 0 then (- Qfloor (- x * 10000 + (1 # 2)) # 10000)
  else (Qfloor (x * 10000 + (1 # 2)) # 10000).

Definition mem (x : string) (l : list string) : bool :=
  existsb (String.eqb x) l.

(** the elements of [new Set(l)], in insertion order *)
Fixpoint dedupeInto (seen l : list string) : list string :=
  match l with
  | [] => seen
  | x :: rest => dedupeInto (if mem x seen then seen else seen ++ [x]) rest
  end.

Definition dedupe (l : list string) : list string := dedupeInto [] l.

Definition orNil (l : option (list string)) : list string :=
  match l with
  | Some xs => xs
  | None => []
  end.

(** [text.split(c)] for a one-character separator class *)
Fixpoint splitChars (sep : ascii -> bool) (cs : list ascii) : list (list ascii) :=
  match cs with
  | [] => [[]]
  | c :: rest =>
      if sep c then [] :: splitChars sep rest
      else match splitChars sep rest with
           | cur :: more => (c :: cur) :: more
           | [] => [[c]]
           end
  end.

Definition isEmptyChars (cs : list ascii) : bool :=
  match cs with
  | [] => true
  | _ :: _ => false
  end.

(** [text.split(/sep+/).filter(Boolean)]: the maximal non-empty runs of
    characters outside the separator class *)
Definition fields (sep : ascii -> bool) (s : string) : list string :=
  map string_of_list_ascii
    (filter (fun cs => negb (isEmptyChars cs))
       (splitChars sep (list_ascii_of_string s))).

Definition isNewline (c : ascii) : bool := Ascii.eqb c "010"%char.

Definition isSpace (c : ascii) : bool :=
  let n := nat_of_ascii c in
  (n =? 32)%nat || ((9 <=? n)%nat && (n <=? 13)%nat).

(** [\w] without the [u] flag: ASCII letters, digits and underscore *)
Definition isWordChar (c : ascii) : bool :=
  let n := nat_of_ascii c in
  ((48 <=? n)%nat && (n <=? 57)%nat) || ((65 <=? n)%nat && (n <=? 90)%nat)
  || ((97 <=? n)%nat && (n <=? 122)%nat) || (n =? 95)%nat.

Definition lowerChar (c : ascii) : ascii :=
  let n := nat_of_ascii c in
  if ((65 <=? n)%nat && (n <=? 90)%nat) then ascii_of_nat (n + 32) else c.

Definition toLowerCase (s : string) : string :=
  string_of_list_ascii (map lowerChar (list_ascii_of_string s)).

Definition isPathSep (c : ascii) : bool :=
  Ascii.eqb c "/"%char || Ascii.eqb c "\"%char.

(** stable sort, larger keys first: [xs.sort((x, y) => key(y) - key(x))] *)
Section SortDesc.
Variable A : Type.
Variable key : A -> Q.

Fixpoint insertDesc (x : A) (l : list A) : list A :=
  match l with
  | [] => [x]
  | y :: rest =>
      if Qle_bool (key y) (key x) then x :: l else y :: insertDesc x rest
  end.

Definition sortDesc (l : list A) : list A := fold_right insertDesc [] l.
End SortDesc.

(** an object used as a counter table: [obj[k] || 0] and [obj[k] = v] *)
Fixpoint getCount (counts : list (string * nat)) (k : string) : nat :=
  match counts with
  | [] => 0
  | (k', v) :: rest => if String.eqb k' k then v else getCount rest k
  end.

Fixpoint setCount (counts : list (string * nat)) (k : string) (v : nat)
  : list (string * nat) :=
  match counts with
  | [] => [(k, v)]
  | (k', v') :: rest =>
      if String.eqb k' k then (k, v) :: rest else (k', v') :: setCount rest k v
  end.

(* ================================================================== *)
(** ** The data model *)

Record propsT : Type := {
  names : option (list string);
  spreads : nat
}.

Record component : Type := {
  id : string;
  name : string;
  filePath : option string;
  source : option string;
  logicTokens : option (list string);
  literals : option (list string);
  hooks : option (list string);
  jsxTags : option (list string);
  textNodes : option (list string);
  classNames : option (list string);
  componentRefs : option (list string);
  props : option propsT;
  isWrapper : bool;
  isCompareTarget : bool
}.

Record representationT : Type := {
  codeRep : string;
  styleRep : string;
  structureRep : string;
  holisticRep : string
}.

Record entry (vec : Type) : Type := {
  entryComponent : component;
  vector : vec;
  codeVec : vec;
  styleVec : vec;
  structureVec : vec;
  holisticVec : vec;
  styleText : option string;
  stylePaths : option (list string);
  hasCssInJs : bool;
  hasStyles : bool;
  representation : representationT
}.

Record config : Type := {
  similarityThreshold : Q;
  highSimilarityThreshold : Q;
  maxSimilarityThreshold : option Q;
  limit : option Q;
  compareGlobs : option (list string);
  minPathDistance : option Q;
  disableAnalyses : option (list string);
  language : option string
}.

(** the hint strings of [getI18n(language)] *)
Record messages : Type := {
  hintWrapper : string;
  hintStyle : string;
  hintLogic : string;
  hintCopy : string;
  hintProp : string;
  hintFork : string
}.

(** an element of the [pairs] array *)
Record reportedPair : Type := {
  a : string;
  b : string;
  similarity : Q;
  category : string;
  labels : list string;
  hints : list string
}.

Record scorecard : Type := {
  meanSimilarity : Q;
  scMaxSimilarity : Q;
  scEvaluatedPairs : nat;
  coveredComponents : nat;
  scSuppressedPairs : nat;
  scSuppressionReasons : list (string * nat);
  minBestSimilarity : Q;
  maxBestSimilarity : Q
}.

(* ================================================================== *)
(** ** [src/labels.js] *)

Section Engine.
(** Embedding vectors are only ever handed to [cosine] of [math.js], which
    is imported; the engine is stated for any such function. *)
Variable vec : Type.
Variable cosine : vec -> vec -> Q.
Variable getI18n : option string -> messages.

Local Open Scope string_scope.
Local Open Scope js_scope.

(** the record built by [buildContext] *)
Record context : Type := {
  ctxEntryA : entry vec;
  ctxEntryB : entry vec;
  ctxSimilarity : Q;
  ctxConfig : config;
  ctxI18n : messages;
  logicOverlap : Q;
  literalOverlap : Q;
  styleSimilarity : Q;
  tokenOverlap : Q;
  lineDiff : nat;
  ctxHasProps : bool;
  ctxHasStyles : bool;
  stylePathsA : list string;
  stylePathsB : list string;
  hasCssInJsA : bool;
  hasCssInJsB : bool
}.

(** a check returns [null] or [{ label, hint }] *)
Definition checkResult : Type := option (string * string).

Definition runCheck (acc : list string * list string) (r : checkResult)
  : list string * list string :=
  match r with
  | None => acc
  | Some (label, hint) =>
      (fst acc ++ [label],
       if String.eqb hint "" then snd acc else snd acc ++ [hint])%list
  end.

(** reading a property of a list that may be absent *)
Definition deref (l : option (list string)) : result (list string) :=
  match l with
  | Some xs => Ok xs
  | None => Throw (TypeError "Cannot read properties of undefined (reading 'length')")
  end.

Definition overlap (listA listB : option (list string)) : result Q :=
  la <- deref listA ;;
  if (List.length la =? 0)%nat then Ok 0%Q
  else
    lb <- deref listB ;;
    if (List.length lb =? 0)%nat then Ok 0%Q
    else
      let sa := dedupe la in
      let sb := dedupe lb in
      let intersection := List.length (filter (fun item => mem item sb) sa) in
      Ok (Qnat intersection / Qnat (Nat.max (List.length sa) (List.length sb)))%Q.

Definition tokenize (text : option string) : result (list string) :=
  match text with
  | Some t => Ok (fields (fun c => negb (isWordChar c)) (toLowerCase t))
  | None =>
      Throw (TypeError "Cannot read properties of undefined (reading 'toLowerCase')")
  end.

Definition textOverlap (sa sb : option string) : result Q :=
  tokensA <- tokenize sa ;;
  tokensB <- tokenize sb ;;
  overlap (Some tokensA) (Some tokensB).

Definition lineCount (text : option string) : result nat :=
  match text with
  | Some t => Ok (List.length (splitChars isNewline (list_ascii_of_string t)))
  | None =>
      Throw (TypeError "Cannot read properties of undefined (reading 'split')")
  end.

Definition absDiff (x y : nat) : nat := (x - y) + (y - x).

Definition namesLength (c : component) : nat :=
  match props c with
  | Some p => List.length (orNil (names p))
  | None => 0
  end.

Definition isDisabled (cfg : config) (label : string) : bool :=
  mem label (orNil (disableAnalyses cfg)).

Definition intersect (listA listB : list string) : list string :=
  dedupe (filter (fun item => mem item listB) listA).

Definition difference (l subtract : list string) : list string :=
  filter (fun item => negb (mem item subtract)) l.

Definition buildContext (entryA entryB : entry vec) (sim : Q) (cfg : config)
  (i18n : messages) : result context :=
  let ca := entryComponent entryA in
  let cb := entryComponent entryB in
  lo <- overlap (logicTokens ca) (logicTokens cb) ;;
  li <- overlap (literals ca) (literals cb) ;;
  let ss := cosine (styleVec entryA) (styleVec entryB) in
  tov <- textOverlap (source ca) (source cb) ;;
  la <- lineCount (source ca) ;;
  lb <- lineCount (source cb) ;;
  Ok {| ctxEntryA := entryA;
        ctxEntryB := entryB;
        ctxSimilarity := sim;
        ctxConfig := cfg;
        ctxI18n := i18n;
        logicOverlap := lo;
        literalOverlap := li;
        styleSimilarity := ss;
        tokenOverlap := tov;
        lineDiff := absDiff la lb;
        ctxHasProps := (0 <? namesLength ca)%nat && (0 <? namesLength cb)%nat;
        ctxHasStyles := hasStyles entryA || hasStyles entryB;
        stylePathsA := orNil (stylePaths entryA);
        stylePathsB := orNil (stylePaths entryB);
        hasCssInJsA := hasCssInJs entryA;
        hasCssInJsB := hasCssInJs entryB |}.

Definition wrapperCheck (ctx : context) : checkResult :=
  if isDisabled (ctxConfig ctx) "wrapper-duplicate" then None
  else if isWrapper (entryComponent (ctxEntryA ctx))
          && isWrapper (entryComponent (ctxEntryB ctx))
  then Some ("wrapper-duplicate", hintWrapper (ctxI18n ctx))
  else None.

Definition styleCheck (ctx : context) : checkResult :=
  if isDisabled (ctxConfig ctx) "style-duplicate" then None
  else if negb (ctxHasStyles ctx) then None
  else
    let sharedPaths := intersect (stylePathsA ctx) (stylePathsB ctx) in
    let uniqueA := difference (stylePathsA ctx) sharedPaths in
    let uniqueB := difference (stylePathsB ctx) sharedPaths in
    let sharedOnly :=
      (0 <? List.length sharedPaths)%nat
      && negb (hasCssInJsA ctx) && negb (hasCssInJsB ctx) in
    let onlySharedSources :=
      sharedOnly && (List.length uniqueA =? 0)%nat
      && (List.length uniqueB =? 0)%nat in
    if onlySharedSources then None
    else if Qgeb (styleSimilarity ctx) (8 # 10)
    then Some ("style-duplicate", hintStyle (ctxI18n ctx))
    else None.

Definition logicCheck (ctx : context) : checkResult :=
  if isDisabled (ctxConfig ctx) "logic-duplicate" then None
  else if Qgeb (logicOverlap ctx) (6 # 10)
  then Some ("logic-duplicate", hintLogic (ctxI18n ctx))
  else None.

Definition copyCheck (ctx : context) : checkResult :=
  if isDisabled (ctxConfig ctx) "copy-paste-variant" then None
  else if Qgeb (ctxSimilarity ctx) (95 # 100) || Qgeb (tokenOverlap ctx) (9 # 10)
  then Some ("copy-paste-variant", hintCopy (ctxI18n ctx))
  else None.

Definition propCheck (ctx : context) : checkResult :=
  if isDisabled (ctxConfig ctx) "prop-parameterizable" then None
  else
    let highSimilarity :=
      Qgeb (ctxSimilarity ctx) (highSimilarityThreshold (ctxConfig ctx)) in
    if highSimilarity && (Qgeb (literalOverlap ctx) (4 # 10) || ctxHasProps ctx)
    then Some ("prop-parameterizable", hintProp (ctxI18n ctx))
    else None.

Definition forkCheck (ctx : context) (labelsSoFar : list string) : checkResult :=
  if isDisabled (ctxConfig ctx) "forked-clone" then None
  else
    let eligible :=
      Qgeb (ctxSimilarity ctx) (similarityThreshold (ctxConfig ctx))
      && (List.length labelsSoFar =? 0)%nat
      && (4 <=? lineDiff ctx)%nat in
    if eligible then Some ("forked-clone", hintFork (ctxI18n ctx)) else None.

Definition labelPair (entryA entryB : entry vec) (sim : Q) (cfg : config)
  : result (list string * list string) :=
  let i18n := getI18n (language cfg) in
  ctx <- buildContext entryA entryB sim cfg i18n ;;
  let acc := ([], []) in
  let acc := runCheck acc (wrapperCheck ctx) in
  let acc := runCheck acc (styleCheck ctx) in
  let acc := runCheck acc (logicCheck ctx) in
  let acc := runCheck acc (copyCheck ctx) in
  let acc := runCheck acc (propCheck ctx) in
  let acc := runCheck acc (forkCheck ctx (fst acc)) in
  Ok acc.

(* ---------------------------------------------------------------- *)
(** ** [src/similarity.js]: suppression heuristics *)

Definition countNonEmptyLines (src : option string) : nat :=
  let text := match src with Some t => t | None => "" end in
  List.length
    (filter (fun line => negb (forallb isSpace line))
       (splitChars isNewline (list_ascii_of_string text))).

Definition hasProps (c : component) : bool :=
  match props c with
  | Some p => (0 <? List.length (orNil (names p)) + spreads p)%nat
  | None => false
  end.

Definition listLength (l : option (list string)) : nat :=
  List.length (orNil l).

Definition isWrapperLike (c : component) : bool :=
  if isWrapper c then true
  else
    let tiny := (countNonEmptyLines (source c) <=? 8)%nat in
    let shallowTree := (List.length (dedupe (orNil (jsxTags c))) <=? 2)%nat in
    let hasPropSurface := hasProps c in
    let noLogic :=
      (listLength (logicTokens c) + listLength (hooks c) =? 0)%nat in
    let limitedText := (listLength (textNodes c) <=? 2)%nat in
    tiny && shallowTree && hasPropSurface && noLogic && limitedText.

(** [tags.reduce] building the counter object *)
Definition tagCounts (tags : list string) : list (string * nat) :=
  fold_left (fun acc tag => setCount acc tag (getCount acc tag + 1)) tags [].

Definition dominantTag (c : component) : option string :=
  let tags := orNil (jsxTags c) in
  if (List.length tags =? 0)%nat then None
  else
    match sortDesc (fun kv : string * nat => Qnat (snd kv)) (tagCounts tags) with
    | kv :: _ => Some (fst kv)
    | [] => None
    end.

Definition differentWrappedBases (refsA refsB : option (list string)) : bool :=
  let ra := orNil refsA in
  let rb := orNil refsB in
  if (List.length ra =? 0)%nat || (List.length rb =? 0)%nat then false
  else negb (existsb (fun ref => mem ref ra) rb).

Definition compositionSuppression (compA compB : component) : option string :=
  let refsA := orNil (componentRefs compA) in
  let refsB := orNil (componentRefs compB) in
  if mem (name compB) refsA || mem (name compA) refsB
  then Some "component-composition"
  else None.

Definition wrapperSuppression (compA compB : component) : option string :=
  if negb (isWrapperLike compA) || negb (isWrapperLike compB) then None
  else if differentWrappedBases (componentRefs compA) (componentRefs compB)
  then Some "wrapper-different-base"
  else
    let sharedBase :=
      match dominantTag compA, dominantTag compB with
      | Some ta, Some tb => negb (String.eqb ta "") && String.eqb ta tb
      | _, _ => false
      end in
    let noCustomLogic :=
      (listLength (logicTokens compA) + listLength (logicTokens compB) =? 0)%nat
      && (listLength (hooks compA) + listLength (hooks compB) =? 0)%nat in
    let leanText :=
      (listLength (textNodes compA) + listLength (textNodes compB) <=? 3)%nat in
    let leanLiterals :=
      (listLength (literals compA) + listLength (literals compB) <=? 6)%nat in
    if sharedBase || (noCustomLogic && leanText && leanLiterals)
    then Some "wrapper-specialization"
    else None.

Definition componentSignal (c : component) : nat :=
  let buckets :=
    [ List.length (dedupe (orNil (logicTokens c)));
      List.length (dedupe (orNil (hooks c)));
      List.length (dedupe (orNil (classNames c)));
      List.length (dedupe (orNil (textNodes c)));
      List.length (dedupe (orNil (match props c with
                                  | Some p => names p
                                  | None => None
                                  end))) ] in
  fold_left (fun acc size => acc + Nat.min size 2)%nat buckets 0%nat.

Definition lowSignalSuppression (compA compB : component) : option string :=
  let shortEnough :=
    (countNonEmptyLines (source compA) <=? 16)%nat
    && (countNonEmptyLines (source compB) <=? 16)%nat in
  if negb shortEnough then None
  else
    let propSurface := hasProps compA || hasProps compB in
    let wrapperish := isWrapperLike compA || isWrapperLike compB in
    if negb propSurface && negb wrapperish then None
    else if (componentSignal compA <=? 2)%nat && (componentSignal compB <=? 2)%nat
    then Some "low-signal-pair"
    else None.

(** [x || y] on values that are [null] or a non-empty string *)
Definition orElse (x y : option string) : option string :=
  match x with
  | Some _ => x
  | None => y
  end.

Definition suppressPair (entryA entryB : entry vec) : option string :=
  let ca := entryComponent entryA in
  let cb := entryComponent entryB in
  orElse (compositionSuppression ca cb)
    (orElse (wrapperSuppression ca cb) (lowSignalSuppression ca cb)).

(* ---------------------------------------------------------------- *)
(** ** The path-distance gate *)

Definition splitDirs (path : option string) : list string :=
  match path with
  | None => []
  | Some p =>
      if String.eqb p "" then []
      else
        let parts := fields isPathSep p in
        firstn (List.length parts - 1) parts
  end.

(** [parts[parts.length - i]], [undefined] outside the array *)
Definition fromEnd (parts : list string) (i : nat) : option string :=
  if (i <=? List.length parts)%nat then nth_error parts (List.length parts - i)
  else None.

Definition sameSegment (x y : option string) : bool :=
  match x, y with
  | Some s, Some t => String.eqb s t
  | None, None => true
  | _, _ => false
  end.

Definition isUndefined (x : option string) : bool :=
  match x with
  | Some _ => false
  | None => true
  end.

(** the [for] loop of [pathDistance], entered at index [i] with [steps]
    iterations left *)
Fixpoint pathDistanceLoop (partsA partsB : list string) (steps i : nat) : nat :=
  match steps with
  | O => 0
  | S k =>
      let x := fromEnd partsA i in
      let y := fromEnd partsB i in
      if negb (sameSegment x y) then i
      else if isUndefined x || isUndefined y then i
      else pathDistanceLoop partsA partsB k (S i)
  end.

Definition pathDistance (pathA pathB : option string) : nat :=
  let partsA := splitDirs pathA in
  let partsB := splitDirs pathB in
  let maxIdx := Nat.max (List.length partsA) (List.length partsB) in
  pathDistanceLoop partsA partsB maxIdx 1.

Definition shouldSkipByPath (pathA pathB : option string) (cfg : config) : bool :=
  let minDistance := match minPathDistance cfg with Some d => d | None => 0%Q end in
  if Qle_bool minDistance 0 then false
  else Qltb (Qnat (pathDistance pathA pathB)) minDistance.

(** The distance as the specification words it: both directory chains are
    walked from their last segment; the walk stops at the first depth where
    the segments differ or one chain has run out, and reports that depth;
    chains that never diverge give 0. *)
Fixpoint walkFromEnd (ra rb : list string) (depth : nat) : nat :=
  match ra, rb with
  | [], [] => 0
  | x :: ra', y :: rb' =>
      if String.eqb x y then walkFromEnd ra' rb' (S depth) else depth
  | _, _ => depth
  end.

(* ---------------------------------------------------------------- *)
(** ** [findSimilarities] *)

(** the mutable locals of [findSimilarities] *)
Record loopState : Type := {
  pairs : list reportedPair;
  bestByComponent : list (string * Q);
  evaluatedPairs : nat;
  similaritySum : Q;
  maxSimilarity : Q;
  suppressedPairs : nat;
  suppressionReasons : list (string * nat)
}.

Definition initialState : loopState :=
  {| pairs := [];
     bestByComponent := [];
     evaluatedPairs := 0;
     similaritySum := 0;
     maxSimilarity := 0;
     suppressedPairs := 0;
     suppressionReasons := [] |}.

(** [bestByComponent.get(id) || 0] *)
Fixpoint mapGet (m : list (string * Q)) (k : string) : Q :=
  match m with
  | [] => 0
  | (k', v) :: rest => if String.eqb k' k then v else mapGet rest k
  end.

Fixpoint mapSet (m : list (string * Q)) (k : string) (v : Q) : list (string * Q) :=
  match m with
  | [] => [(k, v)]
  | (k', v') :: rest =>
      if String.eqb k' k then (k, v) :: rest else (k', v') :: mapSet rest k v
  end.

Definition trackBestSimilarity (best : list (string * Q)) (componentId : string)
  (sim : Q) : list (string * Q) :=
  let current := mapGet best componentId in
  if Qgtb sim current then mapSet best componentId sim else best.

(** [suppressedPairs += 1; suppressionReasons[reason] = (... || 0) + 1] *)
Definition suppress (st : loopState) (reason : string) : loopState :=
  {| pairs := pairs st;
     bestByComponent := bestByComponent st;
     evaluatedPairs := evaluatedPairs st;
     similaritySum := similaritySum st;
     maxSimilarity := maxSimilarity st;
     suppressedPairs := suppressedPairs st + 1;
     suppressionReasons :=
       setCount (suppressionReasons st) reason
         (getCount (suppressionReasons st) reason + 1) |}.

(** the aggregate updates made right after [cosine] *)
Definition record (st : loopState) (idA idB : string) (sim : Q) : loopState :=
  {| pairs := pairs st;
     bestByComponent :=
       trackBestSimilarity (trackBestSimilarity (bestByComponent st) idA sim)
         idB sim;
     evaluatedPairs := evaluatedPairs st + 1;
     similaritySum := (similaritySum st + sim)%Q;
     maxSimilarity := if Qgtb sim (maxSimilarity st) then sim else maxSimilarity st;
     suppressedPairs := suppressedPairs st;
     suppressionReasons := suppressionReasons st |}.

Definition pushPair (st : loopState) (p : reportedPair) : loopState :=
  {| pairs := (pairs st ++ [p])%list;
     bestByComponent := bestByComponent st;
     evaluatedPairs := evaluatedPairs st;
     similaritySum := similaritySum st;
     maxSimilarity := maxSimilarity st;
     suppressedPairs := suppressedPairs st;
     suppressionReasons := suppressionReasons st |}.

Definition compareEnabled (cfg : config) : bool :=
  match compareGlobs cfg with
  | Some globs => (0 <? List.length globs)%nat
  | None => false
  end.

Definition maxThreshold (cfg : config) : Q :=
  match maxSimilarityThreshold cfg with
  | Some t => t
  | None => 1
  end.

Definition epsilon : Q := 1 # 1000000.

(** one iteration of the inner loop, on [entries[i]] and [entries[j]] *)
Definition compareEntries (cfg : config) (ei ej : entry vec) (st : loopState)
  : result loopState :=
  let aTarget := isCompareTarget (entryComponent ei) in
  let bTarget := isCompareTarget (entryComponent ej) in
  if compareEnabled cfg && negb (xorb aTarget bTarget)
  then Ok (suppress st "compare-filter")
  else
    let sim := cosine (vector ei) (vector ej) in
    let st := record st (id (entryComponent ei)) (id (entryComponent ej)) sim in
    if Qltb sim (similarityThreshold cfg) then Ok st
    else if Qgtb (sim - maxThreshold cfg) epsilon
    then Ok (suppress st "over-max-threshold")
    else if shouldSkipByPath (filePath (entryComponent ei))
              (filePath (entryComponent ej)) cfg
    then Ok (suppress st "near-path")
    else
      match suppressPair ei ej with
      | Some reason => Ok (suppress st reason)
      | None =>
          lh <- labelPair ei ej sim cfg ;;
          Ok (pushPair st
                {| a := id (entryComponent ei);
                   b := id (entryComponent ej);
                   similarity := round4 sim;
                   category :=
                     if Qgeb sim (highSimilarityThreshold cfg)
                     then "almost-identical" else "near-duplicate";
                   labels := fst lh;
                   hints := snd lh |})
      end.

(** [entries[i]]; reading [.component] of a missing element throws *)
Definition getEntry (entries : list (entry vec)) (i : nat) : result (entry vec) :=
  match nth_error entries i with
  | Some e => Ok e
  | None => Throw (TypeError "Cannot read properties of undefined (reading 'component')")
  end.

Definition loopBody (entries : list (entry vec)) (cfg : config) (i : nat)
  (st : loopState) (j : nat) : result loopState :=
  ei <- getEntry entries i ;;
  ej <- getEntry entries j ;;
  compareEntries cfg ei ej st.

(** [for (let j = i + 1; j < entries.length; j += 1)] *)
Definition innerLoop (entries : list (entry vec)) (cfg : config)
  (st : loopState) (i : nat) : result loopState :=
  foldM (loopBody entries cfg i) (seq (S i) (List.length entries - S i)) st.

(** [for (let i = 0; i < entries.length; i += 1)] *)
Definition outerLoop (entries : list (entry vec)) (cfg : config)
  (st : loopState) : result loopState :=
  foldM (innerLoop entries cfg) (seq 0 (List.length entries)) st.

Fixpoint limitFilter (lim : Q) (ps : list reportedPair) (counts : list (string * nat))
  : list reportedPair :=
  match ps with
  | [] => []
  | p :: rest =>
      let aCount := getCount counts (a p) in
      let bCount := getCount counts (b p) in
      if Qgeb (Qnat aCount) lim || Qgeb (Qnat bCount) lim
      then limitFilter lim rest counts
      else p :: limitFilter lim rest
                  (setCount (setCount counts (a p) (aCount + 1)) (b p) (bCount + 1))
  end.

Definition limitMatches (ps : list reportedPair) (lim : option Q) : list reportedPair :=
  match lim with
  | None => sortDesc similarity ps
  | Some l => limitFilter l (sortDesc similarity ps) []
  end.

Definition Qminimum (x : Q) (xs : list Q) : Q :=
  fold_left (fun m v => if Qltb v m then v else m) xs x.

Definition Qmaximum (x : Q) (xs : list Q) : Q :=
  fold_left (fun m v => if Qgtb v m then v else m) xs x.

Definition buildScorecard (best : list (string * Q)) (evaluated : nat)
  (simSum maxSim : Q) (suppressed : nat) (reasons : list (string * nat))
  : scorecard :=
  let bestValues := map snd best in
  {| meanSimilarity :=
       if (evaluated =? 0)%nat then 0 else round4 (simSum / Qnat evaluated);
     scMaxSimilarity := round4 maxSim;
     scEvaluatedPairs := evaluated;
     coveredComponents := List.length bestValues;
     scSuppressedPairs := suppressed;
     scSuppressionReasons := reasons;
     minBestSimilarity :=
       match bestValues with
       | [] => 0
       | v :: vs => round4 (Qminimum v vs)
       end;
     maxBestSimilarity :=
       match bestValues with
       | [] => 0
       | v :: vs => round4 (Qmaximum v vs)
       end |}.

Definition findSimilarities (entries : list (entry vec)) (cfg : config)
  : result (list reportedPair * scorecard) :=
  st <- outerLoop entries cfg initialState ;;
  let limited := limitMatches (pairs st) (limit cfg) in
  Ok (limited,
      buildScorecard (bestByComponent st) (evaluatedPairs st) (similaritySum st)
        (maxSimilarity st) (suppressedPairs st) (suppressionReasons st)).

End Engine.

(* ================================================================== *)
(** ** [src/similarity.js]: combining and embedding

    Vector components are real numbers here: [normalize] takes a square
    root. *)

Module Embedding.
Local Open Scope R_scope.

Definition rvec : Type := list R.

(** [vector.reduce((acc, val) => acc + val * val, 0)] *)
Definition sumSquares (v : rvec) : R :=
  fold_left (fun acc val => acc + val * val) v 0.

Definition l2norm (v : rvec) : R := sqrt (sumSquares v).

(** Modelled from the spec: [normalize] of [math.js], which is not among
    the sources. The spec asks for an L2 normalisation that returns the
    vector unchanged when its norm is zero; that is also what the two local
    copies of [normalize] in [embedding/remote.js] and [model-fetch.js] do
    ([Math.sqrt(...) || 1], then a division of every component). *)
Definition normalize (v : rvec) : rvec :=
  let norm := if Req_dec_T (l2norm v) 0 then 1 else l2norm v in
  map (fun x => x / norm) v.

Record weightT : Type := {
  wCode : option R;
  wStyle : option R;
  wStructure : option R;
  wHolistic : option R
}.

Definition DEFAULT_WEIGHT : weightT :=
  {| wCode := Some (55 / 100);
     wStyle := Some (2 / 10);
     wStructure := Some (15 / 100);
     wHolistic := Some (1 / 10) |}.

(** one key of [{ ...DEFAULT_WEIGHT, ...weight }] *)
Definition spread (dflt given : option R) : R :=
  match given, dflt with
  | Some w, _ => w
  | None, Some w => w
  | None, None => 0
  end.

(** [codeVec], [styleVec], ... as passed in: an array, or no array *)
Record vectors : Type := {
  vCode : option rvec;
  vStyle : option rvec;
  vStructure : option rvec;
  vHolistic : option rvec
}.

Record part : Type := { partKey : string; partVec : option rvec; partWeight : R }.

(** [weight > 0] *)
Definition isPositive (w : R) : bool := if Rlt_dec 0 w then true else false.

Definition keepPart (p : part) : bool :=
  match partVec p with
  | Some (_ :: _) => isPositive (partWeight p)
  | _ => false
  end.

Definition partLength (p : part) : nat :=
  match partVec p with
  | Some v => List.length v
  | None => 0
  end.

(** [Math.min(...lengths)] of a non-empty argument list *)
Definition minLength (ps : list part) : nat :=
  match ps with
  | [] => 0
  | p :: rest => fold_left Nat.min (map partLength rest) (partLength p)
  end.

(** the inner [for] loop: [combined[i] += (vec[i] || 0) * c] for [i < size] *)
Definition addScaled (size : nat) (combined : rvec) (vec : rvec) (c : R) : rvec :=
  map (fun i => nth i combined 0 + nth i vec 0 * c) (seq 0 size).

Definition partArray (p : part) : rvec :=
match partVec p with
| Some v => v
| None => []
end.

(** [parts.reduce((acc, part) => acc + part.weight, 0)] *)
Definition totalWeight (ps : list part) : R :=
fold_left (fun acc p => acc + partWeight p) ps 0.

Definition weightedSum (ps : list part) : rvec :=
let size := minLength ps in
let total := totalWeight ps in
fold_left
  (fun combined p => addScaled size combined (partArray p) (partWeight p / total))
  ps (repeat 0 size).

(** the four parts before [.filter(...)] *)
Definition allParts (vs : vectors) (weight : weightT) (hasStyleSignal : option bool)
  : list part :=
let code := spread (wCode DEFAULT_WEIGHT) (wCode weight) in
let style := spread (wStyle DEFAULT_WEIGHT) (wStyle weight) in
let structure := spread (wStructure DEFAULT_WEIGHT) (wStructure weight) in
let holistic := spread (wHolistic DEFAULT_WEIGHT) (wHolistic weight) in
[ {| partKey := "code"; partVec := vCode vs; partWeight := code |};
  {| partKey := "style"; partVec := vStyle vs;
     partWeight := match hasStyleSignal with
                   | Some false => 0
                   | _ => style
                   end |};
  {| partKey := "structure"; partVec := vStructure vs; partWeight := structure |};
  {| partKey := "holistic"; partVec := vHolistic vs; partWeight := holistic |} ].

Definition buildParts (vs : vectors) (weight : weightT) (hasStyleSignal : option bool)
  : list part :=
filter keepPart (allParts vs weight hasStyleSignal).

Definition combineVectors (vs : vectors) (weight : weightT)
  (hasStyleSignal : option bool) : rvec :=
  let parts := buildParts vs weight hasStyleSignal in
  match parts with
  | [] => []
  | _ :: _ => normalize (weightedSum parts)
  end.

(** every part has a non-empty vector and a positive effective weight *)
Definition allSurvive (ps : list part) : Prop :=
Forall (fun p => (exists x xs, partVec p = Some (x :: xs)) /\ 0 < partWeight p) ps.

Definition zeroVector (len : nat) : rvec := repeat 0 len.

(** *** The cache entries and the per-component step of [embedComponents] *)

Record cacheEntry : Type := {
  fingerprint : string;
  ceCodeVec : option rvec;
  ceStyleVec : option rvec;
  ceStructureVec : option rvec;
  ceHolisticVec : option rvec;
  ceFilePath : option string
}.

Definition nonEmptyArray (slot : option rvec) : bool :=
  match slot with
  | Some (_ :: _) => true
  | _ => false
  end.

Definition isCompleteCachedEntry (cached : option cacheEntry) (fp : string) : bool :=
  match cached with
  | None => false
  | Some e =>
      if negb (String.eqb (fingerprint e) fp) then false
      else forallb nonEmptyArray
             [ceCodeVec e; ceStyleVec e; ceStructureVec e; ceHolisticVec e]
  end.

Fixpoint cacheGet (m : list (string * cacheEntry)) (k : string) : option cacheEntry :=
  match m with
  | [] => None
  | (k', e) :: rest => if String.eqb k' k then Some e else cacheGet rest k
  end.

Fixpoint cacheSet (m : list (string * cacheEntry)) (k : string) (e : cacheEntry)
  : list (string * cacheEntry) :=
  match m with
  | [] => [(k, e)]
  | (k', e') :: rest =>
      if String.eqb k' k then (k, e) :: rest else (k', e') :: cacheSet rest k e
  end.

Record styles : Type := {
  lsStyleText : option string;
  lsStylePaths : option (list string);
  lsHasCssInJs : bool
}.

Record cacheStats : Type := { hits : nat; misses : nat; uncached : list string }.

(** the locals of [embedComponents] that its loop updates, and the texts
    handed to [backend.embed] so far *)
Record embedState : Type := {
  cache : list (string * cacheEntry);
  dirty : bool;
  stats : cacheStats;
  produced : list (entry rvec);
  embedCalls : list string
}.

Section EmbedComponents.
Variable loadStyles : component -> styles.
Variable buildRepresentation : component -> option string -> representationT.
(** [await backend.embed(text)] *)
Variable embed : string -> result rvec.
Variable modelId : string.
Variable weight : weightT.

Local Open Scope js_scope.

(** [Boolean((styleText || '').trim())] *)
Definition hasStyleText (styleText : option string) : bool :=
  negb (forallb isSpace (list_ascii_of_string (Cache.orEmpty styleText))).

(** [if (!slot) { slot = await backend.embed(text); dirty = true; }] *)
Definition orEmbed (slot : option rvec) (text : string) (d : bool) (log : list string)
  : result (rvec * bool * list string) :=
  match slot with
  | Some v => Ok (v, d, log)
  | None => v <- embed text ;; Ok (v, true, (log ++ [text])%list)
  end.

Definition embedComponent (st : embedState) (c : component) : result embedState :=
  let ls := loadStyles c in
  let rep := buildRepresentation c (lsStyleText ls) in
  let fp :=
    Cache.fingerprintRepresentation (Some (codeRep rep)) (Some (styleRep rep))
      (lsStyleText ls) (Some (structureRep rep)) (Some (holisticRep rep)) in
  let cacheId := Cache.buildCacheKey modelId (id c) in
  let cached := cacheGet (cache st) cacheId in
  let fingerprintMatch :=
    match cached with
    | Some e => String.eqb (fingerprint e) fp
    | None => false
    end in
  let cacheComplete := isCompleteCachedEntry cached fp in
  let fromCache :=
    match cached with
    | Some e =>
        if cacheComplete || fingerprintMatch
        then (ceCodeVec e, ceStyleVec e, ceStructureVec e, ceHolisticVec e)
        else (None, None, None, None)
    | None => (None, None, None, None)
    end in
  let stats' :=
    if cacheComplete
    then {| hits := hits (stats st) + 1;
            misses := misses (stats st);
            uncached := uncached (stats st) |}
    else {| hits := hits (stats st);
            misses := misses (stats st) + 1;
            uncached := (uncached (stats st) ++ [id c])%list |} in
  let '(code0, style0, structure0, holistic0) := fromCache in
  '(codeV, d, log) <- orEmbed code0 (codeRep rep) (dirty st) (embedCalls st) ;;
  let dimension := Nat.max 1 (List.length codeV) in
  '(styleV, d, log) <-
    match style0 with
    | Some v => Ok (v, d, log)
    | None =>
        if String.eqb (styleRep rep) ""
        then Ok (zeroVector dimension, true, log)
        else orEmbed None (styleRep rep) d log
    end ;;
  '(structureV, d, log) <- orEmbed structure0 (structureRep rep) d log ;;
  '(holisticV, d, log) <- orEmbed holistic0 (holisticRep rep) d log ;;
  let combined :=
    combineVectors
      {| vCode := Some codeV; vStyle := Some styleV;
         vStructure := Some structureV; vHolistic := Some holisticV |}
      weight (Some (hasStyleText (lsStyleText ls))) in
  Ok {| cache :=
          cacheSet (cache st) cacheId
            {| fingerprint := fp;
               ceCodeVec := Some codeV;
               ceStyleVec := Some styleV;
               ceStructureVec := Some structureV;
               ceHolisticVec := Some holisticV;
               ceFilePath := filePath c |};
        dirty := d;
        stats := stats';
        produced :=
          (produced st ++
           [ {| entryComponent := c;
                vector := combined;
                codeVec := codeV;
                styleVec := styleV;
                structureVec := structureV;
                holisticVec := holisticV;
                styleText := lsStyleText ls;
                stylePaths := lsStylePaths ls;
                hasCssInJs := lsHasCssInJs ls;
                hasStyles := hasStyleText (lsStyleText ls);
                representation := rep |} ])%list;
        embedCalls := log |}.

(** [for (const component of components)] *)
Definition embedLoop (components : list component) (st : embedState)
  : result embedState :=
  foldM embedComponent components st.
End EmbedComponents.

End Embedding.

(* ================================================================== *)
(** ** Vocabulary of the statements *)

(** the label a check contributes, if any *)
Definition labelsOf (r : option (string * string)) : list string :=
match r with
| Some (label, _) => [label]
| None => []
end.

(** what the five rules before [forkCheck] contribute, each from the context
    alone *)
Definition earlierLabels (vec : Type) (ctx : context vec) : list string :=
(labelsOf (wrapperCheck ctx) ++ labelsOf (styleCheck ctx)
 ++ labelsOf (logicCheck ctx) ++ labelsOf (copyCheck ctx)
 ++ labelsOf (propCheck ctx))%list.

(** a unit whose absent metadata lists are written out as empty lists *)
Definition withDefaults (c : component) : component :=
{| id := id c;
   name := name c;
   filePath := filePath c;
   source := source c;
   logicTokens := Some (orNil (logicTokens c));
   literals := Some (orNil (literals c));
   hooks := Some (orNil (hooks c));
   jsxTags := Some (orNil (jsxTags c));
   textNodes := Some (orNil (textNodes c));
   classNames := Some (orNil (classNames c));
   componentRefs := Some (orNil (componentRefs c));
   props :=
     Some {| names := Some (orNil (match props c with
                                   | Some p => names p
                                   | None => None
                                   end));
             spreads := match props c with
                        | Some p => spreads p
                        | None => 0
                        end |};
   isWrapper := isWrapper c;
   isCompareTarget := isCompareTarget c |}.

Definition entryWithDefaults (vec : Type) (e : entry vec) : entry vec :=
{| entryComponent := withDefaults (entryComponent e);
   vector := vector e;
   codeVec := codeVec e;
   styleVec := styleVec e;
   structureVec := structureVec e;
   holisticVec := holisticVec e;
   styleText := styleText e;
   stylePaths := stylePaths e;
   hasCssInJs := hasCssInJs e;
   hasStyles := hasStyles e;
   representation := representation e |}.

(** every unordered pair of entries, in the order the two loops visit them *)
Fixpoint enumeratePairs (A : Type) (es : list A) : list (A * A) :=
match es with
| [] => []
| e :: rest => (map (fun x => (e, x)) rest ++ enumeratePairs rest)%list
end.

(** the pair passes the compare-mode filter *)
Definition compared (vec : Type) (cfg : config) (p : entry vec * entry vec) : bool :=
negb (compareEnabled cfg
      && negb (xorb (isCompareTarget (entryComponent (fst p)))
                    (isCompareTarget (entryComponent (snd p))))).

(** the cosine of a pair of entries *)
Definition pairCosine (vec : Type) (cosine : vec -> vec -> Q)
  (p : entry vec * entry vec) : Q :=
cosine (vector (fst p)) (vector (snd p)).

(** the per-unit best similarities after one more pair *)
Definition trackPair (vec : Type) (cosine : vec -> vec -> Q)
  (best : list (string * Q)) (p : entry vec * entry vec) : list (string * Q) :=
trackBestSimilarity
  (trackBestSimilarity best (id (entryComponent (fst p))) (pairCosine cosine p))
  (id (entryComponent (snd p))) (pairCosine cosine p).


(** what holds of a reported pair: it comes from two entries at positions
  [i < j] whose cosine passed the two threshold gates, and it records the
  rounded cosine *)
Definition accepted (vec : Type) (cosine : vec -> vec -> Q)
(entries : list (entry vec)) (cfg : config) (p : reportedPair) : Prop :=
exists i j ei ej,
  (i < j)%nat
  /\ nth_error entries i = Some ei
  /\ nth_error entries j = Some ej
  /\ a p = id (entryComponent ei)
  /\ b p = id (entryComponent ej)
  /\ similarity p = round4 (cosine (vector ei) (vector ej))
  /\ (similarityThreshold cfg <= cosine (vector ei) (vector ej))%Q
  /\ (cosine (vector ei) (vector ej) - maxThreshold cfg <= epsilon)%Q.


Definition throws (A : Type) (r : result A) : Prop := exists e, r = Throw e.
Definition returns (A : Type) (r : result A) : Prop := exists x, r = Ok x.

(* ================================================================== *)
(** ** Sample inputs

    Concrete units, entries and configurations on which the definitions
    above are run below. On vectors of length one, the cosine is the dot
    product. *)

Module Sample.
Local Open Scope string_scope.

Definition qvec : Type := list Q.

Definition dot (u v : qvec) : Q :=
  fold_left Qplus (map (fun p => fst p * snd p)%Q (combine u v)) 0%Q.

Definition hintsOf (_ : option string) : messages :=
  {| hintWrapper := "wrapper";
     hintStyle := "style";
     hintLogic := "logic";
     hintCopy := "copy";
     hintProp := "props";
     hintFork := "fork" |}.

Definition mkUnit (ident path src : string) (logic lits : option (list string))
  : component :=
  {| id := ident;
     name := ident;
     filePath := Some path;
     source := Some src;
     logicTokens := logic;
     literals := lits;
     hooks := None;
     jsxTags := None;
     textNodes := None;
     classNames := None;
     componentRefs := None;
     props := None;
     isWrapper := false;
     isCompareTarget := false |}.

Definition entryOf (c : component) (v : qvec) : entry qvec :=
  {| entryComponent := c;
     vector := v;
     codeVec := v;
     styleVec := v;
     structureVec := v;
     holisticVec := v;
     styleText := None;
     stylePaths := None;
     hasCssInJs := false;
     hasStyles := false;
     representation :=
       {| codeRep := ""; styleRep := ""; structureRep := ""; holisticRep := "" |} |}.

Definition settings (threshold : Q) (maxT : option Q) (globs : option (list string))
  (minDist : option Q) : config :=
  {| similarityThreshold := threshold;
     highSimilarityThreshold := 9 # 10;
     maxSimilarityThreshold := maxT;
     limit := None;
     compareGlobs := globs;
     minPathDistance := minDist;
     disableAnalyses := None;
     language := None |}.

(** two units in one directory, with unit vectors (1, 0) and (5/13, 12/13) *)
Definition unitA : component :=
  mkUnit "src/a/A.tsx#A" "src/a/A.tsx" "const A = 1" (Some ["x"]) (Some []).
Definition unitB : component :=
  mkUnit "src/a/B.tsx#B" "src/a/B.tsx" "const B = 2" (Some ["y"]) (Some []).
Definition entryA : entry qvec := entryOf unitA [1; 0].
Definition entryB : entry qvec := entryOf unitB [5 # 13; 12 # 13].


(** four one-dimensional vectors, all zero (what the backends return for a
    zero embedding) and all one; no weight configured, a style signal present *)
Definition zeroVectors : Embedding.vectors :=
{| Embedding.vCode := Some [0%R];
   Embedding.vStyle := Some [0%R];
   Embedding.vStructure := Some [0%R];
   Embedding.vHolistic := Some [0%R] |}.
Definition oneVectors : Embedding.vectors :=
{| Embedding.vCode := Some [1%R];
   Embedding.vStyle := Some [1%R];
   Embedding.vStructure := Some [1%R];
   Embedding.vHolistic := Some [1%R] |}.
Definition noWeight : Embedding.weightT :=
{| Embedding.wCode := None;
   Embedding.wStyle := None;
   Embedding.wStructure := None;
   Embedding.wHolistic := None |}.

(** an embedding run over [unitA] whose cache entry was computed from an
    earlier source text of the unit *)
Definition styleLoader (_ : component) : Embedding.styles :=
{| Embedding.lsStyleText := None;
   Embedding.lsStylePaths := None;
   Embedding.lsHasCssInJs := false |}.
Definition representationOf (c : component) (_ : option string) : representationT :=
{| codeRep := Cache.orEmpty (source c);
   styleRep := "";
   structureRep := "structure";
   holisticRep := "holistic" |}.
Definition mockEmbed (_ : string) : result Embedding.rvec := Ok [1%R].
Definition staleEntry : Embedding.cacheEntry :=
{| Embedding.fingerprint :=
     Cache.fingerprintRepresentation (Some "const A = 0") (Some "") None
       (Some "structure") (Some "holistic");
   Embedding.ceCodeVec := Some [1%R];
   Embedding.ceStyleVec := Some [0%R];
   Embedding.ceStructureVec := Some [1%R];
   Embedding.ceHolisticVec := Some [1%R];
   Embedding.ceFilePath := Some "src/a/A.tsx" |}.
Definition staleState : Embedding.embedState :=
{| Embedding.cache := [(Cache.buildCacheKey "mock" (id unitA), staleEntry)];
   Embedding.dirty := false;
   Embedding.stats :=
     {| Embedding.hits := 0; Embedding.misses := 0; Embedding.uncached := [] |};
   Embedding.produced := [];
   Embedding.embedCalls := [] |}.

(** the entries of the stylesheet tests: style vector (1, 0), given style
    paths and CSS-in-JS flag *)
Definition styledEntry (c : component) (paths : list string) (cssInJs : bool)
  : entry qvec :=
{| entryComponent := c;
   vector := [1; 0]%Q;
   codeVec := [1; 0]%Q;
   styleVec := [1; 0]%Q;
   structureVec := [1; 0]%Q;
   holisticVec := [1; 0]%Q;
   styleText := None;
   stylePaths := Some paths;
   hasCssInJs := cssInJs;
   hasStyles := true;
   representation :=
     {| codeRep := ""; styleRep := ""; structureRep := ""; holisticRep := "" |} |}.
Definition plainA : component := mkUnit "A" "A.tsx" "" (Some []) (Some []).
Definition plainB : component := mkUnit "B" "B.tsx" "" (Some []) (Some []).
Definition plainC : component := mkUnit "C" "C.tsx" "" (Some []) (Some []).

(** a cache file that neither decoder accepts *)
Definition corruptDisk : Cache.fileSystem :=
  {| Cache.existsSync := fun p => String.eqb p "embeddings.json";
     Cache.readFileSync := fun _ => Ok [123; 34; 118]%Z |}.
Definition rejectMsgpack (_ : list Z) : result Cache.jsval :=
  Throw (ParseError "Data read, but end of buffer not reached").
Definition rejectJson (_ : list Z) : result Cache.jsval :=
  Throw (ParseError "Unexpected end of JSON input").
Definition cacheReadPrefix (_ : option string) : string :=
  "Failed to read cache".

(** the first pair of the label tests: two wrappers with the same logic *)
Definition wrapperA : component :=
{| id := "A"; name := "A"; filePath := Some "A.tsx";
   source := Some "line1
line2
line3";
   logicTokens := Some ["toggle"; "fetch"];
   literals := Some ["primary"; "yes"];
   hooks := None; jsxTags := None; textNodes := None; classNames := None;
   componentRefs := None; props := None;
   isWrapper := true; isCompareTarget := false |}.
Definition wrapperB : component :=
{| id := "B"; name := "B"; filePath := Some "B.tsx";
   source := Some "line1
line2
line3";
   logicTokens := Some ["toggle"; "fetch"];
   literals := Some ["primary"; "no"];
   hooks := None; jsxTags := None; textNodes := None; classNames := None;
   componentRefs := None; props := None;
   isWrapper := true; isCompareTarget := false |}.
Definition testConfig (disabled : list string) : config :=
{| similarityThreshold := 8 # 10;
   highSimilarityThreshold := 9 # 10;
   maxSimilarityThreshold := None;
   limit := None;
   compareGlobs := None;
   minPathDistance := None;
   disableAnalyses := Some disabled;
   language := None |}.

(** the fork test: five lines against one, the other analyses disabled *)
Definition longUnit : component :=
mkUnit "A" "A.tsx" "line1
line2
line3
line4
line5" (Some []) (Some []).
Definition shortUnit : component := mkUnit "B" "B.tsx" "line1" (Some []) (Some []).

(** a unit with empty lists and one that lacks [logicTokens] and [literals] *)
Definition emptyListsUnit : component := mkUnit "E" "E.tsx" "one" (Some []) (Some []).
Definition noListsUnit : component := mkUnit "N" "N.tsx" "two" None None.
End Sample.

(* ================================================================== *)
(** ** Further vocabulary *)

(** the number of pairs of a list that have the identity as [a] or as [b] *)
Definition touches (ident : string) (ps : list reportedPair) : nat :=
List.length
  (filter (fun p => String.eqb (a p) ident || String.eqb (b p) ident) ps).

(** the total of a counter table *)
Definition sumCounts (counts : list (string * nat)) : nat :=
fold_right (fun kv acc => snd kv + acc)%nat 0%nat counts.

(** what the loop keeps true of the per-unit best table and the running
    maximum: keys are distinct, every recorded best is positive and at most the
    maximum, and the maximum is 0 with an empty table or is itself recorded *)
Definition bestInvariant (best : list (string * Q)) (maxSim : Q) : Prop :=
NoDup (map fst best)
/\ (0 <= maxSim)%Q
/\ (forall kv, In kv best -> (0 < snd kv /\ snd kv <= maxSim)%Q)
/\ ((best = [] /\ maxSim = 0%Q) \/ exists k, In (k, maxSim) best).

(** the pair object pushed for two entries, given the labels and hints *)
Definition reportOf (vec : Type) (cosine : vec -> vec -> Q) (cfg : config)
  (ei ej : entry vec) (lh : list string * list string) : reportedPair :=
{| a := id (entryComponent ei);
   b := id (entryComponent ej);
   similarity := round4 (cosine (vector ei) (vector ej));
   category :=
     if Qgeb (cosine (vector ei) (vector ej)) (highSimilarityThreshold cfg)
     then "almost-identical"%string else "near-duplicate"%string;
   labels := fst lh;
   hints := snd lh |}.

(** the six labels, in the order [labelPair] runs its checks *)
Definition allLabels : list string :=
["wrapper-duplicate"; "style-duplicate"; "logic-duplicate"; "copy-paste-variant";
 "prop-parameterizable"; "forked-clone"]%string.

(** [p] comes before [q] in a list sorted by decreasing similarity *)
Definition bySimilarityDesc (p q : reportedPair) : Prop :=
(similarity q <= similarity p)%Q.

(** the cache record [embedComponents] writes for an entry it produced *)
Definition storedEntry (fp : string) (e : entry Embedding.rvec) : Embedding.cacheEntry :=
{| Embedding.fingerprint := fp;
   Embedding.ceCodeVec := Some (codeVec e);
   Embedding.ceStyleVec := Some (styleVec e);
   Embedding.ceStructureVec := Some (structureVec e);
   Embedding.ceHolisticVec := Some (holisticVec e);
   Embedding.ceFilePath := filePath (entryComponent e) |}.

(** all four vectors of an entry are non-empty arrays *)
Definition completeVectors (e : entry Embedding.rvec) : bool :=
forallb Embedding.nonEmptyArray
  [Some (codeVec e); Some (styleVec e); Some (structureVec e); Some (holisticVec e)].

(** the locals of [embedComponents] as they stand before its loop, for a
    given cache *)
Definition startState (entries : list (string * Embedding.cacheEntry))
  : Embedding.embedState :=
{| Embedding.cache := entries;
   Embedding.dirty := false;
   Embedding.stats :=
     {| Embedding.hits := 0; Embedding.misses := 0; Embedding.uncached := [] |};
   Embedding.produced := [];
   Embedding.embedCalls := [] |}.

(* ---------------------------------------------------------------- *)
(** ** Cleaning the cache ([maybeCleanCache]) *)

Module Cleaning.
Import Embedding.
Local Open Scope string_scope.

(** [key.lastIndexOf(ch)], for a key whose first character has index [i] *)
Fixpoint lastIndexOf (ch : ascii) (key : string) (i : nat) : option nat :=
  match key with
  | EmptyString => None
  | String c rest =>
      match lastIndexOf ch rest (S i) with
      | Some j => Some j
      | None => if Ascii.eqb c ch then Some i else None
      end
  end.

(** [s.slice(start)] *)
Definition slice (start : nat) (s : string) : string :=
  substring start (String.length s - start) s.

(** [s.split(ch)[0]] *)
Fixpoint firstField (ch : ascii) (s : string) : string :=
  match s with
  | EmptyString => EmptyString
  | String c rest => if Ascii.eqb c ch then EmptyString else String c (firstField ch rest)
  end.

Definition extractFilePathFromCacheKey (key : string) : option string :=
  if String.eqb key "" then None
  else
    match lastIndexOf ":" key 0 with
    | None => None
    | Some separatorIndex => Some (firstField "#" (slice (separatorIndex + 1) key))
    end.

(** [entry?.filePath || extractFilePathFromCacheKey(key)] *)
Definition resolvePath (key : string) (e : cacheEntry) : option string :=
  match ceFilePath e with
  | Some p => if String.eqb p "" then extractFilePathFromCacheKey key else Some p
  | None => extractFilePathFromCacheKey key
  end.

(** [filePath && !fs.existsSync(filePath)] *)
Definition isOrphan (fsys : Cache.fileSystem) (kv : string * cacheEntry) : bool :=
  match resolvePath (fst kv) (snd kv) with
  | Some p => negb (String.eqb p "") && negb (Cache.existsSync fsys p)
  | None => false
  end.

(** [delete cache.entries[key]] *)
Fixpoint cacheDelete (m : list (string * cacheEntry)) (k : string)
  : list (string * cacheEntry) :=
  match m with
  | [] => []
  | (k', e) :: rest =>
      if String.eqb k' k then rest else (k', e) :: cacheDelete rest k
  end.

(** the callback of [forEach], on the live object and the counter *)
Definition cleanStep (fsys : Cache.fileSystem)
  (acc : list (string * cacheEntry) * nat) (kv : string * cacheEntry)
  : list (string * cacheEntry) * nat :=
  if isOrphan fsys kv then (cacheDelete (fst acc) (fst kv), S (snd acc)) else acc.

(** [random] is the value [Math.random()] returns; the result is the entries
    object after the call, and the number returned *)
Definition maybeCleanCache (fsys : Cache.fileSystem) (random : Q)
  (cleanProbability : option Q) (entries : option (list (string * cacheEntry)))
  : option (list (string * cacheEntry)) * nat :=
  match entries with
  | None => (None, 0%nat)
  | Some m =>
      if Qgtb random (match cleanProbability with Some p => p | None => 0%Q end)
      then (Some m, 0%nat)
      else
        let '(m', removed) := fold_left (cleanStep fsys) m (m, 0%nat) in
        (Some m', removed)
  end.

End Cleaning.

(** a cache of two records - one with its path stored, whose file exists, one
    without a stored path, whose file is gone - and the disk they are checked
    against *)
Definition keptRecord : string * Embedding.cacheEntry :=
(Cache.buildCacheKey "mock" "src/a/A.tsx#A", Sample.staleEntry).
Definition goneRecord : string * Embedding.cacheEntry :=
(Cache.buildCacheKey "remote:text-embedding" "src/gone/B.tsx#B",
 {| Embedding.fingerprint := "0"%string;
    Embedding.ceCodeVec := Some [1%R];
    Embedding.ceStyleVec := Some [0%R];
    Embedding.ceStructureVec := Some [1%R];
    Embedding.ceHolisticVec := Some [1%R];
    Embedding.ceFilePath := None |}).
Definition sourceDisk : Cache.fileSystem :=
{| Cache.existsSync := fun p => String.eqb p "src/a/A.tsx";
   Cache.readFileSync := fun _ => Ok [] |}.

(** two contexts that describe one pair taken in its two orders *)
Definition mirrored (vec : Type) (c1 c2 : context vec) : Prop :=
ctxConfig c1 = ctxConfig c2
/\ ctxI18n c1 = ctxI18n c2
/\ ctxSimilarity c1 = ctxSimilarity c2
/\ isWrapper (entryComponent (ctxEntryA c1)) = isWrapper (entryComponent (ctxEntryB c2))
/\ isWrapper (entryComponent (ctxEntryB c1)) = isWrapper (entryComponent (ctxEntryA c2))
/\ logicOverlap c1 = logicOverlap c2
/\ literalOverlap c1 = literalOverlap c2
/\ (styleSimilarity c1 == styleSimilarity c2)%Q
/\ tokenOverlap c1 = tokenOverlap c2
/\ lineDiff c1 = lineDiff c2
/\ ctxHasProps c1 = ctxHasProps c2
/\ ctxHasStyles c1 = ctxHasStyles c2
/\ stylePathsA c1 = stylePathsB c2
/\ stylePathsB c1 = stylePathsA c2
/\ hasCssInJsA c1 = hasCssInJsB c2
/\ hasCssInJsB c1 = hasCssInJsA c2.

(** a part with its weight multiplied by [k] *)
Definition scalePart (k : R) (p : Embedding.part) : Embedding.part :=
{| Embedding.partKey := Embedding.partKey p;
   Embedding.partVec := Embedding.partVec p;
   Embedding.partWeight := (k * Embedding.partWeight p)%R |}.

(** four given weights, and the same weights multiplied by [k] *)
Definition weightsOf (c s t h : R) : Embedding.weightT :=
{| Embedding.wCode := Some c;
   Embedding.wStyle := Some s;
   Embedding.wStructure := Some t;
   Embedding.wHolistic := Some h |}.

(* ---------------------------------------------------------------- *)
(** ** [src/i18n.js]: choosing the language *)

Module I18n.
Local Open Scope string_scope.

Definition SUPPORTED_LANGS : list string := ["en"; "ru"; "es"; "fr"; "de"; "zh"].

(** [trim], on the characters of the string: leading white space, then
    trailing white space (the ASCII white space of [isSpace]) *)
Fixpoint trimStart (cs : list ascii) : list ascii :=
  match cs with
  | [] => []
  | c :: rest => if isSpace c then trimStart rest else cs
  end.

Fixpoint trimEnd (cs : list ascii) : list ascii :=
  match cs with
  | [] => []
  | c :: rest =>
      match trimEnd rest with
      | [] => if isSpace c then [] else [c]
      | kept => c :: kept
      end
  end.

Definition trim (s : string) : string :=
  string_of_list_ascii (trimEnd (trimStart (list_ascii_of_string s))).

(** [s.split(/[...]/)[0]] for a character class *)
Fixpoint firstPiece (sep : ascii -> bool) (s : string) : string :=
  match s with
  | EmptyString => EmptyString
  | String c rest => if sep c then EmptyString else String c (firstPiece sep rest)
  end.

(** the classes [[.@]] and [[-_]] *)
Definition isDotOrAt (c : ascii) : bool :=
  Ascii.eqb c "."%char || Ascii.eqb c "@"%char.
Definition isDashOrUnderscore (c : ascii) : bool :=
  Ascii.eqb c "-"%char || Ascii.eqb c "_"%char.

(** [value] is a string, or absent ([undefined] or [null]) *)
Definition normalizeLanguage (value : option string) : option string :=
  match value with
  | None => None
  | Some v =>
      if String.eqb v "" then None
      else
        let trimmed := toLowerCase (trim v) in
        if String.eqb trimmed "" then None
        else
          let cleaned := firstPiece isDotOrAt trimmed in
          let primary := firstPiece isDashOrUnderscore cleaned in
          if mem primary SUPPORTED_LANGS then Some primary else None
  end.

Definition resolveLanguage (value : option string) (fallback : string) : string :=
  match normalizeLanguage value with
  | Some primary => primary
  | None => fallback
  end.

(** the [for] loop of [resolveLanguageFromArgv] from index [i] on, [argv]
    being the elements from [i] on, so that [argv[i + 1]] is the head of the
    rest *)
Fixpoint argvLoop (argv : list string) (fallback : string) : string :=
  match argv with
  | [] => resolveLanguage None fallback
  | arg :: rest =>
      if String.eqb arg "--lang" then resolveLanguage (hd_error rest) fallback
      else if String.prefix "--lang=" arg
      then resolveLanguage (Some (Cleaning.slice (String.length "--lang=") arg)) fallback
      else argvLoop rest fallback
  end.

(** [argv] is an array of strings, or not an array *)
Definition resolveLanguageFromArgv (argv : option (list string)) (fallback : string)
  : string :=
  match argv with
  | None => resolveLanguage None fallback
  | Some args => argvLoop args fallback
  end.

End I18n.

(* ---------------------------------------------------------------- *)
(** ** [src/cache.js]: writing the cache, and the model key *)

Module Saving.
Import Cache.
Local Open Scope string_scope.
Local Open Scope js_scope.

Section SaveCache.
(** [encode] of msgpackr, [path.dirname], and the two calls that change the
    disk: [fs.mkdirSync(dir, { recursive: true })] and
    [fs.writeFileSync(path, data)] *)
Variable encode : jsval -> list Z.
Variable dirname : string -> string.
Variable mkdirSync : fileSystem -> string -> result fileSystem.
Variable writeFileSync : fileSystem -> string -> list Z -> result fileSystem.

(** the result is the disk after the call *)
Definition saveCache (disk : fileSystem) (cachePath : option string) (cache : jsval)
  : result fileSystem :=
  match cachePath with
  | None => Ok disk
  | Some p =>
      if String.eqb p "" then Ok disk
      else
        disk1 <- mkdirSync disk (dirname p) ;;
        writeFileSync disk1 p (encode cache)
  end.
End SaveCache.

(** [config.model], [config.remote?.model] and [config.modelPath] *)
Record modelConfig : Type := {
  model : string;
  remoteModel : option string;
  modelPath : string
}.

Definition modelKey (cfg : modelConfig) : string :=
  if String.eqb (model cfg) "remote" then "remote:" ++ orEmpty (remoteModel cfg)
  else if String.eqb (model cfg) "mock" then "mock"
  else "local:" ++ modelPath cfg.

End Saving.

(** a disk on which a write stores the data under the path, and nothing else
    changes *)
Definition storeFile (disk : Cache.fileSystem) (p : string) (data : list Z)
  : result Cache.fileSystem :=
Ok {| Cache.existsSync := fun q => String.eqb q p || Cache.existsSync disk q;
      Cache.readFileSync :=
        fun q => if String.eqb q p then Ok data else Cache.readFileSync disk q |}.

(** a store with one record, a codec that maps it to three bytes and back,
    and a disk that holds these bytes *)
Definition savedStore : Cache.jsval :=
Cache.VObj
  [("version"%string, Cache.VNum 1);
   ("entries"%string,
    Cache.VObj [("mock:src/a/A.tsx#A"%string,
                 Cache.VObj [("fingerprint"%string, Cache.VStr "0")])])].
Definition encodeSaved (_ : Cache.jsval) : list Z := [130; 167; 118]%Z.
Definition decodeSaved (raw : list Z) : result Cache.jsval :=
match raw with
| [130; 167; 118]%Z => Ok savedStore
| _ => Throw (ParseError "Data read, but end of buffer not reached")
end.
Definition cacheDisk : Cache.fileSystem :=
{| Cache.existsSync := fun p => String.eqb p "embeddings.json";
   Cache.readFileSync := fun _ => Ok [130; 167; 118]%Z |}.

(* ---------------------------------------------------------------- *)
(** ** [src/output.js]: figures and snippets of the report *)

Module Output.
Local Open Scope string_scope.

(** [ids.add(x)], the set kept in insertion order *)
Definition setAdd (ids : list string) (x : string) : list string :=
  if mem x ids then ids else (ids ++ [x])%list.

(** the callback of [pairs.forEach] *)
Definition addPair (ids : list string) (p : reportedPair) : list string :=
  let ids := if String.eqb (a p) "" then ids else setAdd ids (a p) in
  if String.eqb (b p) "" then ids else setAdd ids (b p).

Definition countPairedComponents (pairs : list reportedPair) : nat :=
  List.length (fold_left addPair pairs []).

(** [line.length > 120 ? `${line.slice(0, 117)}...` : line], a line being
    the list of its characters *)
Definition clipLine (line : list ascii) : list ascii :=
  if (120 <? List.length line)%nat
  then (firstn 117 line ++ list_ascii_of_string "...")%list
  else line.

(** [lines.join('\n')] *)
Fixpoint joinLines (lines : list (list ascii)) : list ascii :=
  match lines with
  | [] => []
  | [line] => line
  | line :: rest => (line ++ "010"%char :: joinLines rest)%list
  end.

(** the array [processed] of [trimSource] *)
Definition snippetLines (source : option string) : list (list ascii) :=
  let lines :=
    filter (fun l => negb (forallb isSpace l))
      (splitChars isNewline (list_ascii_of_string (Cache.orEmpty source))) in
  let limited := firstn 12 lines in
  map clipLine limited.

Definition trimSource (source : option string) : string :=
  string_of_list_ascii (joinLines (snippetLines source)).

End Output.

(* ---------------------------------------------------------------- *)
(** ** [config.js]: cleaning and merging option objects *)

Module Config.
Import Cache.
Local Open Scope string_scope.
Local Open Scope js_scope.

Definition isUndefinedValue (v : jsval) : bool :=
  match v with
  | VUndefined => true
  | _ => false
  end.

(** [typeof cleaned !== 'object' || Object.keys(cleaned).length > 0];
    [Object.keys(null)] is a [TypeError] *)
Definition keepsCleaned (cleaned : jsval) : result bool :=
  match cleaned with
  | VNull => Throw (TypeError "Cannot convert undefined or null to object")
  | VArr items => Ok (0 <? List.length items)%nat
  | VObj fields => Ok (0 <? List.length fields)%nat
  | _ => Ok true
  end.

Section StripFields.
(** the recursive call *)
Variable strip : jsval -> result jsval.

(** the [reduce] over [Object.entries(value)]; the keys of an object are
    distinct, so [acc[key] = cleaned] adds a property at the end *)
Fixpoint stripFields (fields acc : list (string * jsval))
  : result (list (string * jsval)) :=
  match fields with
  | [] => Ok acc
  | (key, val) :: rest =>
      if isUndefinedValue val then stripFields rest acc
      else
        cleaned <- strip val ;;
        keep <- (if isUndefinedValue cleaned then Ok false else keepsCleaned cleaned) ;;
        stripFields rest (if (keep : bool) then (acc ++ [(key, cleaned)])%list else acc)
  end.
End StripFields.

Fixpoint stripUndefined (value : jsval) : result jsval :=
  match value with
  | VArr items => Ok (VArr (filter (fun v => negb (isUndefinedValue v)) items))
  | VObj fields =>
      acc <- stripFields stripUndefined fields [] ;;
      Ok (VObj acc)
  | _ => Ok value
  end.

(** [arrays.filter(Boolean).flat()] *)
Definition flatOne (v : jsval) : list jsval :=
  match v with
  | VArr items => items
  | _ => [v]
  end.

Definition mergeArrays (arrays : list jsval) : list jsval :=
  flat_map flatOne (filter truthy arrays).

(** [obj[key] = value] on the properties in insertion order *)
Fixpoint objSet (fields : list (string * jsval)) (key : string) (value : jsval)
  : list (string * jsval) :=
  match fields with
  | [] => [(key, value)]
  | (k, v) :: rest =>
      if String.eqb k key then (k, value) :: rest else (k, v) :: objSet rest key value
  end.

(** [{ ...target, ...source }], [source] being an object or a falsy value
    replaced by the empty object *)
Definition spreadInto (target : list (string * jsval))
  (source : option (list (string * jsval))) : list (string * jsval) :=
  fold_left (fun acc kv => objSet acc (fst kv) (snd kv))
    (match source with Some fields => fields | None => [] end) target.

Definition mergeObjects (base : list (string * jsval))
  (fromFile fromCli : option (list (string * jsval))) : list (string * jsval) :=
  fold_left
    (fun acc kv => if negb (isUndefinedValue (snd kv)) then objSet acc (fst kv) (snd kv)
                   else acc)
    (spreadInto (spreadInto base fromFile) fromCli) [].

(** the own property [key] of an object, if it has one *)
Definition ownProp (fields : list (string * jsval)) (key : string) : option jsval :=
  match find (fun kv => String.eqb (fst kv) key) fields with
  | Some kv => Some (snd kv)
  | None => None
  end.

(** no [undefined] property value, no empty array or object as a property
    value, no [undefined] element in an array that is a property value, at any
    depth of nested objects *)
Fixpoint cleanValue (v : jsval) : bool :=
  match v with
  | VUndefined | VNull => false
  | VArr items =>
      (0 <? List.length items)%nat && forallb (fun x => negb (isUndefinedValue x)) items
  | VObj fields =>
      (0 <? List.length fields)%nat && forallb (fun kv => cleanValue (snd kv)) fields
  | _ => true
  end.

End Config.

(* ================================================================== *)
(** * Properties *)

Local Open Scope string_scope.

(** ** Generic facts *)

Lemma foldM_app {A S : Type} (body : S -> A -> result S) (xs ys : list A) (s : S) :
  foldM body (xs ++ ys) s = bind (foldM body xs s) (foldM body ys).
Proof.
  revert s. induction xs as [|x xs IH]; intros s; simpl.
  - reflexivity.
  - destruct (body s x) as [s'|e]; simpl; auto.
Qed.

(** An invariant kept by every iteration that returns holds when the loop
    returns. *)
Lemma foldM_invariant {A S : Type} (P : S -> Prop) (body : S -> A -> result S)
  (xs : list A) :
  (forall s x s', In x xs -> P s -> body s x = Ok s' -> P s') ->
  forall s s', P s -> foldM body xs s = Ok s' -> P s'.
Proof.
  induction xs as [|x xs IH]; intros Hstep s s' Hs Hrun; simpl in Hrun.
  - inversion Hrun; subst; assumption.
  - destruct (body s x) as [s1|e] eqn:Hb; simpl in Hrun; [|discriminate].
    apply IH with (s := s1); auto.
    + intros s2 y s3 Hy; apply Hstep; right; assumption.
    + apply Hstep with (s := s) (x := x); auto. left; reflexivity.
Qed.

Lemma foldM_ext {A S : Type} (f g : S -> A -> result S) (xs : list A) :
  (forall s x, In x xs -> f s x = g s x) ->
  forall s, foldM f xs s = foldM g xs s.
Proof.
  induction xs as [|x xs IH]; intros Hfg s; simpl.
  - reflexivity.
  - rewrite Hfg by (left; reflexivity).
    destruct (g s x) as [s1|e]; simpl; auto.
    apply IH. intros s2 y Hy. apply Hfg. right; assumption.
Qed.

Lemma Qle_bool_false (x y : Q) : Qle_bool x y = false <-> (y < x)%Q.
Proof.
  split.
  - intros H. apply Qnot_le_lt. intros Hle. apply Qle_bool_iff in Hle. congruence.
  - intros H. destruct (Qle_bool x y) eqn:Hle; [|reflexivity].
    apply Qle_bool_iff in Hle. exfalso. exact (Qlt_not_le _ _ H Hle).
Qed.

Lemma Qltb_true (x y : Q) : Qltb x y = true <-> (x < y)%Q.
Proof. unfold Qltb. rewrite negb_true_iff. apply Qle_bool_false. Qed.

Lemma Qltb_false (x y : Q) : Qltb x y = false <-> (y <= x)%Q.
Proof. unfold Qltb. rewrite negb_false_iff. apply Qle_bool_iff. Qed.

Lemma Qgtb_true (x y : Q) : Qgtb x y = true <-> (y < x)%Q.
Proof. unfold Qgtb. rewrite negb_true_iff. apply Qle_bool_false. Qed.

Lemma Qgtb_false (x y : Q) : Qgtb x y = false <-> (x <= y)%Q.
Proof. unfold Qgtb. rewrite negb_false_iff. apply Qle_bool_iff. Qed.

Lemma Qgeb_true (x y : Q) : Qgeb x y = true <-> (y <= x)%Q.
Proof. unfold Qgeb. apply Qle_bool_iff. Qed.

Lemma list_ascii_of_string_app (s t : string) :
  list_ascii_of_string (s ++ t) = (list_ascii_of_string s ++ list_ascii_of_string t)%list.
Proof. induction s as [|c s IH]; simpl; [reflexivity|now rewrite IH]. Qed.

Lemma string_app_assoc (s t u : string) : (s ++ t) ++ u = s ++ t ++ u.
Proof. induction s as [|c s IH]; simpl; [reflexivity | now rewrite IH]. Qed.

Lemma bytes_of_string_app (s t : string) :
  Sha1.bytes_of_string (s ++ t)
  = (Sha1.bytes_of_string s ++ Sha1.bytes_of_string t)%list.
Proof.
  unfold Sha1.bytes_of_string. now rewrite list_ascii_of_string_app, map_app.
Qed.


(* ------------------------------------------------------------------ *)
(** ** Fingerprints *)

(** SHA-1 test vectors (FIPS 180) *)
Example sha1_abc :
  Sha1.hex (Sha1.bytes_of_string "abc") = "a9993e364706816aba3e25717850c26c9cd0d89d"%string.
Proof. vm_compute. reflexivity. Qed.

Example sha1_empty :
  Sha1.hex [] = "da39a3ee5e6b4b0d3255bfef95601890afd80709"%string.
Proof. vm_compute. reflexivity. Qed.

Example sha1_two_blocks :
  Sha1.hex (Sha1.bytes_of_string
     "abcdbcdecdefdefgefghfghighijhijkijkljklmklmnlmnomnopnopq")
  = "84983e441c3bd26ebaae4aa1f95129e5e54670f1"%string.
Proof. vm_compute. reflexivity. Qed.

(** feeding two strings one after the other is feeding their concatenation *)
Lemma update_update (h : Cache.hash) (s t : string) :
  Cache.update (Cache.update h s) t = Cache.update h (s ++ t).
Proof.
  unfold Cache.update. now rewrite bytes_of_string_app, app_assoc.
Qed.

(** C4, as stated, fails: the five inputs are fed to the hash one after the
    other with nothing between them, so ('ab', '') and ('a', 'b') in the
    first two slots give one and the same fingerprint. *)
Lemma fingerprint_slots_collide :
  (Some "ab", Some "") <> (Some "a", Some "b")
  /\ Cache.fingerprintRepresentation (Some "ab") (Some "") (Some "") (Some "s") (Some "h")
     = Cache.fingerprintRepresentation (Some "a") (Some "b") (Some "") (Some "s") (Some "h").
Proof. split; [discriminate | reflexivity]. Qed.

(** C4, amended: the fingerprint is the SHA-1 digest, in hexadecimal, of the
    plain concatenation of the five inputs in the order code, style, style
    text, structure, holistic, an absent input counting as the empty string;
    it is therefore a function of that concatenation alone. *)
Theorem fingerprint_is_digest_of_concatenation
  (codeRep styleRep styleText structureRep holisticRep : option string) :
  Cache.fingerprintRepresentation codeRep styleRep styleText structureRep holisticRep
  = Sha1.hex (Sha1.bytes_of_string
      (Cache.orEmpty codeRep ++ Cache.orEmpty styleRep ++ Cache.orEmpty styleText
       ++ Cache.orEmpty structureRep ++ Cache.orEmpty holisticRep)).
Proof.
  unfold Cache.fingerprintRepresentation, Cache.digest_hex.
  rewrite !update_update.
  unfold Cache.update, Cache.createHash. simpl.
  now rewrite ?string_app_assoc.
Qed.


(* ------------------------------------------------------------------ *)
(** ** The path-distance gate *)

Lemma fromEnd_rev (parts : list string) (k : nat) :
  fromEnd parts (S k) = nth_error (rev parts) k.
Proof. unfold fromEnd. rewrite nth_error_rev. reflexivity. Qed.

Lemma skipn_unfold {A : Type} (l : list A) (k : nat) :
  skipn k l = match nth_error l k with
              | Some x => x :: skipn (S k) l
              | None => []
              end.
Proof.
  revert k. induction l as [|x l IH]; intros [|k]; simpl; try reflexivity.
  rewrite (IH k). destruct (nth_error l k); reflexivity.
Qed.

Lemma pathDistanceLoop_walk (partsA partsB : list string) (steps : nat) :
  forall k,
    (steps + k = Nat.max (List.length partsA) (List.length partsB))%nat ->
    pathDistanceLoop partsA partsB steps (S k)
    = walkFromEnd (skipn k (rev partsA)) (skipn k (rev partsB)) (S k).
Proof.
  induction steps as [|s IH]; intros k Hk.
  - simpl. rewrite !skipn_all2 by (rewrite length_rev; lia). reflexivity.
  - cbn [pathDistanceLoop]. rewrite !fromEnd_rev.
    rewrite (skipn_unfold (rev partsA) k), (skipn_unfold (rev partsB) k).
    destruct (nth_error (rev partsA) k) as [x|] eqn:Ha;
      destruct (nth_error (rev partsB) k) as [y|] eqn:Hb; simpl.
    + destruct (String.eqb x y); simpl; [|reflexivity].
      apply IH. lia.
    + reflexivity.
    + reflexivity.
    + apply nth_error_None in Ha, Hb. rewrite length_rev in Ha, Hb. lia.
Qed.

Lemma pathDistance_walk (pathA pathB : option string) :
  pathDistance pathA pathB
  = walkFromEnd (rev (splitDirs pathA)) (rev (splitDirs pathB)) 1.
Proof.
  unfold pathDistance.
  rewrite pathDistanceLoop_walk with (k := 0%nat) by lia. reflexivity.
Qed.

Lemma walkFromEnd_zero (ra rb : list string) (depth : nat) :
  walkFromEnd ra rb (S depth) = 0%nat <-> ra = rb.
Proof.
  revert rb depth. induction ra as [|x ra IH]; intros [|y rb] depth; simpl.
  - tauto.
  - split; discriminate.
  - split; discriminate.
  - destruct (String.eqb_spec x y) as [->|Hne].
    + rewrite IH. split; [intros ->; reflexivity | intros H; now inversion H].
    + split; [discriminate | intros H; inversion H; contradiction].
Qed.

Lemma walkFromEnd_last_differs (ra rb : list string) (x y : string) (depth : nat) :
  x <> y -> walkFromEnd (x :: ra) (y :: rb) depth = depth.
Proof.
  intros Hne. simpl. destruct (String.eqb_spec x y); [contradiction|reflexivity].
Qed.

(** C5, as stated, fails: two files of one directory have identical
    directory chains, so the loop never diverges and the distance is 0,
    not 1. *)
Lemma pathDistance_same_directory_is_zero :
  splitDirs (Some "src/a/X.tsx") = splitDirs (Some "src/a/Y.tsx")
  /\ pathDistance (Some "src/a/X.tsx") (Some "src/a/Y.tsx") = 0%nat
  /\ pathDistance (Some "src/a/X.tsx") (Some "src/a/Y.tsx") <> 1%nat.
Proof. split; [reflexivity|]. split; [reflexivity | discriminate]. Qed.

(** C5, amended: the distance is found by walking both paths' directory
    segments (file name excluded) from the end; it is the depth, counted from
    1, of the first position where the segments differ or one path has run
    out, and 0 when the directory chains are identical - so two files of the
    same directory are at distance 0, and two files whose innermost
    directories differ are at distance 1. The gate skips nothing when
    [minPathDistance] is absent or not positive; otherwise it skips exactly
    the pairs whose distance is below it, and a pair that reaches the gate and
    is skipped is counted under [near-path] and not reported. *)
Theorem path_distance_gate (vec : Type) (cosine : vec -> vec -> Q)
  (getI18n : option string -> messages) (cfg : config) (ei ej : entry vec)
  (st : loopState) :
  let pathA := filePath (entryComponent ei) in
  let pathB := filePath (entryComponent ej) in
  let sim := cosine (vector ei) (vector ej) in
  let minDistance := match minPathDistance cfg with Some d => d | None => 0%Q end in
  pathDistance pathA pathB
  = walkFromEnd (rev (splitDirs pathA)) (rev (splitDirs pathB)) 1
  /\ (pathDistance pathA pathB = 0%nat <-> splitDirs pathA = splitDirs pathB)
  /\ (forall da db x y,
        splitDirs pathA = (da ++ [x])%list -> splitDirs pathB = (db ++ [y])%list ->
        x <> y -> pathDistance pathA pathB = 1%nat)
  /\ (shouldSkipByPath pathA pathB cfg = true
      <-> (0 < minDistance /\ Qnat (pathDistance pathA pathB) < minDistance)%Q)
  /\ (compareEnabled cfg
        && negb (xorb (isCompareTarget (entryComponent ei))
                      (isCompareTarget (entryComponent ej))) = false ->
      Qltb sim (similarityThreshold cfg) = false ->
      Qgtb (sim - maxThreshold cfg) epsilon = false ->
      shouldSkipByPath pathA pathB cfg = true ->
      compareEntries cosine getI18n cfg ei ej st
      = Ok (suppress (record st (id (entryComponent ei)) (id (entryComponent ej)) sim)
              "near-path")).
Proof.
  intros pathA pathB sim minDistance.
  split; [apply pathDistance_walk|].
  split.
  { rewrite pathDistance_walk, walkFromEnd_zero. split.
    - intros H. apply (f_equal (@rev string)) in H. now rewrite !rev_involutive in H.
    - intros H. now rewrite H. }
  split.
  { intros da db x y Ha Hb Hne. rewrite pathDistance_walk, Ha, Hb.
    rewrite !rev_app_distr. simpl. now apply walkFromEnd_last_differs. }
  split.
  { unfold shouldSkipByPath. fold minDistance.
    destruct (Qle_bool minDistance 0) eqn:Hmin.
    - apply Qle_bool_iff in Hmin. split; [discriminate|].
      intros [Hpos _]. exfalso. exact (Qlt_not_le _ _ Hpos Hmin).
    - apply Qle_bool_false in Hmin. rewrite Qltb_true. tauto. }
  intros Hcmp Hthr Hmax Hskip. unfold compareEntries.
  rewrite Hcmp. fold sim. rewrite Hthr, Hmax. fold pathA pathB. rewrite Hskip.
  reflexivity.
Qed.

Lemma path_distance_gate_witness :
  compareEntries Sample.dot Sample.hintsOf
    (Sample.settings (3 # 10) None None (Some 1%Q)) Sample.entryA Sample.entryB
    initialState
  = Ok (suppress
          (record initialState (id Sample.unitA) (id Sample.unitB)
             (Sample.dot [1; 0] [5 # 13; 12 # 13]))%Q
          "near-path").
Proof.
  apply (proj2 (proj2 (proj2 (proj2
    (path_distance_gate Sample.dot Sample.hintsOf
       (Sample.settings (3 # 10) None None (Some 1%Q)) Sample.entryA Sample.entryB
       initialState)))));
    vm_compute; reflexivity.
Defined.

(* ------------------------------------------------------------------ *)
(** ** Loading the cache *)

Section LoadCacheFacts.
Variable decode : list Z -> result Cache.jsval.
Variable JSON_parse : list Z -> result Cache.jsval.
Variable prefix : option string -> string.
Variable disk : Cache.fileSystem.

Local Abbreviation load := (Cache.loadCache decode JSON_parse prefix disk).
Local Abbreviation warningLine := (Cache.warningLine prefix).

Lemma loadCache_no_path (language : option string) :
  load None language = Ok (Cache.emptyStore, [])
  /\ load (Some "") language = Ok (Cache.emptyStore, []).
Proof. split; reflexivity. Qed.

Lemma loadCache_missing_file (p : string) (language : option string) :
  Cache.existsSync disk p = false ->
  load (Some p) language = Ok (Cache.emptyStore, []).
Proof.
  intros Hex. unfold load, Cache.loadCache.
  destruct (String.eqb p ""); [reflexivity|]. now rewrite Hex.
Qed.

(** what the guarded block does once the file is known to exist *)
Lemma loadCache_existing_file (p : string) (language : option string) :
  p <> "" -> Cache.existsSync disk p = true ->
  load (Some p) language
  = match Cache.readFileSync disk p with
    | Throw e => Ok (Cache.emptyStore, [warningLine language p e])
    | Ok raw =>
        match try_catch (decode raw) (fun _ => JSON_parse raw) with
        | Throw e => Ok (Cache.emptyStore, [warningLine language p e])
        | Ok parsed =>
            match Cache.getProp parsed "version" with
            | Throw e => Ok (Cache.emptyStore, [warningLine language p e])
            | Ok version =>
                if negb (Cache.strictEqNum version Cache.CACHE_VERSION)
                then Ok (Cache.emptyStore, [])
                else
                  match Cache.getProp parsed "entries" with
                  | Throw e => Ok (Cache.emptyStore, [warningLine language p e])
                  | Ok entries =>
                      if Cache.truthy entries then Ok (parsed, [])
                      else Ok (Cache.emptyStore, [])
                  end
            end
        end
    end.
Proof.
  intros Hp Hex. unfold load, Cache.loadCache.
  destruct (String.eqb_spec p ""); [contradiction|]. rewrite Hex. simpl.
  destruct (Cache.readFileSync disk p) as [raw|e]; simpl; [|reflexivity].
  destruct (try_catch (decode raw) _) as [parsed|e]; simpl; [|reflexivity].
  destruct (Cache.getProp parsed "version") as [version|e]; simpl; [|reflexivity].
  destruct (negb (Cache.strictEqNum version Cache.CACHE_VERSION)); simpl;
    [reflexivity|].
  destruct (Cache.getProp parsed "entries") as [entries|e]; simpl; [|reflexivity].
  destruct (Cache.truthy entries); reflexivity.
Qed.

(** C9: [loadCache] returns for every path, whatever the file system and
    the two decoders do; it returns the empty store
    [{version: CACHE_VERSION, entries: {}}] when no path is given, when the
    file is missing, when reading fails or the content is rejected by both
    msgpack and JSON (with one warning line in these unreadable cases), and
    when the decoded version is not [CACHE_VERSION]. *)
Theorem loadCache_never_throws (cachePath language : option string) :
  exists store warnings,
    load cachePath language = Ok (store, warnings)
    /\ (cachePath = None \/ cachePath = Some ""
        \/ (exists p, cachePath = Some p /\ Cache.existsSync disk p = false) ->
        store = Cache.emptyStore /\ warnings = [])
    /\ (forall p e,
          cachePath = Some p -> p <> "" -> Cache.existsSync disk p = true ->
          Cache.readFileSync disk p = Throw e ->
          store = Cache.emptyStore /\ warnings = [warningLine language p e])
    /\ (forall p raw e1 e2,
          cachePath = Some p -> p <> "" -> Cache.existsSync disk p = true ->
          Cache.readFileSync disk p = Ok raw ->
          decode raw = Throw e1 -> JSON_parse raw = Throw e2 ->
          store = Cache.emptyStore /\ warnings = [warningLine language p e2])
    /\ (forall p raw parsed version,
          cachePath = Some p -> p <> "" -> Cache.existsSync disk p = true ->
          Cache.readFileSync disk p = Ok raw ->
          try_catch (decode raw) (fun _ => JSON_parse raw) = Ok parsed ->
          Cache.getProp parsed "version" = Ok version ->
          Cache.strictEqNum version Cache.CACHE_VERSION = false ->
          store = Cache.emptyStore /\ warnings = []).
Proof.
  destruct cachePath as [p|].
  2:{ exists Cache.emptyStore, []. split; [reflexivity|].
      repeat split; try reflexivity; intros; discriminate. }
  destruct (String.eqb_spec p "") as [->|Hp].
  { exists Cache.emptyStore, []. split; [reflexivity|].
    split; [intros _; split; reflexivity|].
    repeat split; intros; match goal with
    | H : Some _ = Some ?q, Hq : ?q <> _ |- _ => inversion H; subst; contradiction
    end. }
  destruct (Cache.existsSync disk p) eqn:Hex.
  2:{ exists Cache.emptyStore, [].
      split; [now apply loadCache_missing_file|].
      split; [intros _; split; reflexivity|].
      repeat split; intros; match goal with
      | H : Some _ = Some ?q, Hq : Cache.existsSync disk ?q = true |- _ =>
          inversion H; subst; congruence
      end. }
  pose proof (loadCache_existing_file language Hp Hex) as Hload.
  destruct (load (Some p) language) as [[store warnings]|e] eqn:Hrun.
  2:{ exfalso. revert Hload.
      repeat match goal with
             | |- context [match ?x with _ => _ end] => destruct x
             end; discriminate. }
  exists store, warnings. split; [reflexivity|].
  split.
  { intros [H|[H|(q & H & Hq)]]; try discriminate; inversion H; subst; congruence. }
  split.
  { intros q e Hq _ _ Hread. inversion Hq; subst q.
    rewrite Hread in Hload. inversion Hload. split; reflexivity. }
  split.
  { intros q raw e1 e2 Hq _ _ Hread Hdec Hjson. inversion Hq; subst q.
    rewrite Hread in Hload. unfold try_catch in Hload at 1.
    rewrite Hdec, Hjson in Hload. inversion Hload. split; reflexivity. }
  intros q raw parsed version Hq _ _ Hread Hparsed Hversion Hne.
  inversion Hq; subst q.
  rewrite Hread, Hparsed, Hversion, Hne in Hload. simpl in Hload.
  inversion Hload. split; reflexivity.
Qed.
End LoadCacheFacts.

Lemma loadCache_never_throws_witness :
  Cache.loadCache Sample.rejectMsgpack Sample.rejectJson Sample.cacheReadPrefix
    Sample.corruptDisk (Some "embeddings.json") None
  = Ok (Cache.emptyStore,
        ["Failed to read cache embeddings.json: Unexpected end of JSON input"]).
Proof.
  destruct (loadCache_never_throws Sample.rejectMsgpack Sample.rejectJson
              Sample.cacheReadPrefix Sample.corruptDisk (Some "embeddings.json") None)
    as (store & warnings & Hrun & _ & _ & Hunreadable & _).
  rewrite Hrun.
  destruct (Hunreadable "embeddings.json" [123; 34; 118]%Z
              (ParseError "Data read, but end of buffer not reached")
              (ParseError "Unexpected end of JSON input"))
    as [-> ->]; try reflexivity.
  discriminate.
Defined.

(* ------------------------------------------------------------------ *)
(** ** The label classifier *)

Section LabelFacts.
Variable vec : Type.
Variable cosine : vec -> vec -> Q.
Variable getI18n : option string -> messages.

Lemma fst_runCheck (acc : list string * list string) (r : checkResult) :
  fst (runCheck acc r) = (fst acc ++ labelsOf r)%list.
Proof.
  destruct r as [[label hint]|]; simpl; [reflexivity | now rewrite app_nil_r].
Qed.

Lemma wrapperCheck_label (ctx : context vec) :
  labelsOf (wrapperCheck ctx) = [] \/ labelsOf (wrapperCheck ctx) = ["wrapper-duplicate"].
Proof.
  unfold wrapperCheck.
  repeat match goal with |- context [if ?c then _ else _] => destruct c end;
    simpl; auto.
Qed.

Lemma styleCheck_label (ctx : context vec) :
  labelsOf (styleCheck ctx) = [] \/ labelsOf (styleCheck ctx) = ["style-duplicate"].
Proof.
  unfold styleCheck.
  repeat match goal with |- context [if ?c then _ else _] => destruct c end;
    simpl; auto.
Qed.

Lemma logicCheck_label (ctx : context vec) :
  labelsOf (logicCheck ctx) = [] \/ labelsOf (logicCheck ctx) = ["logic-duplicate"].
Proof.
  unfold logicCheck.
  repeat match goal with |- context [if ?c then _ else _] => destruct c end;
    simpl; auto.
Qed.

Lemma copyCheck_label (ctx : context vec) :
  labelsOf (copyCheck ctx) = [] \/ labelsOf (copyCheck ctx) = ["copy-paste-variant"].
Proof.
  unfold copyCheck.
  repeat match goal with |- context [if ?c then _ else _] => destruct c end;
    simpl; auto.
Qed.

Lemma propCheck_label (ctx : context vec) :
  labelsOf (propCheck ctx) = [] \/ labelsOf (propCheck ctx) = ["prop-parameterizable"].
Proof.
  unfold propCheck.
  repeat match goal with |- context [if ?c then _ else _] => destruct c end;
    simpl; auto.
Qed.

Lemma earlierLabels_no_fork (ctx : context vec) :
  ~ In "forked-clone" (earlierLabels ctx).
Proof.
  unfold earlierLabels. rewrite !in_app_iff.
  destruct (wrapperCheck_label ctx) as [-> | ->],
           (styleCheck_label ctx) as [-> | ->],
           (logicCheck_label ctx) as [-> | ->],
           (copyCheck_label ctx) as [-> | ->],
           (propCheck_label ctx) as [-> | ->];
    simpl; intuition discriminate.
Qed.

Lemma forkCheck_spec (ctx : context vec) (labelsSoFar : list string) :
  In "forked-clone" (labelsOf (forkCheck ctx labelsSoFar))
  <-> isDisabled (ctxConfig ctx) "forked-clone" = false
      /\ (similarityThreshold (ctxConfig ctx) <= ctxSimilarity ctx)%Q
      /\ labelsSoFar = []
      /\ (4 <= lineDiff ctx)%nat.
Proof.
  unfold forkCheck.
  destruct (isDisabled (ctxConfig ctx) "forked-clone").
  { simpl. split; [tauto | intros [H _]; discriminate]. }
  destruct (Qgeb (ctxSimilarity ctx) (similarityThreshold (ctxConfig ctx))) eqn:Hsim;
    destruct (Nat.leb_spec 4 (lineDiff ctx)) as [Hdiff|Hdiff];
    destruct labelsSoFar as [|l ls];
    cbn [List.length Nat.eqb andb labelsOf In];
    try apply Qgeb_true in Hsim;
    (split;
     [ try tauto; intros _; repeat split; assumption
     | intros (_ & Hle & Hnil & Hfour);
       try discriminate; try lia; try (apply Qgeb_true in Hle; congruence); auto ]).
Qed.

Lemma forkCheck_label (ctx : context vec) (labelsSoFar : list string) :
  labelsOf (forkCheck ctx labelsSoFar) = []
  \/ labelsOf (forkCheck ctx labelsSoFar) = ["forked-clone"].
Proof.
  unfold forkCheck.
  repeat match goal with |- context [if ?c then _ else _] => destruct c end;
    simpl; auto.
Qed.

Lemma buildContext_fields (ea eb : entry vec) (sim : Q) (cfg : config)
  (i18n : messages) (ctx : context vec) :
  buildContext cosine ea eb sim cfg i18n = Ok ctx ->
  ctxSimilarity ctx = sim /\ ctxConfig ctx = cfg
  /\ exists la lb,
       lineCount (source (entryComponent ea)) = Ok la
       /\ lineCount (source (entryComponent eb)) = Ok lb
       /\ lineDiff ctx = absDiff la lb.
Proof.
  unfold buildContext. intros H.
  destruct (overlap (logicTokens _) _); simpl in H; [|discriminate].
  destruct (overlap (literals _) _); simpl in H; [|discriminate].
  destruct (textOverlap _ _); simpl in H; [|discriminate].
  destruct (lineCount (source (entryComponent ea))) as [la|]; simpl in H;
    [|discriminate].
  destruct (lineCount (source (entryComponent eb))) as [lb|]; simpl in H;
    [|discriminate].
  inversion H; subst; simpl. repeat split. exists la, lb. repeat split.
Qed.

Lemma labelPair_labels (ea eb : entry vec) (sim : Q) (cfg : config)
  (labels hints : list string) :
  labelPair cosine getI18n ea eb sim cfg = Ok (labels, hints) ->
  exists ctx,
    buildContext cosine ea eb sim cfg (getI18n (language cfg)) = Ok ctx
    /\ labels = (earlierLabels ctx ++ labelsOf (forkCheck ctx (earlierLabels ctx)))%list.
Proof.
  unfold labelPair. intros H.
  destruct (buildContext cosine ea eb sim cfg _) as [ctx|] eqn:Hctx; simpl in H;
    [|discriminate].
  exists ctx. split; [reflexivity|].
  apply (f_equal (fun r => match r with Ok p => fst p | Throw _ => [] end)) in H.
  simpl in H. rewrite <- H. rewrite !fst_runCheck. simpl.
  unfold earlierLabels. rewrite <- !app_assoc. reflexivity.
Qed.

Lemma absDiff_ge (x y n : nat) :
  (n <= absDiff x y <-> n = 0 \/ x + n <= y \/ y + n <= x)%nat.
Proof. unfold absDiff. lia. Qed.

Lemma forked_clone_rule (ea eb : entry vec) (sim : Q) (cfg : config)
  (labels hints : list string) :
  labelPair cosine getI18n ea eb sim cfg = Ok (labels, hints) ->
  exists ctx la lb,
    buildContext cosine ea eb sim cfg (getI18n (language cfg)) = Ok ctx
    /\ lineCount (source (entryComponent ea)) = Ok la
    /\ lineCount (source (entryComponent eb)) = Ok lb
    /\ labels = (earlierLabels ctx ++ labelsOf (forkCheck ctx (earlierLabels ctx)))%list
    /\ ~ In "forked-clone" (earlierLabels ctx)
    /\ (In "forked-clone" labels
        <-> isDisabled cfg "forked-clone" = false
            /\ (similarityThreshold cfg <= sim)%Q
            /\ earlierLabels ctx = []
            /\ (la + 4 <= lb \/ lb + 4 <= la)%nat)
    /\ (In "forked-clone" labels -> labels = ["forked-clone"]).
Proof.
  intros Hrun. destruct (labelPair_labels _ _ _ _ Hrun) as (ctx & Hctx & Hlabels).
  destruct (buildContext_fields _ _ _ _ _ Hctx)
    as (Hsim & Hcfg & la & lb & Hla & Hlb & Hdiff).
  exists ctx, la, lb. repeat (split; [assumption|]).
  split; [apply earlierLabels_no_fork|].
  assert (Hiff : In "forked-clone" labels
                 <-> In "forked-clone" (labelsOf (forkCheck ctx (earlierLabels ctx)))).
  { rewrite Hlabels, in_app_iff. pose proof (earlierLabels_no_fork ctx). tauto. }
  split.
  - rewrite Hiff, forkCheck_spec, Hsim, Hcfg, Hdiff, absDiff_ge.
    intuition discriminate.
  - intros Hin. pose proof Hin as Hfork. rewrite Hiff in Hfork.
    pose proof Hfork as Hspec. apply forkCheck_spec in Hspec.
    destruct Hspec as (_ & _ & Hnone & _).
    rewrite Hlabels, Hnone. simpl. rewrite Hnone in Hfork.
    destruct (forkCheck_label ctx []) as [Hl | Hl]; rewrite Hl in *;
      [contradiction | reflexivity].
Qed.

Lemma overlap_throws_iff (listA listB : option (list string)) :
  throws (overlap listA listB)
  <-> listA = None \/ (exists x xs, listA = Some (x :: xs) /\ listB = None).
Proof.
  unfold throws, overlap, deref.
  destruct listA as [[|x xs]|]; simpl.
  - split; [intros [e H]; discriminate|].
    intros [H | (y & ys & H & _)]; discriminate.
  - destruct listB as [[|y ys]|]; simpl.
    + split; [intros [e H]; discriminate|].
      intros [H | (z & zs & _ & H)]; discriminate.
    + split; [intros [e H]; discriminate|].
      intros [H | (z & zs & _ & H)]; discriminate.
    + split; [intros _; right; exists x, xs; split; reflexivity|].
      intros _. eexists; reflexivity.
  - split; [intros _; left; reflexivity | intros _; eexists; reflexivity].
Qed.

Lemma overlap_present (la lb : list string) :
  exists q, overlap (Some la) (Some lb) = Ok q /\ (la = [] \/ lb = [] -> q = 0%Q).
Proof.
  unfold overlap, deref. simpl.
  destruct la as [|x xs]; simpl.
  { exists 0%Q. split; [reflexivity | auto]. }
  destruct lb as [|y ys]; simpl.
  { exists 0%Q. split; [reflexivity | auto]. }
  eexists. split; [reflexivity|]. intros [H|H]; discriminate.
Qed.

Lemma labelPair_throws_on_overlap (ea eb : entry vec) (sim : Q) (cfg : config) :
  throws (overlap (logicTokens (entryComponent ea)) (logicTokens (entryComponent eb)))
  \/ throws (overlap (literals (entryComponent ea)) (literals (entryComponent eb))) ->
  throws (labelPair cosine getI18n ea eb sim cfg).
Proof.
  unfold throws, labelPair, buildContext.
  intros [[e He] | [e He]].
  - rewrite He. simpl. eexists; reflexivity.
  - destruct (overlap (logicTokens _) _); simpl; [|eexists; reflexivity].
    rewrite He. simpl. eexists; reflexivity.
Qed.

Lemma labelPair_returns (ea eb : entry vec) (sim : Q) (cfg : config)
  (logicA logicB litA litB : list string) (srcA srcB : string) :
  logicTokens (entryComponent ea) = Some logicA ->
  logicTokens (entryComponent eb) = Some logicB ->
  literals (entryComponent ea) = Some litA ->
  literals (entryComponent eb) = Some litB ->
  source (entryComponent ea) = Some srcA ->
  source (entryComponent eb) = Some srcB ->
  returns (labelPair cosine getI18n ea eb sim cfg).
Proof.
  intros H1 H2 H3 H4 H5 H6.
  unfold returns, labelPair, buildContext, textOverlap, tokenize, lineCount.
  rewrite H1, H2, H3, H4, H5, H6.
  destruct (overlap_present logicA logicB) as (q1 & -> & _).
  destruct (overlap_present litA litB) as (q2 & -> & _). simpl.
  match goal with
  | |- context [overlap (Some ?x) (Some ?y)] =>
      destruct (overlap_present x y) as (q3 & -> & _)
  end.
  simpl. eexists; reflexivity.
Qed.

Lemma hasProps_withDefaults (c : component) : hasProps (withDefaults c) = hasProps c.
Proof. unfold hasProps. simpl. destruct (props c); reflexivity. Qed.

Lemma isWrapperLike_withDefaults (c : component) :
  isWrapperLike (withDefaults c) = isWrapperLike c.
Proof.
  unfold isWrapperLike. rewrite hasProps_withDefaults. reflexivity.
Qed.

Lemma componentSignal_withDefaults (c : component) :
  componentSignal (withDefaults c) = componentSignal c.
Proof. unfold componentSignal. simpl. destruct (props c); reflexivity. Qed.

Lemma suppressPair_withDefaults (ea eb : entry vec) :
  suppressPair (entryWithDefaults ea) (entryWithDefaults eb) = suppressPair ea eb.
Proof.
  unfold suppressPair, entryWithDefaults; cbn [entryComponent].
  set (ca := entryComponent ea). set (cb := entryComponent eb).
  assert (H1 : compositionSuppression (withDefaults ca) (withDefaults cb)
               = compositionSuppression ca cb) by reflexivity.
  assert (H2 : wrapperSuppression (withDefaults ca) (withDefaults cb)
               = wrapperSuppression ca cb).
  { unfold wrapperSuppression. rewrite !isWrapperLike_withDefaults. reflexivity. }
  assert (H3 : lowSignalSuppression (withDefaults ca) (withDefaults cb)
               = lowSignalSuppression ca cb).
  { unfold lowSignalSuppression.
    rewrite !isWrapperLike_withDefaults, !hasProps_withDefaults,
      !componentSignal_withDefaults. reflexivity. }
  now rewrite H1, H2, H3.
Qed.

End LabelFacts.

(** C8: [forked-clone] is among the labels of a pair exactly when the rule is
    not disabled, the similarity is at least [similarityThreshold], none of
    the five earlier rules assigned a label, and the line counts of the two
    sources differ by four or more; it is then the only label. The five
    earlier rules each read the context alone, never the labels assigned so
    far, so their labels simply add up - a pair can carry several. *)
Theorem forked_clone_only_without_other_labels :
  (forall (vec : Type) (cosine : vec -> vec -> Q)
          (getI18n : option string -> messages) (ea eb : entry vec) (sim : Q)
          (cfg : config) (labels hints : list string),
      labelPair cosine getI18n ea eb sim cfg = Ok (labels, hints) ->
      exists ctx la lb,
        buildContext cosine ea eb sim cfg (getI18n (language cfg)) = Ok ctx
        /\ lineCount (source (entryComponent ea)) = Ok la
        /\ lineCount (source (entryComponent eb)) = Ok lb
        /\ labels
           = (earlierLabels ctx ++ labelsOf (forkCheck ctx (earlierLabels ctx)))%list
        /\ ~ In "forked-clone" (earlierLabels ctx)
        /\ (In "forked-clone" labels
            <-> isDisabled cfg "forked-clone" = false
                /\ (similarityThreshold cfg <= sim)%Q
                /\ earlierLabels ctx = []
                /\ (la + 4 <= lb \/ lb + 4 <= la)%nat)
        /\ (In "forked-clone" labels -> labels = ["forked-clone"]))
  /\ labelPair Sample.dot Sample.hintsOf
       (Sample.entryOf Sample.wrapperA [1; 0]%Q) (Sample.entryOf Sample.wrapperB [1; 0]%Q)
       (96 # 100) (Sample.testConfig [])
     = Ok (["wrapper-duplicate"; "logic-duplicate"; "copy-paste-variant";
            "prop-parameterizable"],
           ["wrapper"; "logic"; "copy"; "props"]).
Proof.
  split.
  - intros vec cosine getI18n ea eb sim cfg labels hints Hrun.
    exact (forked_clone_rule _ _ _ _ _ _ Hrun).
  - vm_compute. reflexivity.
Qed.

Lemma forked_clone_only_without_other_labels_witness :
  exists ctx,
    buildContext Sample.dot (Sample.entryOf Sample.longUnit [1; 0]%Q)
      (Sample.entryOf Sample.shortUnit [1; 0]%Q) (85 # 100)
      (Sample.testConfig ["logic-duplicate"; "copy-paste-variant"; "prop-parameterizable"])
      (Sample.hintsOf None)
    = Ok ctx
    /\ earlierLabels ctx = [].
Proof.
  destruct (proj1 forked_clone_only_without_other_labels _ Sample.dot Sample.hintsOf
              (Sample.entryOf Sample.longUnit [1; 0]%Q)
              (Sample.entryOf Sample.shortUnit [1; 0]%Q) (85 # 100)
              (Sample.testConfig
                 ["logic-duplicate"; "copy-paste-variant"; "prop-parameterizable"])
              ["forked-clone"] ["fork"] eq_refl)
    as (ctx & la & lb & Hctx & _ & _ & _ & _ & Hiff & _).
  exists ctx. split; [exact Hctx|].
  apply Hiff. left. reflexivity.
Defined.

(** C10, as stated, fails: [overlap] tests [!listA.length] first and returns
    0 at once when the first list is empty, so a second unit without
    [logicTokens] and [literals] does not make [labelPair] throw. *)
Lemma labelPair_returns_when_second_unit_lacks_lists :
  logicTokens Sample.noListsUnit = None
  /\ literals Sample.noListsUnit = None
  /\ labelPair Sample.dot Sample.hintsOf
       (Sample.entryOf Sample.emptyListsUnit [1; 0]%Q)
       (Sample.entryOf Sample.noListsUnit [1; 0]%Q) (85 # 100) (Sample.testConfig [])
     = Ok ([], []).
Proof. repeat split. Qed.

(** C10, amended: [overlap] reads [.length] of its two lists without a
    default and throws exactly when the first list is absent, or the first
    list is non-empty and the second is absent (an empty first list returns 0
    before the second is read); [labelPair] throws whenever [overlap] does on
    the [logicTokens] or on the [literals] of the pair. The suppression
    heuristics default every metadata list they read, so they give the same
    answer when absent lists are written out as empty ones. When both lists are
    arrays [overlap] returns a number, which is 0 if either list is empty, and
    [labelPair] returns once [logicTokens], [literals] and [source] are
    present on both units. *)
Theorem labelPair_list_preconditions (vec : Type) (cosine : vec -> vec -> Q)
  (getI18n : option string -> messages) (ea eb : entry vec) (sim : Q) (cfg : config) :
  let ca := entryComponent ea in
  let cb := entryComponent eb in
  (forall listA listB,
      throws (overlap listA listB)
      <-> listA = None \/ (exists x xs, listA = Some (x :: xs) /\ listB = None))
  /\ (throws (overlap (logicTokens ca) (logicTokens cb))
      \/ throws (overlap (literals ca) (literals cb)) ->
      throws (labelPair cosine getI18n ea eb sim cfg))
  /\ suppressPair (entryWithDefaults ea) (entryWithDefaults eb) = suppressPair ea eb
  /\ (forall la lb,
        exists q, overlap (Some la) (Some lb) = Ok q /\ (la = [] \/ lb = [] -> q = 0%Q))
  /\ (forall logicA logicB litA litB srcA srcB,
        logicTokens ca = Some logicA -> logicTokens cb = Some logicB ->
        literals ca = Some litA -> literals cb = Some litB ->
        source ca = Some srcA -> source cb = Some srcB ->
        returns (labelPair cosine getI18n ea eb sim cfg)).
Proof.
  intros ca cb.
  split; [exact overlap_throws_iff|].
  split; [apply labelPair_throws_on_overlap|].
  split; [apply suppressPair_withDefaults|].
  split; [exact overlap_present|].
  intros; eapply labelPair_returns; eassumption.
Qed.

Lemma labelPair_list_preconditions_witness :
  throws (labelPair Sample.dot Sample.hintsOf
            (Sample.entryOf Sample.noListsUnit [1; 0]%Q)
            (Sample.entryOf Sample.emptyListsUnit [1; 0]%Q) (85 # 100)
            (Sample.testConfig [])).
Proof.
  destruct (labelPair_list_preconditions Sample.dot Sample.hintsOf
              (Sample.entryOf Sample.noListsUnit [1; 0]%Q)
              (Sample.entryOf Sample.emptyListsUnit [1; 0]%Q) (85 # 100)
              (Sample.testConfig []))
    as (Hiff & Hthrows & _).
  apply Hthrows. left. apply Hiff. left. reflexivity.
Defined.

(* ------------------------------------------------------------------ *)
(** ** The pairwise loop *)

Section LoopFacts.
Variable vec : Type.
Variable cosine : vec -> vec -> Q.
Variable getI18n : option string -> messages.

Local Abbreviation compareEntries' := (compareEntries cosine getI18n).
Local Abbreviation loopBody' := (loopBody cosine getI18n).
Local Abbreviation innerLoop' := (innerLoop cosine getI18n).
Local Abbreviation outerLoop' := (outerLoop cosine getI18n).

Lemma foldM_map {A B S : Type} (f : A -> B) (body : S -> B -> result S)
  (xs : list A) (s : S) :
  foldM body (map f xs) s = foldM (fun s x => body s (f x)) xs s.
Proof.
  revert s. induction xs as [|x xs IH]; intros s; simpl; [reflexivity|].
  destruct (body s (f x)); simpl; auto.
Qed.

Lemma getEntry_middle (pre rest : list (entry vec)) (e : entry vec) :
  getEntry (pre ++ e :: rest) (List.length pre) = Ok e.
Proof.
  unfold getEntry. rewrite nth_error_app2 by lia.
  now rewrite Nat.sub_diag.
Qed.

(** the inner loop visits the entries after position [i], in order *)
Lemma innerLoop_tail (entries : list (entry vec)) (cfg : config) (i : nat)
  (e : entry vec) :
  getEntry entries i = Ok e ->
  forall rest pre st,
    entries = (pre ++ rest)%list ->
    foldM (loopBody' entries cfg i) (seq (List.length pre) (List.length rest)) st
    = foldM (fun st ej => compareEntries' cfg e ej st) rest st.
Proof.
  intros Hi. induction rest as [|ej rest IH]; intros pre st Hsplit; simpl.
  - reflexivity.
  - unfold loopBody at 1. rewrite Hi. simpl.
    rewrite Hsplit at 1. rewrite getEntry_middle. simpl.
    destruct (compareEntries' cfg e ej st) as [st1|err]; simpl; [|reflexivity].
    specialize (IH (pre ++ [ej])%list st1).
    rewrite length_app in IH. simpl in IH. rewrite Nat.add_1_r in IH.
    apply IH. rewrite Hsplit, <- app_assoc. reflexivity.
Qed.

Lemma innerLoop_refines (pre rest : list (entry vec)) (e : entry vec)
  (cfg : config) (st : loopState) :
  innerLoop' (pre ++ e :: rest)%list cfg st (List.length pre)
  = foldM (fun st ej => compareEntries' cfg e ej st) rest st.
Proof.
  unfold innerLoop.
  replace (List.length (pre ++ e :: rest) - S (List.length pre))%nat
    with (List.length rest) by (rewrite length_app; simpl; lia).
  pose proof (@innerLoop_tail (pre ++ e :: rest)%list cfg (List.length pre) e
                (getEntry_middle pre rest e) rest (pre ++ [e])%list st) as H.
  rewrite length_app in H. simpl in H. rewrite Nat.add_1_r in H.
  apply H. rewrite <- app_assoc. reflexivity.
Qed.

(** the two nested loops visit [enumeratePairs entries] in order *)
Lemma outerLoop_tail (entries : list (entry vec)) (cfg : config) :
  forall suffix pre st,
    entries = (pre ++ suffix)%list ->
    foldM (innerLoop' entries cfg) (seq (List.length pre) (List.length suffix)) st
    = foldM (fun st p => compareEntries' cfg (fst p) (snd p) st)
        (enumeratePairs suffix) st.
Proof.
  induction suffix as [|e rest IH]; intros pre st Hsplit; simpl.
  - reflexivity.
  - rewrite foldM_app, foldM_map. simpl.
    rewrite Hsplit at 1. rewrite innerLoop_refines.
    destruct (foldM _ rest st) as [st1|err]; simpl; [|reflexivity].
    specialize (IH (pre ++ [e])%list st1).
    rewrite length_app in IH. simpl in IH. rewrite Nat.add_1_r in IH.
    apply IH. rewrite Hsplit, <- app_assoc. reflexivity.
Qed.

Lemma outerLoop_refines (entries : list (entry vec)) (cfg : config) (st : loopState) :
  outerLoop' entries cfg st
  = foldM (fun st p => compareEntries' cfg (fst p) (snd p) st)
      (enumeratePairs entries) st.
Proof. unfold outerLoop. now apply (@outerLoop_tail entries cfg entries [] st). Qed.

Lemma enumeratePairs_indices (es : list (entry vec)) (ei ej : entry vec) :
  In (ei, ej) (enumeratePairs es) ->
  exists i j, (i < j)%nat /\ nth_error es i = Some ei /\ nth_error es j = Some ej.
Proof.
  induction es as [|e rest IH]; simpl; [contradiction|].
  rewrite in_app_iff, in_map_iff.
  intros [(x & Hx & Hin) | Hin].
  - inversion Hx; subst. apply In_nth_error in Hin. destruct Hin as [n Hn].
    exists 0%nat, (S n). repeat split; [lia | assumption].
  - destruct (IH Hin) as (i & j & Hlt & Hi & Hj).
    exists (S i), (S j). repeat split; [lia | assumption | assumption].
Qed.

Lemma Qmake_scale (z : Z) : ((z # 10000) == inject_Z z * (1 # 10000))%Q.
Proof. unfold Qeq, Qmult, inject_Z; simpl. lia. Qed.

(** [toFixed(4)] moves a number by at most half a unit of the fourth decimal *)
Lemma round4_close (x : Q) : (Qabs (round4 x - x) <= 1 # 20000)%Q.
Proof.
  apply Qabs_Qle_condition. unfold round4.
  destruct (Qltb x 0).
  - pose proof (Qfloor_le (- x * 10000 + (1 # 2))) as Hlo.
    pose proof (Qlt_floor (- x * 10000 + (1 # 2))) as Hhi.
    rewrite inject_Z_plus in Hhi. rewrite Qmake_scale, inject_Z_opp.
    set (f := inject_Z (Qfloor (- x * 10000 + (1 # 2)))) in *. clearbody f.
    change (inject_Z 1) with 1%Q in Hhi. split; lra.
  - pose proof (Qfloor_le (x * 10000 + (1 # 2))) as Hlo.
    pose proof (Qlt_floor (x * 10000 + (1 # 2))) as Hhi.
    rewrite inject_Z_plus in Hhi. rewrite Qmake_scale.
    set (f := inject_Z (Qfloor (x * 10000 + (1 # 2)))) in *. clearbody f.
    change (inject_Z 1) with 1%Q in Hhi. split; lra.
Qed.

Lemma insertDesc_In {A : Type} (key : A -> Q) (x y : A) (l : list A) :
  In y (insertDesc key x l) <-> y = x \/ In y l.
Proof.
  induction l as [|z l IH]; simpl.
  - intuition.
  - destruct (Qle_bool (key z) (key x)); simpl; [intuition|].
    rewrite IH. intuition.
Qed.

Lemma sortDesc_In {A : Type} (key : A -> Q) (y : A) (l : list A) :
  In y (sortDesc key l) <-> In y l.
Proof.
  induction l as [|x l IH]; simpl; [tauto|].
  rewrite insertDesc_In, IH. intuition.
Qed.

Lemma limitFilter_In (lim : Q) (p : reportedPair) (ps : list reportedPair) :
  forall counts, In p (limitFilter lim ps counts) -> In p ps.
Proof.
  induction ps as [|q ps IH]; intros counts; simpl; [tauto|].
  destruct (_ || _); simpl.
  - intros H. right. eapply IH; eassumption.
  - intros [H|H]; [left; assumption | right; eapply IH; eassumption].
Qed.

Lemma limitMatches_In (p : reportedPair) (ps : list reportedPair) (lim : option Q) :
  In p (limitMatches ps lim) -> In p ps.
Proof.
  unfold limitMatches. destruct lim as [l|].
  - intros H. apply limitFilter_In in H. now apply sortDesc_In in H.
  - apply sortDesc_In.
Qed.

(** what one iteration does to [pairs] *)
Lemma compareEntries_pairs (cfg : config) (ei ej : entry vec) (st st' : loopState) :
  compareEntries' cfg ei ej st = Ok st' ->
  pairs st' = pairs st
  \/ exists p,
       pairs st' = (pairs st ++ [p])%list
       /\ a p = id (entryComponent ei)
       /\ b p = id (entryComponent ej)
       /\ similarity p = round4 (cosine (vector ei) (vector ej))
       /\ (similarityThreshold cfg <= cosine (vector ei) (vector ej))%Q
       /\ (cosine (vector ei) (vector ej) - maxThreshold cfg <= epsilon)%Q.
Proof.
  unfold compareEntries. set (sim := cosine (vector ei) (vector ej)).
  destruct (compareEnabled cfg && _).
  { intros H; inversion H; subst; left; reflexivity. }
  destruct (Qltb sim (similarityThreshold cfg)) eqn:Hthr.
  { intros H; inversion H; subst; left; reflexivity. }
  destruct (Qgtb (sim - maxThreshold cfg) epsilon) eqn:Hmax.
  { intros H; inversion H; subst; left; reflexivity. }
  destruct (shouldSkipByPath _ _ cfg).
  { intros H; inversion H; subst; left; reflexivity. }
  destruct (suppressPair ei ej).
  { intros H; inversion H; subst; left; reflexivity. }
  destruct (labelPair cosine getI18n ei ej sim cfg) as [lh|err]; simpl;
    [|discriminate].
  intros H; inversion H; subst; clear H. right.
  eexists. split; [reflexivity|]. simpl.
  apply Qltb_false in Hthr. apply Qgtb_false in Hmax. tauto.
Qed.

Lemma outerLoop_accepted (entries : list (entry vec)) (cfg : config)
  (st : loopState) :
  outerLoop' entries cfg initialState = Ok st ->
  forall p, In p (pairs st) -> accepted cosine entries cfg p.
Proof.
  rewrite outerLoop_refines. intros Hrun.
  eapply foldM_invariant
    with (P := fun s => forall p, In p (pairs s) -> accepted cosine entries cfg p);
    [ | | exact Hrun].
  - intros s [ei ej] s' Hin Hs Hstep p Hp. simpl in Hstep.
    apply compareEntries_pairs in Hstep.
    destruct Hstep as [Hsame | (q & Hpush & Ha & Hb & Hsim & Hthr & Hmax)].
    + rewrite Hsame in Hp. auto.
    + rewrite Hpush in Hp. apply in_app_iff in Hp.
      destruct Hp as [Hp | [Hp | []]]; [auto|]. subst q.
      destruct (enumeratePairs_indices _ _ _ Hin) as (i & j & Hlt & Hi & Hj).
      exists i, j, ei, ej. tauto.
  - intros p [].
Qed.

Lemma distinct_ids (entries : list (entry vec)) (i j : nat) (ei ej : entry vec) :
  NoDup (map (fun e => id (entryComponent e)) entries) ->
  (i < j)%nat -> nth_error entries i = Some ei -> nth_error entries j = Some ej ->
  id (entryComponent ei) <> id (entryComponent ej).
Proof.
  intros Hnd Hlt Hi Hj Heq.
  rewrite NoDup_nth_error in Hnd.
  assert (Hlen : (i < List.length (map (fun e => id (entryComponent e)) entries))%nat).
  { rewrite length_map. apply nth_error_Some. congruence. }
  specialize (Hnd i j Hlen).
  rewrite !nth_error_map, Hi, Hj in Hnd. simpl in Hnd.
  rewrite Heq in Hnd. specialize (Hnd eq_refl). lia.
Qed.

(** what one iteration does to the running aggregates: they move exactly
    when the pair passes the compare-mode filter, whatever happens to the
    pair afterwards *)
Lemma compareEntries_aggregates (cfg : config) (ei ej : entry vec)
  (st st' : loopState) :
  compareEntries' cfg ei ej st = Ok st' ->
  if compared cfg (ei, ej)
  then evaluatedPairs st' = (evaluatedPairs st + 1)%nat
       /\ similaritySum st' = (similaritySum st + pairCosine cosine (ei, ej))%Q
       /\ maxSimilarity st'
          = (if Qgtb (pairCosine cosine (ei, ej)) (maxSimilarity st)
             then pairCosine cosine (ei, ej) else maxSimilarity st)
       /\ bestByComponent st' = trackPair cosine (bestByComponent st) (ei, ej)
  else evaluatedPairs st' = evaluatedPairs st
       /\ similaritySum st' = similaritySum st
       /\ maxSimilarity st' = maxSimilarity st
       /\ bestByComponent st' = bestByComponent st.
Proof.
  unfold compareEntries, compared, pairCosine, trackPair. cbn [fst snd].
  set (sim := cosine (vector ei) (vector ej)).
  destruct (compareEnabled cfg && _); cbn [negb].
  { intros H; inversion H; subst; simpl; auto. }
  destruct (Qltb sim (similarityThreshold cfg)).
  { intros H; inversion H; subst; simpl; auto. }
  destruct (Qgtb (sim - maxThreshold cfg) epsilon).
  { intros H; inversion H; subst; simpl; auto. }
  destruct (shouldSkipByPath _ _ cfg).
  { intros H; inversion H; subst; simpl; auto. }
  destruct (suppressPair ei ej).
  { intros H; inversion H; subst; simpl; auto. }
  destruct (labelPair cosine getI18n ei ej sim cfg) as [lh|err]; simpl;
    [|discriminate].
  intros H; inversion H; subst; simpl; auto.
Qed.

Lemma loop_aggregates (cfg : config) (ps : list (entry vec * entry vec)) :
  forall st st',
    foldM (fun st p => compareEntries' cfg (fst p) (snd p) st) ps st = Ok st' ->
    let candidates := filter (compared cfg) ps in
    let sims := map (pairCosine cosine) candidates in
    evaluatedPairs st' = (evaluatedPairs st + List.length candidates)%nat
    /\ similaritySum st' = fold_left Qplus sims (similaritySum st)
    /\ maxSimilarity st' = Qmaximum (maxSimilarity st) sims
    /\ bestByComponent st' = fold_left (trackPair cosine) candidates (bestByComponent st).
Proof.
  induction ps as [|[ei ej] ps IH]; intros st st' Hrun; simpl in Hrun.
  - inversion Hrun; subst. simpl. repeat split. lia.
  - destruct (compareEntries' cfg ei ej st) as [st1|err] eqn:Hstep; simpl in Hrun;
      [|discriminate].
    apply compareEntries_aggregates in Hstep.
    specialize (IH st1 st' Hrun). cbn zeta in IH. cbn zeta.
    cbn [filter]. destruct (compared cfg (ei, ej)).
    + destruct Hstep as (He & Hs & Hm & Hb), IH as (He' & Hs' & Hm' & Hb').
      cbn [map fold_left List.length]. unfold Qmaximum in *. cbn [fold_left].
      rewrite He', Hs', Hm', Hb', He, Hs, Hm, Hb. repeat split. lia.
    + destruct Hstep as (He & Hs & Hm & Hb), IH as (He' & Hs' & Hm' & Hb').
      rewrite He', Hs', Hm', Hb', He, Hs, Hm, Hb. repeat split.
Qed.

Lemma enumeratePairs_length {A : Type} (es : list A) :
  (2 * List.length (enumeratePairs es) = List.length es * (List.length es - 1))%nat.
Proof.
  induction es as [|e rest IH]; simpl; [reflexivity|].
  rewrite length_app, length_map. nia.
Qed.

Lemma filter_all {A : Type} (f : A -> bool) (l : list A) :
  (forall x, f x = true) -> filter f l = l.
Proof.
  intros Hf. induction l as [|x l IH]; simpl; [reflexivity|].
  now rewrite Hf, IH.
Qed.







End LoopFacts.

(** C1, as stated, fails on two counts. The similarity a pair records is
    the cosine rounded to four decimals, and the gates test the cosine before
    rounding: with a threshold of 0.38461 a cosine of 5/13 = 0.384615... passes
    and is recorded as 0.3846, below the threshold. And the two identities are
    those of the entries at the two positions, which are equal when the entry
    list holds one identity twice. *)
Lemma recorded_similarity_below_threshold :
  (exists p sc,
      findSimilarities Sample.dot Sample.hintsOf [Sample.entryA; Sample.entryB]
        (Sample.settings (38461 # 100000) None None None)
      = Ok ([p], sc)
      /\ ~ (38461 # 100000 <= similarity p)%Q)
  /\ (exists p sc,
        findSimilarities Sample.dot Sample.hintsOf [Sample.entryA; Sample.entryA]
          (Sample.settings (3 # 10) None None None)
        = Ok ([p], sc)
        /\ a p = b p).
Proof.
  split.
  - do 2 eexists. split; [vm_compute; reflexivity|].
    simpl. unfold Qle. simpl. lia.
  - do 2 eexists. split; [vm_compute; reflexivity|]. reflexivity.
Qed.

(** C1, amended: every pair reported by [findSimilarities] comes from two
    entries at positions [i < j] of the entry list, [a] being the identity of
    the first and [b] of the second; the cosine [sim] of their combined vectors
    satisfies [sim >= similarityThreshold] and
    [sim - maxSimilarityThreshold <= 1e-6] (the ceiling defaulting to 1); the
    recorded similarity is [sim] rounded to four decimals, hence within 0.00005
    of it; and [a] and [b] differ whenever the identities of the entry list are
    pairwise distinct. *)
Theorem accepted_pairs_invariant (vec : Type) (cosine : vec -> vec -> Q)
  (getI18n : option string -> messages) (entries : list (entry vec)) (cfg : config)
  (reported : list reportedPair) (sc : scorecard) :
  findSimilarities cosine getI18n entries cfg = Ok (reported, sc) ->
  forall p, In p reported ->
    exists i j ei ej,
      let sim := cosine (vector ei) (vector ej) in
      (i < j)%nat
      /\ nth_error entries i = Some ei
      /\ nth_error entries j = Some ej
      /\ a p = id (entryComponent ei)
      /\ b p = id (entryComponent ej)
      /\ (similarityThreshold cfg <= sim)%Q
      /\ (sim - maxThreshold cfg <= epsilon)%Q
      /\ similarity p = round4 sim
      /\ (Qabs (similarity p - sim) <= 1 # 20000)%Q
      /\ (NoDup (map (fun e => id (entryComponent e)) entries) -> a p <> b p).
Proof.
  unfold findSimilarities. intros Hrun p Hp.
  destruct (outerLoop cosine getI18n entries cfg initialState) as [st|err] eqn:Hloop;
    simpl in Hrun; [|discriminate].
  inversion Hrun; subst; clear Hrun.
  apply limitMatches_In in Hp.
  destruct (@outerLoop_accepted _ _ _ _ _ _ Hloop p Hp)
    as (i & j & ei & ej & Hlt & Hi & Hj & Ha & Hb & Hsim & Hthr & Hmax).
  exists i, j, ei, ej. cbn zeta.
  repeat (split; [assumption|]).
  split; [rewrite Hsim; apply round4_close|].
  intros Hnd. rewrite Ha, Hb. eapply distinct_ids; eassumption.
Qed.

Lemma accepted_pairs_invariant_witness :
  exists i j ei ej,
    (i < j)%nat
    /\ nth_error [Sample.entryA; Sample.entryB] i = Some ei
    /\ nth_error [Sample.entryA; Sample.entryB] j = Some ej
    /\ (3 # 10 <= Sample.dot (vector ei) (vector ej))%Q.
Proof.
  eassert (Hrun : findSimilarities Sample.dot Sample.hintsOf
                    [Sample.entryA; Sample.entryB]
                    (Sample.settings (3 # 10) None None None) = Ok (_, _))
    by (vm_compute; reflexivity).
  destruct (@accepted_pairs_invariant _ _ _ _ _ _ _ Hrun _ (or_introl eq_refl))
    as (i & j & ei & ej & Hlt & Hi & Hj & _ & _ & Hthr & _).
  exists i, j, ei, ej. repeat split; assumption.
Defined.

(** C3, as stated, fails: the compare-mode filter runs before the cosine is
    taken, so with compare mode on a pair of two non-targets is enumerated but
    leaves every aggregate untouched - here one pair with cosine 5/13 and a
    scorecard of zero evaluated pairs. *)
Lemma compare_filtered_pair_not_recorded :
  List.length (enumeratePairs [Sample.entryA; Sample.entryB]) = 1%nat
  /\ (Sample.dot (vector Sample.entryA) (vector Sample.entryB) == 5 # 13)%Q
  /\ exists sc,
       findSimilarities Sample.dot Sample.hintsOf [Sample.entryA; Sample.entryB]
         (Sample.settings (3 # 10) None (Some ["src/target/**"]) None)
       = Ok ([], sc)
       /\ scEvaluatedPairs sc = 0%nat
       /\ meanSimilarity sc = 0%Q
       /\ (scMaxSimilarity sc == 0)%Q
       /\ scSuppressionReasons sc = [("compare-filter", 1%nat)].
Proof.
  split; [reflexivity|]. split; [vm_compute; reflexivity|].
  eexists. split; [vm_compute; reflexivity|].
  repeat split.
Qed.

(** C3, amended: the aggregates cover exactly the enumerated pairs
    ([i < j]) that pass the compare-mode filter - all of them when compare
    mode is off - whether or not the pair is reported afterwards: the
    evaluated-pair count is their number, the similarity sum is the sum of
    their cosines, the running maximum is the largest of 0 and their cosines,
    and the per-unit best table is updated with each of them; the scorecard
    carries the count, the rounded mean and the rounded maximum. No threshold,
    path or suppression setting enters these values. *)
Theorem scorecard_covers_compared_pairs (vec : Type) (cosine : vec -> vec -> Q)
  (getI18n : option string -> messages) (entries : list (entry vec)) (cfg : config)
  (reported : list reportedPair) (sc : scorecard) :
  findSimilarities cosine getI18n entries cfg = Ok (reported, sc) ->
  let candidates := filter (compared cfg) (enumeratePairs entries) in
  let sims := map (pairCosine cosine) candidates in
  let best := fold_left (trackPair cosine) candidates [] in
  scEvaluatedPairs sc = List.length candidates
  /\ meanSimilarity sc
     = (if (List.length candidates =? 0)%nat then 0%Q
        else round4 (fold_left Qplus sims 0 / Qnat (List.length candidates)))
  /\ scMaxSimilarity sc = round4 (Qmaximum 0 sims)
  /\ coveredComponents sc = List.length best
  /\ (compareEnabled cfg = false ->
      candidates = enumeratePairs entries
      /\ (2 * scEvaluatedPairs sc
          = List.length entries * (List.length entries - 1))%nat).
Proof.
  intros Hrun candidates sims best. unfold findSimilarities in Hrun.
  destruct (outerLoop cosine getI18n entries cfg initialState) as [st|err] eqn:Hloop;
    simpl in Hrun; [|discriminate].
  inversion Hrun; subst; clear Hrun.
  rewrite outerLoop_refines in Hloop.
  destruct (@loop_aggregates _ _ _ _ _ _ _ Hloop) as (He & Hs & Hm & Hb).
  fold candidates in He, Hs, Hm, Hb. fold sims in Hs, Hm.
  cbn [initialState evaluatedPairs similaritySum maxSimilarity bestByComponent
       Nat.add] in He, Hs, Hm, Hb.
  unfold buildScorecard; cbn [scEvaluatedPairs meanSimilarity scMaxSimilarity
                                coveredComponents].
  rewrite He, Hs, Hm, Hb, length_map. fold best.
  repeat (split; [reflexivity|]).
  intros Hoff.
  assert (Hall : candidates = enumeratePairs entries).
  { apply filter_all. intros q. unfold compared. now rewrite Hoff. }
  split; [exact Hall|]. rewrite Hall. apply enumeratePairs_length.
Qed.

Lemma scorecard_covers_compared_pairs_witness :
  exists sc,
    findSimilarities Sample.dot Sample.hintsOf [Sample.entryA; Sample.entryB]
      (Sample.settings (9 # 10) None None None) = Ok ([], sc)
    /\ scEvaluatedPairs sc = 1%nat.
Proof.
  eassert (Hrun : findSimilarities Sample.dot Sample.hintsOf
                    [Sample.entryA; Sample.entryB]
                    (Sample.settings (9 # 10) None None None) = Ok ([], _))
    by (vm_compute; reflexivity).
  eexists. split; [exact Hrun|].
  exact (proj1 (@scorecard_covers_compared_pairs _ _ _ _ _ _ _ Hrun)).
Defined.



(* ------------------------------------------------------------------ *)
(** ** The vector combiner *)

Section CombinerFacts.
Import Embedding.
Local Open Scope R_scope.

Lemma sumSquares_from (v : rvec) (acc : R) :
  fold_left (fun acc val => acc + val * val) v acc = acc + sumSquares v.
Proof.
  unfold sumSquares. revert acc. induction v as [|x v IH]; intros acc; simpl.
  - lra.
  - rewrite IH, (IH (0 + x * x)). lra.
Qed.

Lemma sumSquares_cons (x : R) (v : rvec) :
  sumSquares (x :: v) = x * x + sumSquares v.
Proof. unfold sumSquares at 1. simpl. rewrite sumSquares_from. lra. Qed.

Lemma sumSquares_nonneg (v : rvec) : 0 <= sumSquares v.
Proof.
  induction v as [|x v IH].
  - unfold sumSquares. simpl. lra.
  - rewrite sumSquares_cons. pose proof (Rle_0_sqr x) as Hx. unfold Rsqr in Hx. lra.
Qed.

Lemma sumSquares_scale (v : rvec) (n : R) :
  n <> 0 -> sumSquares (map (fun x => x / n) v) = sumSquares v / (n * n).
Proof.
  intros Hn. induction v as [|x v IH]; simpl.
  - unfold sumSquares. simpl. field. exact Hn.
  - rewrite !sumSquares_cons, IH. field. exact Hn.
Qed.

Lemma sumSquares_zero (v : rvec) :
  sumSquares v = 0 -> Forall (fun x => x = 0) v.
Proof.
  induction v as [|x v IH]; intros H; constructor.
  - rewrite sumSquares_cons in H. pose proof (sumSquares_nonneg v).
    pose proof (Rle_0_sqr x) as Hx. unfold Rsqr in Hx.
    assert (Hxx : x * x = 0) by lra.
    apply Rmult_integral in Hxx. tauto.
  - apply IH. rewrite sumSquares_cons in H. pose proof (sumSquares_nonneg v).
    pose proof (Rle_0_sqr x) as Hx. unfold Rsqr in Hx. lra.
Qed.

(** a vector with a non-zero component is scaled to norm 1 *)
Lemma normalize_unit (v : rvec) :
  sumSquares v <> 0 -> l2norm (normalize v) = 1.
Proof.
  intros Hs. pose proof (sumSquares_nonneg v) as Hpos.
  assert (Hn : sqrt (sumSquares v) <> 0).
  { intros H0. apply sqrt_eq_0 in H0; [contradiction | exact Hpos]. }
  unfold normalize, l2norm at 1.
  destruct (Req_dec_T (l2norm v) 0) as [H0|_]; [contradiction|].
  unfold l2norm. rewrite sumSquares_scale by exact Hn.
  rewrite sqrt_sqrt by exact Hpos.
  replace (sumSquares v / sumSquares v) with 1 by (field; exact Hs).
  apply sqrt_1.
Qed.

(** the zero vector is returned as it is, with norm 0 *)
Lemma normalize_zero (v : rvec) :
  sumSquares v = 0 -> l2norm (normalize v) = 0.
Proof.
  intros Hs. unfold normalize, l2norm at 1.
  assert (H0 : l2norm v = 0) by (unfold l2norm; rewrite Hs; apply sqrt_0).
  destruct (Req_dec_T (l2norm v) 0) as [_|Hne]; [|contradiction].
  rewrite sumSquares_scale by lra. rewrite Hs.
  replace (0 / (1 * 1)) with 0 by field. apply sqrt_0.
Qed.

Lemma normalize_length (v : rvec) : List.length (normalize v) = List.length v.
Proof. unfold normalize. apply length_map. Qed.

Lemma nth_map_seq (f : nat -> R) (size i : nat) :
  (i < size)%nat -> nth i (map f (seq 0 size)) 0 = f i.
Proof.
  intros Hi.
  rewrite nth_indep with (d' := f 0%nat) by (rewrite length_map, length_seq; exact Hi).
  rewrite map_nth, seq_nth by exact Hi. reflexivity.
Qed.

Lemma addScaled_length (size : nat) (combined vec : rvec) (c : R) :
  List.length (addScaled size combined vec c) = size.
Proof. unfold addScaled. now rewrite length_map, length_seq. Qed.

Lemma addScaled_nth (size i : nat) (combined vec : rvec) (c : R) :
  (i < size)%nat ->
  nth i (addScaled size combined vec c) 0 = nth i combined 0 + nth i vec 0 * c.
Proof. intros Hi. unfold addScaled. now rewrite nth_map_seq. Qed.

Lemma accumulate_length (size : nat) (coef : part -> R) (ps : list part) :
  forall init,
    List.length init = size ->
    List.length
      (fold_left (fun combined p => addScaled size combined (partArray p) (coef p))
         ps init) = size.
Proof.
  induction ps as [|p ps IH]; intros init Hinit; simpl; [exact Hinit|].
  apply IH. apply addScaled_length.
Qed.

Lemma accumulate_nth (size i : nat) (coef : part -> R) (ps : list part) :
  (i < size)%nat ->
  forall init,
    nth i (fold_left (fun combined p => addScaled size combined (partArray p) (coef p))
             ps init) 0
    = fold_left (fun acc p => acc + nth i (partArray p) 0 * coef p) ps (nth i init 0).
Proof.
  intros Hi. induction ps as [|p ps IH]; intros init; simpl; [reflexivity|].
  rewrite IH, addScaled_nth by exact Hi. reflexivity.
Qed.

Lemma weightedSum_length (ps : list part) :
  List.length (weightedSum ps) = minLength ps.
Proof. unfold weightedSum. apply accumulate_length. apply repeat_length. Qed.

Lemma weightedSum_nth (ps : list part) (i : nat) :
  (i < minLength ps)%nat ->
  nth i (weightedSum ps) 0
  = fold_left
      (fun acc p => acc + nth i (partArray p) 0 * (partWeight p / totalWeight ps))
      ps 0.
Proof.
  intros Hi. unfold weightedSum.
  rewrite accumulate_nth with (coef := fun p => partWeight p / totalWeight ps)
    by exact Hi.
  now rewrite nth_repeat.
Qed.

Lemma isPositive_true (w : R) : isPositive w = true <-> 0 < w.
Proof.
  unfold isPositive. destruct (Rlt_dec 0 w); split; auto; discriminate.
Qed.

Lemma sumWeights_from (ps : list part) (acc : R) :
  fold_left (fun acc p => acc + partWeight p) ps acc
  = acc + fold_left (fun acc p => acc + partWeight p) ps 0.
Proof.
  revert acc. induction ps as [|p ps IH]; intros acc; simpl.
  - lra.
  - rewrite IH, (IH (0 + partWeight p)). lra.
Qed.

Lemma filter_keeps_all (ps : list part) :
  allSurvive ps -> filter keepPart ps = ps.
Proof.
  intros Hall. induction Hall as [|p ps [(x & xs & Hv) Hw] _ IH]; simpl.
  - reflexivity.
  - unfold keepPart at 1. rewrite Hv.
    replace (isPositive (partWeight p)) with true
      by (symmetry; now apply isPositive_true).
    now rewrite IH.
Qed.

Lemma scaled_sum_from (t : R) (ps : list part) (acc : R) :
  fold_left (fun acc p => acc + partWeight p / t) ps acc
  = acc + fold_left (fun acc p => acc + partWeight p) ps 0 / t.
Proof.
  revert acc. induction ps as [|p ps IH]; intros acc; simpl.
  - unfold Rdiv. ring.
  - rewrite IH. rewrite (sumWeights_from ps (0 + partWeight p)).
    unfold Rdiv. ring.
Qed.

Lemma totalWeight_positive (ps : list part) :
  allSurvive ps -> ps <> [] -> 0 < totalWeight ps.
Proof.
  unfold totalWeight. intros Hall Hne.
  destruct Hall as [|p ps [_ Hp] Hrest]; [contradiction|]. clear Hne. simpl.
  rewrite sumWeights_from.
  assert (Hnonneg : 0 <= fold_left (fun acc q => acc + partWeight q) ps 0).
  { clear Hp p. induction Hrest as [|q ps [_ Hq] _ IH]; simpl; [lra|].
    rewrite sumWeights_from. lra. }
  lra.
Qed.

Lemma default_parts_survive (vs : vectors) (c s t h : R) :
  vCode vs = Some [c] -> vStyle vs = Some [s] ->
  vStructure vs = Some [t] -> vHolistic vs = Some [h] ->
  allSurvive (allParts vs Sample.noWeight (Some true)).
Proof.
  intros Hc Hs Ht Hh. unfold allParts, allSurvive. simpl.
  rewrite Hc, Hs, Ht, Hh.
  repeat constructor; simpl; try (do 2 eexists; reflexivity); lra.
Qed.

Lemma default_weightedSum (vs : vectors) (c s t h : R) :
  vCode vs = Some [c] -> vStyle vs = Some [s] ->
  vStructure vs = Some [t] -> vHolistic vs = Some [h] ->
  weightedSum (allParts vs Sample.noWeight (Some true))
  = [c * (55 / 100) + s * (2 / 10) + t * (15 / 100) + h * (1 / 10)].
Proof.
  intros Hc Hs Ht Hh.
  unfold weightedSum, allParts, totalWeight, minLength, partLength, addScaled,
    partArray.
  simpl. rewrite Hc, Hs, Ht, Hh. simpl. f_equal. field.
Qed.

End CombinerFacts.

(** C6, as stated, fails: four non-empty vectors and positive weights do not
    rule out a weighted sum that is the zero vector (here four zero vectors
    under the default weights); [normalize] then divides by 1 and the result
    has norm 0. *)
Lemma combineVectors_zero_sum_has_norm_zero :
  Embedding.allSurvive (Embedding.allParts Sample.zeroVectors Sample.noWeight (Some true))
  /\ Embedding.l2norm
       (Embedding.combineVectors Sample.zeroVectors Sample.noWeight (Some true))
     <> 1%R.
Proof.
  assert (Hall : Embedding.allSurvive
                   (Embedding.allParts Sample.zeroVectors Sample.noWeight (Some true)))
    by (eapply default_parts_survive; reflexivity).
  split; [exact Hall|].
  unfold Embedding.combineVectors, Embedding.buildParts.
  rewrite (filter_keeps_all Hall). cbn [Embedding.allParts].
  rewrite normalize_zero; [lra|].
  fold (Embedding.allParts Sample.zeroVectors Sample.noWeight (Some true)).
  erewrite default_weightedSum by reflexivity.
  unfold Embedding.sumSquares. simpl. lra.
Qed.

(** C6, amended: when all four vectors are non-empty and all effective
    weights are positive, no part is dropped; the weights are divided by their
    total, so they sum to 1; the result has the length of the shortest vector
    and is the L2-normalisation of the weighted element-wise sum; it has L2
    norm exactly 1 whenever that weighted sum is not the zero vector, and is
    the zero vector itself (norm 0) otherwise. *)
Theorem combineVectors_unit_norm (vs : Embedding.vectors) (weight : Embedding.weightT)
  (hasStyleSignal : option bool) :
  let parts := Embedding.allParts vs weight hasStyleSignal in
  Embedding.allSurvive parts ->
  Embedding.buildParts vs weight hasStyleSignal = parts
  /\ fold_left
       (fun acc p => acc + Embedding.partWeight p / Embedding.totalWeight parts)%R
       parts 0%R = 1%R
  /\ Embedding.combineVectors vs weight hasStyleSignal
     = Embedding.normalize (Embedding.weightedSum parts)
  /\ List.length (Embedding.combineVectors vs weight hasStyleSignal)
     = Embedding.minLength parts
  /\ (forall i, (i < Embedding.minLength parts)%nat ->
        nth i (Embedding.weightedSum parts) 0%R
        = fold_left
            (fun acc p =>
               acc + nth i (Embedding.partArray p) 0
                     * (Embedding.partWeight p / Embedding.totalWeight parts))%R
            parts 0%R)
  /\ (Embedding.sumSquares (Embedding.weightedSum parts) <> 0%R ->
      Embedding.l2norm (Embedding.combineVectors vs weight hasStyleSignal) = 1%R)
  /\ (Embedding.sumSquares (Embedding.weightedSum parts) = 0%R ->
      Embedding.l2norm (Embedding.combineVectors vs weight hasStyleSignal) = 0%R).
Proof.
  intros parts Hall.
  assert (Hkeep : Embedding.buildParts vs weight hasStyleSignal = parts)
    by (unfold Embedding.buildParts; now apply filter_keeps_all).
  assert (Hcomb : Embedding.combineVectors vs weight hasStyleSignal
                  = Embedding.normalize (Embedding.weightedSum parts)).
  { unfold Embedding.combineVectors. rewrite Hkeep. reflexivity. }
  assert (Htotal : (0 < Embedding.totalWeight parts)%R).
  { apply totalWeight_positive; [exact Hall | discriminate]. }
  split; [exact Hkeep|].
  split.
  { rewrite scaled_sum_from. fold (Embedding.totalWeight parts). field. lra. }
  split; [exact Hcomb|].
  split; [rewrite Hcomb, normalize_length; apply weightedSum_length|].
  split; [intros i Hi; now apply weightedSum_nth|].
  rewrite Hcomb. split; [apply normalize_unit | apply normalize_zero].
Qed.

Lemma combineVectors_unit_norm_witness :
  Embedding.l2norm
    (Embedding.combineVectors Sample.oneVectors Sample.noWeight (Some true)) = 1%R.
Proof.
  assert (Hall : Embedding.allSurvive
                   (Embedding.allParts Sample.oneVectors Sample.noWeight (Some true)))
    by (eapply default_parts_survive; reflexivity).
  destruct (@combineVectors_unit_norm _ _ _ Hall) as (_ & _ & _ & _ & _ & Hunit & _).
  apply Hunit.
  erewrite default_weightedSum by reflexivity.
  unfold Embedding.sumSquares. simpl. lra.
Defined.

(* ------------------------------------------------------------------ *)
(** ** The embedding cache *)

Section CacheFacts.
Import Embedding.
Variable loadStyles : component -> styles.
Variable buildRepresentation : component -> option string -> representationT.
Variable embed : string -> result rvec.
Variable modelId : string.
Variable weight : weightT.

Local Abbreviation step := (embedComponent loadStyles buildRepresentation embed modelId weight).

(** the fingerprint [embedComponents] computes for a unit *)
Local Abbreviation repOf c := (buildRepresentation c (lsStyleText (loadStyles c))).
Local Abbreviation freshFingerprint c :=
  (Cache.fingerprintRepresentation (Some (codeRep (repOf c)))
     (Some (styleRep (repOf c))) (lsStyleText (loadStyles c))
     (Some (structureRep (repOf c))) (Some (holisticRep (repOf c)))).

Local Abbreviation lookup st c :=
  (cacheGet (cache st) (Cache.buildCacheKey modelId (id c))).








End CacheFacts.



(* ------------------------------------------------------------------ *)
(** ** The repository's label tests and scenario D, run on the model *)

Example style_label_skipped_for_shared_stylesheet :
  labelPair Sample.dot Sample.hintsOf
    (Sample.styledEntry Sample.plainA ["/styles/shared.css"] false)
    (Sample.styledEntry Sample.plainB ["/styles/shared.css"] false)
    (92 # 100) (Sample.testConfig [])
  = Ok ([], []).
Proof. vm_compute. reflexivity. Qed.

Example style_label_kept_with_inline_or_unique_styles :
  labelPair Sample.dot Sample.hintsOf
    (Sample.styledEntry Sample.plainA ["/styles/shared.css"] true)
    (Sample.styledEntry Sample.plainB ["/styles/shared.css"; "/styles/other.css"] false)
    (92 # 100) (Sample.testConfig [])
  = Ok (["style-duplicate"], ["style"]).
Proof. vm_compute. reflexivity. Qed.

Example all_analyses_disabled_gives_no_label :
  labelPair Sample.dot Sample.hintsOf
    (Sample.entryOf Sample.wrapperA [1; 0]%Q) (Sample.entryOf Sample.wrapperB [1; 0]%Q)
    (99 # 100)
    (Sample.testConfig
       ["style-duplicate"; "logic-duplicate"; "copy-paste-variant";
        "prop-parameterizable"; "forked-clone"; "wrapper-duplicate"])
  = Ok ([], []).
Proof. vm_compute. reflexivity. Qed.

(** three mutually identical units and a per-unit limit of one: only the
    first pair in sorted order is kept *)
Example limit_one_keeps_one_pair :
  exists sc,
    findSimilarities Sample.dot Sample.hintsOf
      [Sample.entryOf Sample.plainA [1; 0]%Q; Sample.entryOf Sample.plainB [1; 0]%Q;
       Sample.entryOf Sample.plainC [1; 0]%Q]
      {| similarityThreshold := 85 # 100;
         highSimilarityThreshold := 9 # 10;
         maxSimilarityThreshold := Some 1%Q;
         limit := Some 1%Q;
         compareGlobs := Some [];
         minPathDistance := Some 0%Q;
         disableAnalyses := Some [];
         language := Some "en" |}
    = Ok ([ {| a := "A"; b := "B"; similarity := 10000 # 10000;
               category := "almost-identical";
               labels := ["copy-paste-variant"];
               hints := ["copy"] |} ], sc)
    /\ scEvaluatedPairs sc = 3%nat.
Proof. eexists. split; [vm_compute; reflexivity | reflexivity]. Qed.

(* ------------------------------------------------------------------ *)
(** ** Sorting and the per-unit limit *)

Lemma insertDesc_perm {A : Type} (key : A -> Q) (x : A) (l : list A) :
  Permutation (x :: l) (insertDesc key x l).
Proof.
  induction l as [|y l IH]; simpl; [reflexivity|].
  destruct (Qle_bool (key y) (key x)); [reflexivity|].
  rewrite perm_swap. now constructor.
Qed.

Lemma sortDesc_perm {A : Type} (key : A -> Q) (l : list A) :
  Permutation l (sortDesc key l).
Proof.
  induction l as [|x l IH]; simpl; [constructor|].
  rewrite <- insertDesc_perm. now constructor.
Qed.

Lemma insertDesc_sorted {A : Type} (key : A -> Q) (x : A) (l : list A) :
  StronglySorted (fun p q => key q <= key p)%Q l ->
  StronglySorted (fun p q => key q <= key p)%Q (insertDesc key x l).
Proof.
  induction 1 as [|y l Hl IH Hy]; simpl.
  - repeat constructor.
  - destruct (Qle_bool (key y) (key x)) eqn:Hle.
    + apply Qle_bool_iff in Hle. constructor; [now constructor|].
      constructor; [exact Hle|].
      eapply Forall_impl; [|exact Hy]. intros z Hz. simpl in Hz.
      eapply Qle_trans; eassumption.
    + apply Qle_bool_false in Hle. constructor; [exact IH|].
      rewrite Forall_forall in *. intros z Hz. apply insertDesc_In in Hz.
      destruct Hz as [-> | Hz]; [now apply Qlt_le_weak | now apply Hy].
Qed.

Lemma sortDesc_sorted {A : Type} (key : A -> Q) (l : list A) :
  StronglySorted (fun p q => key q <= key p)%Q (sortDesc key l).
Proof.
  induction l as [|x l IH]; simpl; [constructor | now apply insertDesc_sorted].
Qed.

(** elements with one and the same key keep their order *)
Lemma insertDesc_stable {A : Type} (key : A -> Q) (v : Q) (x : A) (l : list A) :
  filter (fun p => Qeq_bool (key p) v) (insertDesc key x l)
  = filter (fun p => Qeq_bool (key p) v) (x :: l).
Proof.
  induction l as [|y l IH]; [reflexivity|].
  cbn [insertDesc]. destruct (Qle_bool (key y) (key x)) eqn:Hle; [reflexivity|].
  apply Qle_bool_false in Hle.
  cbn [filter] in *. rewrite IH.
  destruct (Qeq_bool (key x) v) eqn:Hx; [|reflexivity].
  destruct (Qeq_bool (key y) v) eqn:Hy; [|reflexivity].
  apply Qeq_bool_iff in Hx, Hy. exfalso.
  rewrite Hx, Hy in Hle. exact (Qlt_irrefl _ Hle).
Qed.

Lemma sortDesc_stable {A : Type} (key : A -> Q) (v : Q) (l : list A) :
  filter (fun p => Qeq_bool (key p) v) (sortDesc key l)
  = filter (fun p => Qeq_bool (key p) v) l.
Proof.
  induction l as [|x l IH]; [reflexivity|].
  cbn [sortDesc fold_right]. fold (sortDesc key l).
  rewrite insertDesc_stable. cbn [filter]. now rewrite IH.
Qed.

(** X1: without a limit, [limitMatches] returns all the pairs, ordered by
    decreasing similarity, pairs of equal similarity staying in the order in
    which the loop produced them. *)
Theorem limitMatches_unlimited_sorts (ps : list reportedPair) :
  Permutation ps (limitMatches ps None)
  /\ StronglySorted bySimilarityDesc (limitMatches ps None)
  /\ forall v,
       filter (fun p => Qeq_bool (similarity p) v) (limitMatches ps None)
       = filter (fun p => Qeq_bool (similarity p) v) ps.
Proof.
  unfold limitMatches. split; [apply sortDesc_perm|].
  split; [apply sortDesc_sorted|]. intros v. apply sortDesc_stable.
Qed.

Lemma getCount_setCount (counts : list (string * nat)) (k k' : string) (v : nat) :
  getCount (setCount counts k v) k' = if String.eqb k k' then v else getCount counts k'.
Proof.
  induction counts as [|[k0 v0] counts IH]; simpl.
  - reflexivity.
  - destruct (String.eqb_spec k0 k) as [->|Hne]; simpl.
    + destruct (String.eqb k k'); reflexivity.
    + rewrite IH. destruct (String.eqb_spec k0 k') as [->|Hne'].
      * destruct (String.eqb_spec k k') as [->|_]; [contradiction | reflexivity].
      * reflexivity.
Qed.

Lemma touches_cons (ident : string) (p : reportedPair) (ps : list reportedPair) :
  touches ident (p :: ps)
  = ((if String.eqb (a p) ident || String.eqb (b p) ident then 1 else 0)
     + touches ident ps)%nat.
Proof.
  unfold touches. simpl.
  destruct (String.eqb (a p) ident || String.eqb (b p) ident); reflexivity.
Qed.


Lemma Qnat_lt (m n : nat) : (Qnat m < Qnat n)%Q <-> (m < n)%nat.
Proof. unfold Qnat. rewrite <- Zlt_Qlt. lia. Qed.

Lemma Qnat_le (m n : nat) : (Qnat m <= Qnat n)%Q <-> (m <= n)%nat.
Proof. unfold Qnat. rewrite <- Zle_Qle. lia. Qed.



Lemma touches_le_cons (ident : string) (p : reportedPair) (ps : list reportedPair) :
  (touches ident ps <= touches ident (p :: ps))%nat.
Proof. rewrite touches_cons. lia. Qed.





(* ------------------------------------------------------------------ *)
(** ** Bookkeeping of the pairwise loop *)

Lemma sumCounts_bump (counts : list (string * nat)) (k : string) :
  sumCounts (setCount counts k (getCount counts k + 1)) = (sumCounts counts + 1)%nat.
Proof.
  induction counts as [|[k0 v0] counts IH]; simpl.
  - reflexivity.
  - destruct (String.eqb k0 k); simpl; [lia | rewrite IH; lia].
Qed.

Lemma getCount_bump (counts : list (string * nat)) (k k' : string) :
  getCount (setCount counts k (getCount counts k + 1)) k'
  = (getCount counts k' + if String.eqb k k' then 1 else 0)%nat.
Proof.
  rewrite getCount_setCount.
  destruct (String.eqb_spec k k') as [->|_]; lia.
Qed.

Section BookkeepingFacts.
Variable vec : Type.
Variable cosine : vec -> vec -> Q.
Variable getI18n : option string -> messages.

Lemma suppressPair_reasons (ei ej : entry vec) (reason : string) :
  suppressPair ei ej = Some reason ->
  In reason ["component-composition"; "wrapper-different-base";
             "wrapper-specialization"; "low-signal-pair"].
Proof.
  unfold suppressPair, orElse, compositionSuppression, wrapperSuppression,
    lowSignalSuppression.
  repeat match goal with
         | |- context [if ?c then _ else _] =>
             match type of c with bool => destruct c end
         end;
    intros H; inversion H; subst; simpl;
    repeat first [left; reflexivity | right].
Qed.

(** what one iteration does to the counters *)
Ltac count_cases :=
  split; [intros Hsum; first [exact Hsum | lia] | split; lia].

Lemma compareEntries_counters (cfg : config) (ei ej : entry vec)
  (st st' : loopState) :
  compareEntries cosine getI18n cfg ei ej st = Ok st' ->
  let filtered s := getCount (suppressionReasons s) "compare-filter" in
  (suppressedPairs st = sumCounts (suppressionReasons st) ->
   suppressedPairs st' = sumCounts (suppressionReasons st'))
  /\ (evaluatedPairs st' + filtered st' = evaluatedPairs st + filtered st + 1)%nat
  /\ (List.length (pairs st') + suppressedPairs st'
      <= List.length (pairs st) + suppressedPairs st + 1)%nat.
Proof.
  intros Hrun filtered. unfold filtered. unfold compareEntries in Hrun.
  destruct (compareEnabled cfg && _).
  { inversion Hrun; subst; cbn [suppress suppressionReasons suppressedPairs
                                  evaluatedPairs pairs].
    rewrite sumCounts_bump, getCount_bump. simpl. count_cases. }
  destruct (Qltb _ (similarityThreshold cfg)).
  { inversion Hrun; subst; cbn. count_cases. }
  destruct (Qgtb _ epsilon).
  { inversion Hrun; subst; cbn [suppress record suppressionReasons suppressedPairs
                                  evaluatedPairs pairs].
    rewrite sumCounts_bump, getCount_bump. simpl. count_cases. }
  destruct (shouldSkipByPath _ _ cfg).
  { inversion Hrun; subst; cbn [suppress record suppressionReasons suppressedPairs
                                  evaluatedPairs pairs].
    rewrite sumCounts_bump, getCount_bump. simpl. count_cases. }
  destruct (suppressPair ei ej) as [reason|] eqn:Hsup.
  { inversion Hrun; subst; cbn [suppress record suppressionReasons suppressedPairs
                                  evaluatedPairs pairs].
    rewrite sumCounts_bump, getCount_bump.
    apply suppressPair_reasons in Hsup. simpl in Hsup.
    destruct Hsup as [<-|[<-|[<-|[<-|[]]]]]; simpl; count_cases. }
  destruct (labelPair cosine getI18n ei ej _ cfg) as [lh|err]; simpl in Hrun;
    [|discriminate].
  inversion Hrun; subst; cbn [pushPair record suppressionReasons suppressedPairs
                                evaluatedPairs pairs].
  rewrite length_app. simpl. count_cases.
Qed.

Lemma loop_counters (cfg : config) (ps : list (entry vec * entry vec)) :
  forall st st',
    foldM (fun st p => compareEntries cosine getI18n cfg (fst p) (snd p) st) ps st
    = Ok st' ->
    let filtered s := getCount (suppressionReasons s) "compare-filter" in
    (suppressedPairs st = sumCounts (suppressionReasons st) ->
     suppressedPairs st' = sumCounts (suppressionReasons st'))
    /\ (evaluatedPairs st' + filtered st'
        = evaluatedPairs st + filtered st + List.length ps)%nat
    /\ (List.length (pairs st') + suppressedPairs st'
        <= List.length (pairs st) + suppressedPairs st + List.length ps)%nat.
Proof.
  induction ps as [|[ei ej] ps IH]; intros st st' Hrun; simpl in Hrun.
  - inversion Hrun; subst. cbn zeta. simpl. repeat split; auto; lia.
  - destruct (compareEntries cosine getI18n cfg ei ej st) as [st1|err] eqn:Hstep;
      simpl in Hrun; [|discriminate].
    apply compareEntries_counters in Hstep. cbn zeta in Hstep.
    destruct Hstep as (Hs1 & He1 & Hp1).
    destruct (IH st1 st' Hrun) as (Hs2 & He2 & Hp2).
    cbn zeta. simpl List.length. repeat split; [auto | lia | lia].
Qed.

Lemma limitFilter_length (lim : Q) (ps : list reportedPair) :
  forall counts, (List.length (limitFilter lim ps counts) <= List.length ps)%nat.
Proof.
  induction ps as [|p ps IH]; intros counts; cbn [limitFilter]; [lia|].
  destruct (_ || _); simpl.
  - specialize (IH counts). lia.
  - specialize (IH (setCount (setCount counts (a p) (getCount counts (a p) + 1))
                      (b p) (getCount counts (b p) + 1))). lia.
Qed.

Lemma limitMatches_length (ps : list reportedPair) (lim : option Q) :
  (List.length (limitMatches ps lim) <= List.length ps)%nat.
Proof.
  unfold limitMatches.
  pose proof (Permutation_length (sortDesc_perm similarity ps)) as Hlen.
  destruct lim as [l|]; [|lia].
  pose proof (limitFilter_length l (sortDesc similarity ps) []). lia.
Qed.

(** X3: when [findSimilarities] returns, every enumerated pair is accounted
    for once: it was either rejected by the compare-mode filter or evaluated,
    so the evaluated count and the [compare-filter] count add up to
    [n (n - 1) / 2]; [suppressedPairs] is the total of the reason histogram;
    and the reported pairs together with the suppressed ones never exceed the
    enumerated pairs. *)
Theorem findSimilarities_accounts_for_every_pair (entries : list (entry vec))
  (cfg : config) (reported : list reportedPair) (sc : scorecard) :
  findSimilarities cosine getI18n entries cfg = Ok (reported, sc) ->
  let n := List.length entries in
  scSuppressedPairs sc = sumCounts (scSuppressionReasons sc)
  /\ (2 * (scEvaluatedPairs sc + getCount (scSuppressionReasons sc) "compare-filter")
      = n * (n - 1))%nat
  /\ (2 * (List.length reported + scSuppressedPairs sc) <= n * (n - 1))%nat.
Proof.
  intros Hrun n. unfold findSimilarities in Hrun.
  destruct (outerLoop cosine getI18n entries cfg initialState) as [st|err] eqn:Hloop;
    simpl in Hrun; [|discriminate].
  inversion Hrun; subst; clear Hrun.
  rewrite outerLoop_refines in Hloop.
  apply loop_counters in Hloop. cbn zeta in Hloop.
  destruct Hloop as (Hs & He & Hp).
  cbn [initialState suppressedPairs suppressionReasons evaluatedPairs pairs
       getCount List.length Nat.add] in Hs, He, Hp.
  pose proof (enumeratePairs_length entries) as Hn.
  pose proof (limitMatches_length (pairs st) (limit cfg)) as Hl.
  unfold buildScorecard;
    cbn [scSuppressedPairs scSuppressionReasons scEvaluatedPairs].
  fold n in Hn. split; [apply Hs; reflexivity|]. split; lia.
Qed.
End BookkeepingFacts.

Lemma findSimilarities_accounts_for_every_pair_witness :
  exists sc,
    findSimilarities Sample.dot Sample.hintsOf [Sample.entryA; Sample.entryB]
      (Sample.settings (3 # 10) None (Some ["src/target/**"]) None) = Ok ([], sc)
    /\ scSuppressedPairs sc = sumCounts (scSuppressionReasons sc).
Proof.
  eassert (Hrun : findSimilarities Sample.dot Sample.hintsOf
                    [Sample.entryA; Sample.entryB]
                    (Sample.settings (3 # 10) None (Some ["src/target/**"]) None)
                  = Ok ([], _)) by (vm_compute; reflexivity).
  eexists. split; [exact Hrun|].
  exact (proj1 (@findSimilarities_accounts_for_every_pair _ _ _ _ _ _ _ Hrun)).
Defined.

(* ------------------------------------------------------------------ *)
(** ** The per-unit best table and the scorecard *)

Lemma mem_In (x : string) (l : list string) : mem x l = true <-> In x l.
Proof.
  unfold mem. rewrite existsb_exists. split.
  - intros (y & Hy & Heq). apply String.eqb_eq in Heq. now subst.
  - intros H. exists x. split; [exact H | apply String.eqb_refl].
Qed.

Lemma mapSet_keys (m : list (string * Q)) (k : string) (v : Q) :
  map fst (mapSet m k v)
  = if mem k (map fst m) then map fst m else (map fst m ++ [k])%list.
Proof.
  induction m as [|[k0 v0] m IH]; simpl; [reflexivity|].
  destruct (String.eqb_spec k0 k) as [->|Hne]; simpl.
  - now rewrite String.eqb_refl.
  - rewrite IH. destruct (String.eqb_spec k k0) as [->|_]; [contradiction|].
    simpl. unfold mem. destruct (existsb _ _); reflexivity.
Qed.

Lemma mapSet_NoDup (m : list (string * Q)) (k : string) (v : Q) :
  NoDup (map fst m) -> NoDup (map fst (mapSet m k v)).
Proof.
  intros Hnd. rewrite mapSet_keys. destruct (mem k (map fst m)) eqn:Hmem.
  - exact Hnd.
  - apply NoDup_app; [exact Hnd | repeat constructor; simpl; tauto |].
    intros x Hx [<-|[]]. apply mem_In in Hx. congruence.
Qed.

Lemma mapSet_In (m : list (string * Q)) (k : string) (v : Q) (kv : string * Q) :
  In kv (mapSet m k v) -> kv = (k, v) \/ In kv m.
Proof.
  induction m as [|[k0 v0] m IH]; simpl.
  - intros [<-|[]]. now left.
  - destruct (String.eqb k0 k); simpl.
    + intros [<-|H]; [now left | right; now right].
    + intros [<-|H]; [right; now left|].
      destruct (IH H) as [->|Hin]; [now left | right; now right].
Qed.

Lemma mapSet_In_new (m : list (string * Q)) (k : string) (v : Q) :
  In (k, v) (mapSet m k v).
Proof.
  induction m as [|[k0 v0] m IH]; simpl; [now left|].
  destruct (String.eqb k0 k); simpl; [now left | now right].
Qed.

Lemma mapSet_In_other (m : list (string * Q)) (k k' : string) (v v' : Q) :
  k' <> k -> In (k', v') m -> In (k', v') (mapSet m k v).
Proof.
  intros Hne. induction m as [|[k0 v0] m IH]; simpl; [tauto|].
  destruct (String.eqb_spec k0 k) as [->|_]; simpl.
  - intros [H|H]; [inversion H; subst; contradiction | now right].
  - intros [H|H]; [now left | right; now apply IH].
Qed.

Lemma mapGet_cases (m : list (string * Q)) (k : string) :
  In (k, mapGet m k) m \/ (mapGet m k = 0%Q /\ ~ In k (map fst m)).
Proof.
  induction m as [|[k0 v0] m IH]; simpl.
  - right. split; [reflexivity | tauto].
  - destruct (String.eqb_spec k0 k) as [->|Hne].
    + left. now left.
    + destruct IH as [Hin | [Hz Hout]]; [left; now right|].
      right. split; [exact Hz | tauto].
Qed.

Lemma mapGet_In (m : list (string * Q)) (k : string) (v : Q) :
  NoDup (map fst m) -> In (k, v) m -> mapGet m k = v.
Proof.
  induction m as [|[k0 v0] m IH]; simpl; [tauto|].
  intros Hnd Hin. apply NoDup_cons_iff in Hnd. destruct Hnd as [Hk0 Hnd].
  destruct (String.eqb_spec k0 k) as [->|Hne].
  - destruct Hin as [H|H]; [now inversion H|].
    exfalso. apply Hk0. apply in_map_iff. exists (k, v). split; [reflexivity|exact H].
  - destruct Hin as [H|H]; [inversion H; subst; contradiction | now apply IH].
Qed.

(** a similarity not above the running maximum leaves the invariant in place *)
Lemma trackBest_below (best : list (string * Q)) (maxSim sim : Q) (ident : string) :
  bestInvariant best maxSim -> (sim <= maxSim)%Q ->
  bestInvariant (trackBestSimilarity best ident sim) maxSim.
Proof.
  intros (Hnd & Hpos & Hval & Hmax) Hle. unfold trackBestSimilarity.
  destruct (Qgtb sim (mapGet best ident)) eqn:Hgt;
    [|exact (conj Hnd (conj Hpos (conj Hval Hmax)))].
  apply Qgtb_true in Hgt.
  assert (Hcur : (0 <= mapGet best ident)%Q).
  { destruct (mapGet_cases best ident) as [Hin | [-> _]]; [|apply Qle_refl].
    apply Qlt_le_weak. exact (proj1 (Hval _ Hin)). }
  split; [now apply mapSet_NoDup|]. split; [exact Hpos|]. split.
  - intros kv Hkv. apply mapSet_In in Hkv. destruct Hkv as [->|Hkv]; [|now apply Hval].
    simpl. split; [eapply Qle_lt_trans; eassumption | exact Hle].
  - right. destruct Hmax as [[-> ->] | (k & Hk)].
    + simpl in Hgt. exfalso. apply (Qlt_irrefl 0%Q).
      eapply Qlt_le_trans; eassumption.
    + exists k. apply mapSet_In_other; [|exact Hk].
      intros ->. rewrite (mapGet_In _ _ _ Hnd Hk) in Hgt.
      apply (Qlt_irrefl maxSim). eapply Qlt_le_trans; eassumption.
Qed.

(** a similarity above the running maximum becomes the new maximum and is
    recorded for the unit *)
Lemma trackBest_above (best : list (string * Q)) (maxSim sim : Q) (ident : string) :
  bestInvariant best maxSim -> (maxSim < sim)%Q ->
  bestInvariant (trackBestSimilarity best ident sim) sim.
Proof.
  intros (Hnd & Hpos & Hval & Hmax) Hlt. unfold trackBestSimilarity.
  assert (Hcur : (mapGet best ident <= maxSim)%Q).
  { destruct (mapGet_cases best ident) as [Hin | [-> _]]; [|exact Hpos].
    exact (proj2 (Hval _ Hin)). }
  replace (Qgtb sim (mapGet best ident)) with true
    by (symmetry; apply Qgtb_true; eapply Qle_lt_trans; eassumption).
  assert (Hsim : (0 < sim)%Q) by (eapply Qle_lt_trans; eassumption).
  split; [now apply mapSet_NoDup|]. split; [now apply Qlt_le_weak|]. split.
  - intros kv Hkv. apply mapSet_In in Hkv. destruct Hkv as [->|Hkv].
    + simpl. split; [exact Hsim | apply Qle_refl].
    + destruct (Hval _ Hkv) as [H1 H2]. split; [exact H1|].
      apply Qlt_le_weak. eapply Qle_lt_trans; eassumption.
  - right. exists ident. apply mapSet_In_new.
Qed.

Lemma trackBest_keys (best : list (string * Q)) (sim : Q) (ident : string)
  (ids : list string) :
  In ident ids -> incl (map fst best) ids ->
  incl (map fst (trackBestSimilarity best ident sim)) ids.
Proof.
  intros Hid Hincl. unfold trackBestSimilarity.
  destruct (Qgtb sim _); [|exact Hincl].
  rewrite mapSet_keys. destruct (mem ident (map fst best)); [exact Hincl|].
  intros x Hx. apply in_app_iff in Hx. destruct Hx as [Hx|[<-|[]]]; auto.
Qed.

Lemma round4_compat (x y : Q) : (x == y)%Q -> round4 x = round4 y.
Proof.
  intros Heq. unfold round4.
  assert (Hb : Qltb x 0 = Qltb y 0).
  { destruct (Qltb x 0) eqn:Hx; destruct (Qltb y 0) eqn:Hy; try reflexivity.
    - apply Qltb_true in Hx. apply Qltb_false in Hy. rewrite Heq in Hx.
      exfalso. exact (Qlt_not_le _ _ Hx Hy).
    - apply Qltb_false in Hx. apply Qltb_true in Hy. rewrite Heq in Hx.
      exfalso. exact (Qlt_not_le _ _ Hy Hx). }
  rewrite Hb. destruct (Qltb y 0).
  - assert (H : Qfloor (- x * 10000 + (1 # 2)) = Qfloor (- y * 10000 + (1 # 2)))
      by (apply Qfloor_comp; now rewrite Heq).
    now rewrite H.
  - assert (H : Qfloor (x * 10000 + (1 # 2)) = Qfloor (y * 10000 + (1 # 2)))
      by (apply Qfloor_comp; now rewrite Heq).
    now rewrite H.
Qed.

Lemma Qmake_le (z1 z2 : Z) : (z1 <= z2)%Z -> (z1 # 10000 <= z2 # 10000)%Q.
Proof. intros H. unfold Qle. simpl. lia. Qed.

Lemma Qfloor_nonneg (x : Q) : (0 <= x)%Q -> (0 <= Qfloor x)%Z.
Proof. intros H. apply Qfloor_resp_le in H. exact H. Qed.

(** rounding to four decimals keeps the order *)
Lemma round4_mono (x y : Q) : (x <= y)%Q -> (round4 x <= round4 y)%Q.
Proof.
  intros Hle. unfold round4.
  destruct (Qltb x 0) eqn:Hx; destruct (Qltb y 0) eqn:Hy.
  - apply Qmake_le.
    assert (H : (Qfloor (- y * 10000 + (1 # 2)) <= Qfloor (- x * 10000 + (1 # 2)))%Z)
      by (apply Qfloor_resp_le; lra).
    lia.
  - apply Qltb_true in Hx. apply Qltb_false in Hy. apply Qmake_le.
    assert (H1 : (0 <= Qfloor (- x * 10000 + (1 # 2)))%Z)
      by (apply Qfloor_nonneg; lra).
    assert (H2 : (0 <= Qfloor (y * 10000 + (1 # 2)))%Z)
      by (apply Qfloor_nonneg; lra).
    lia.
  - apply Qltb_false in Hx. apply Qltb_true in Hy. lra.
  - apply Qmake_le. apply Qfloor_resp_le. lra.
Qed.

Lemma Qmaximum_spec (xs : list Q) :
  forall x,
    In (Qmaximum x xs) (x :: xs)
    /\ forall y, In y (x :: xs) -> (y <= Qmaximum x xs)%Q.
Proof.
  unfold Qmaximum. induction xs as [|z xs IH]; intros x; simpl.
  - split; [now left|]. intros y [<-|[]]. apply Qle_refl.
  - destruct (Qgtb z x) eqn:Hgt.
    + destruct (IH z) as [Hin Hub]. split.
      * simpl in Hin. tauto.
      * intros y [<-|Hy]; [|now apply Hub].
        apply Qgtb_true in Hgt. apply Qlt_le_weak.
        eapply Qlt_le_trans; [exact Hgt|]. apply Hub. now left.
    + destruct (IH x) as [Hin Hub]. split.
      * simpl in Hin. tauto.
      * intros y [<-|[<-|Hy]].
        -- apply Hub. now left.
        -- apply Qgtb_false in Hgt. eapply Qle_trans; [exact Hgt|].
           apply Hub. now left.
        -- apply Hub. now right.
Qed.

Lemma Qminimum_spec (xs : list Q) :
  forall x,
    In (Qminimum x xs) (x :: xs)
    /\ forall y, In y (x :: xs) -> (Qminimum x xs <= y)%Q.
Proof.
  unfold Qminimum. induction xs as [|z xs IH]; intros x; simpl.
  - split; [now left|]. intros y [<-|[]]. apply Qle_refl.
  - destruct (Qltb z x) eqn:Hlt.
    + destruct (IH z) as [Hin Hlb]. split.
      * simpl in Hin. tauto.
      * intros y [<-|Hy]; [|now apply Hlb].
        apply Qltb_true in Hlt. apply Qlt_le_weak.
        eapply Qle_lt_trans; [|exact Hlt]. apply Hlb. now left.
    + destruct (IH x) as [Hin Hlb]. split.
      * simpl in Hin. tauto.
      * intros y [<-|[<-|Hy]].
        -- apply Hlb. now left.
        -- apply Qltb_false in Hlt. eapply Qle_trans; [|exact Hlt].
           apply Hlb. now left.
        -- apply Hlb. now right.
Qed.

Section ScorecardFacts.
Variable vec : Type.
Variable cosine : vec -> vec -> Q.
Variable getI18n : option string -> messages.

(** one iteration either leaves table, maximum and pairs alone, or records
    the cosine and possibly reports the pair with that cosine, rounded *)
Lemma compareEntries_score (cfg : config) (ei ej : entry vec) (st st' : loopState) :
  compareEntries cosine getI18n cfg ei ej st = Ok st' ->
  (bestByComponent st' = bestByComponent st
   /\ maxSimilarity st' = maxSimilarity st
   /\ pairs st' = pairs st)
  \/ (bestByComponent st' = trackPair cosine (bestByComponent st) (ei, ej)
      /\ maxSimilarity st'
         = (if Qgtb (pairCosine cosine (ei, ej)) (maxSimilarity st)
            then pairCosine cosine (ei, ej) else maxSimilarity st)
      /\ (pairs st' = pairs st
          \/ exists p,
               pairs st' = (pairs st ++ [p])%list
               /\ similarity p = round4 (pairCosine cosine (ei, ej)))).
Proof.
  unfold compareEntries, pairCosine, trackPair. cbn [fst snd].
  set (sim := cosine (vector ei) (vector ej)).
  destruct (compareEnabled cfg && _).
  { intros H; inversion H; subst. left. repeat split. }
  destruct (Qltb sim (similarityThreshold cfg)).
  { intros H; inversion H; subst. right. simpl. repeat split. now left. }
  destruct (Qgtb (sim - maxThreshold cfg) epsilon).
  { intros H; inversion H; subst. right. simpl. repeat split. now left. }
  destruct (shouldSkipByPath _ _ cfg).
  { intros H; inversion H; subst. right. simpl. repeat split. now left. }
  destruct (suppressPair ei ej).
  { intros H; inversion H; subst. right. simpl. repeat split. now left. }
  destruct (labelPair cosine getI18n ei ej sim cfg) as [lh|err]; simpl;
    [|discriminate].
  intros H; inversion H; subst. right. simpl. repeat split.
  right. eexists. split; reflexivity.
Qed.

Lemma trackPair_invariant (best : list (string * Q)) (maxSim : Q)
  (p : entry vec * entry vec) :
  bestInvariant best maxSim ->
  bestInvariant (trackPair cosine best p)
    (if Qgtb (pairCosine cosine p) maxSim then pairCosine cosine p else maxSim).
Proof.
  intros Hinv. unfold trackPair.
  destruct (Qgtb (pairCosine cosine p) maxSim) eqn:Hgt.
  - apply Qgtb_true in Hgt.
    apply (@trackBest_below _ (pairCosine cosine p)); [|apply Qle_refl].
    now apply (@trackBest_above _ maxSim).
  - apply Qgtb_false in Hgt.
    apply (@trackBest_below _ maxSim); [|exact Hgt].
    now apply (@trackBest_below _ maxSim).
Qed.

Lemma enumeratePairs_members (es : list (entry vec)) (ei ej : entry vec) :
  In (ei, ej) (enumeratePairs es) -> In ei es /\ In ej es.
Proof.
  intros H. destruct (enumeratePairs_indices _ _ _ H) as (i & j & _ & Hi & Hj).
  split; eapply nth_error_In; eassumption.
Qed.

Lemma outerLoop_score (entries : list (entry vec)) (cfg : config) (st : loopState) :
  outerLoop cosine getI18n entries cfg initialState = Ok st ->
  bestInvariant (bestByComponent st) (maxSimilarity st)
  /\ incl (map fst (bestByComponent st)) (map (fun e => id (entryComponent e)) entries)
  /\ forall p, In p (pairs st) ->
       exists s, similarity p = round4 s /\ (s <= maxSimilarity st)%Q.
Proof.
  rewrite outerLoop_refines. intros Hrun.
  eapply foldM_invariant
    with (P := fun s =>
                 bestInvariant (bestByComponent s) (maxSimilarity s)
                 /\ incl (map fst (bestByComponent s))
                      (map (fun e => id (entryComponent e)) entries)
                 /\ forall p, In p (pairs s) ->
                      exists q, similarity p = round4 q /\ (q <= maxSimilarity s)%Q);
    [ | | exact Hrun].
  - intros s [ei ej] s' Hin (Hinv & Hkeys & Hpairs) Hstep. cbn [fst snd] in Hstep.
    apply compareEntries_score in Hstep.
    destruct Hstep as [(Hb & Hm & Hp) | (Hb & Hm & Hp)].
    { rewrite Hb, Hm, Hp. auto. }
    destruct (enumeratePairs_members _ _ _ Hin) as [Hei Hej].
    assert (Hup : (maxSimilarity s <= maxSimilarity s')%Q
                  /\ (pairCosine cosine (ei, ej) <= maxSimilarity s')%Q).
    { rewrite Hm. destruct (Qgtb _ (maxSimilarity s)) eqn:Hgt.
      - apply Qgtb_true in Hgt. split; [now apply Qlt_le_weak | apply Qle_refl].
      - apply Qgtb_false in Hgt. split; [apply Qle_refl | exact Hgt]. }
    destruct Hup as [Hup1 Hup2].
    split; [rewrite Hb, Hm; now apply trackPair_invariant|].
    split.
    { rewrite Hb. unfold trackPair. cbn [fst snd].
      apply trackBest_keys;
        [exact (in_map (fun e => id (entryComponent e)) _ _ Hej)|].
      apply trackBest_keys;
        [exact (in_map (fun e => id (entryComponent e)) _ _ Hei) | exact Hkeys]. }
    intros p Hp'.
    assert (Hold : In p (pairs s) ->
                   exists q, similarity p = round4 q /\ (q <= maxSimilarity s')%Q).
    { intros H. destruct (Hpairs p H) as (q & Hq1 & Hq2).
      exists q. split; [exact Hq1 | eapply Qle_trans; eassumption]. }
    destruct Hp as [Hp | (q & Hp & Hq)]; rewrite Hp in Hp'; [now apply Hold|].
    apply in_app_iff in Hp'. destruct Hp' as [H | [<-|[]]]; [now apply Hold|].
    eexists. split; [exact Hq | exact Hup2].
  - simpl. split; [|split].
    + split; [constructor|]. split; [apply Qle_refl|]. split; [intros kv []|].
      left. split; reflexivity.
    + intros x [].
    + intros p [].
Qed.

(** X4: the scorecard is consistent with itself and with the report: the
    largest per-unit best similarity equals the overall maximum similarity,
    the smallest per-unit best is not above the largest, the number of covered
    units is at most the number of entries, and no reported pair carries a
    similarity above the scorecard's maximum. *)
Theorem scorecard_is_consistent (entries : list (entry vec)) (cfg : config)
  (reported : list reportedPair) (sc : scorecard) :
  findSimilarities cosine getI18n entries cfg = Ok (reported, sc) ->
  (maxBestSimilarity sc == scMaxSimilarity sc)%Q
  /\ (minBestSimilarity sc <= maxBestSimilarity sc)%Q
  /\ (0 <= scMaxSimilarity sc)%Q
  /\ (coveredComponents sc <= List.length entries)%nat
  /\ forall p, In p reported -> (similarity p <= scMaxSimilarity sc)%Q.
Proof.
  intros Hrun. unfold findSimilarities in Hrun.
  destruct (outerLoop cosine getI18n entries cfg initialState) as [st|err] eqn:Hloop;
    simpl in Hrun; [|discriminate].
  inversion Hrun; subst; clear Hrun.
  destruct (outerLoop_score _ _ Hloop)
    as ((Hnd & Hpos & Hval & Hmax) & Hkeys & Hpairs).
  unfold buildScorecard;
    cbn [maxBestSimilarity minBestSimilarity scMaxSimilarity coveredComponents].
  assert (Hzero : (0 <= round4 (maxSimilarity st))%Q).
  { pose proof (@round4_mono 0 _ Hpos) as H.
    eapply Qle_trans; [|exact H]. vm_compute. discriminate. }
  assert (Hbest :
    (match map snd (bestByComponent st) with
     | [] => 0
     | v :: vs => round4 (Qmaximum v vs)
     end == round4 (maxSimilarity st))%Q
    /\ (match map snd (bestByComponent st) with
        | [] => 0
        | v :: vs => round4 (Qminimum v vs)
        end
        <= match map snd (bestByComponent st) with
           | [] => 0
           | v :: vs => round4 (Qmaximum v vs)
           end)%Q).
  { destruct (bestByComponent st) as [|[k v] rest] eqn:Hb.
    - simpl. destruct Hmax as [[_ ->] | (k & [])].
      split; [reflexivity | apply Qle_refl].
    - cbn [map snd].
      destruct (Qmaximum_spec (map snd rest) v) as [Hin Hub].
      destruct (Qminimum_spec (map snd rest) v) as [Hin' Hlb].
      split.
      + destruct Hmax as [[H _] | (k' & Hk')]; [discriminate|].
        assert (Hmem : In (maxSimilarity st) (v :: map snd rest)).
        { change (v :: map snd rest) with (map snd ((k, v) :: rest)).
          apply in_map_iff. exists (k', maxSimilarity st). split; [reflexivity|exact Hk']. }
        assert (Hle : (Qmaximum v (map snd rest) <= maxSimilarity st)%Q).
        { change (v :: map snd rest) with (map snd ((k, v) :: rest)) in Hin.
          apply in_map_iff in Hin. destruct Hin as (kv & <- & Hkv).
          exact (proj2 (Hval _ Hkv)). }
        rewrite (@round4_compat (Qmaximum v (map snd rest)) (maxSimilarity st));
          [reflexivity|].
        apply Qle_antisym; [exact Hle | now apply Hub].
      + apply round4_mono. apply Hlb. exact Hin. }
  destruct Hbest as [Hb1 Hb2].
  split; [exact Hb1|]. split; [exact Hb2|]. split; [exact Hzero|]. split.
  - rewrite length_map.
    rewrite <- (length_map fst (bestByComponent st)).
    rewrite <- (length_map (fun e => id (entryComponent e)) entries).
    apply NoDup_incl_length; assumption.
  - intros p Hp. apply limitMatches_In in Hp.
    destruct (Hpairs p Hp) as (s & -> & Hs). now apply round4_mono.
Qed.
End ScorecardFacts.

Lemma scorecard_is_consistent_witness :
  exists reported sc,
    findSimilarities Sample.dot Sample.hintsOf [Sample.entryA; Sample.entryB]
      (Sample.settings (3 # 10) None None None) = Ok (reported, sc)
    /\ (maxBestSimilarity sc == scMaxSimilarity sc)%Q.
Proof.
  eassert (Hrun : findSimilarities Sample.dot Sample.hintsOf
                    [Sample.entryA; Sample.entryB]
                    (Sample.settings (3 # 10) None None None) = Ok (_, _))
    by (vm_compute; reflexivity).
  do 2 eexists. split; [exact Hrun|].
  exact (proj1 (@scorecard_is_consistent _ _ _ _ _ _ _ Hrun)).
Defined.

(* ------------------------------------------------------------------ *)
(** ** Every pair that passes the gates is reported *)

Section CompletenessFacts.
Variable vec : Type.
Variable cosine : vec -> vec -> Q.
Variable getI18n : option string -> messages.

Lemma enumeratePairs_of_indices (es : list (entry vec)) :
  forall i j ei ej,
    (i < j)%nat -> nth_error es i = Some ei -> nth_error es j = Some ej ->
    In (ei, ej) (enumeratePairs es).
Proof.
  induction es as [|e rest IH]; intros i j ei ej Hlt Hi Hj.
  - destruct i; discriminate.
  - simpl. apply in_app_iff. destruct j as [|j]; [lia|]. simpl in Hj.
    destruct i as [|i]; simpl in Hi.
    + inversion Hi; subst. left. apply in_map. eapply nth_error_In; exact Hj.
    + right. apply (IH i j); [lia | assumption | assumption].
Qed.

Lemma compareEntries_reports (cfg : config) (ei ej : entry vec) (st st' : loopState) :
  compared cfg (ei, ej) = true ->
  (similarityThreshold cfg <= cosine (vector ei) (vector ej))%Q ->
  (cosine (vector ei) (vector ej) - maxThreshold cfg <= epsilon)%Q ->
  shouldSkipByPath (filePath (entryComponent ei)) (filePath (entryComponent ej)) cfg
  = false ->
  suppressPair ei ej = None ->
  compareEntries cosine getI18n cfg ei ej st = Ok st' ->
  exists lh,
    labelPair cosine getI18n ei ej (cosine (vector ei) (vector ej)) cfg = Ok lh
    /\ pairs st' = (pairs st ++ [reportOf cosine cfg ei ej lh])%list.
Proof.
  unfold compared, compareEntries. cbn [fst snd].
  intros Hcmp Hthr Hmax Hpath Hsup.
  apply negb_true_iff in Hcmp. rewrite Hcmp.
  apply Qltb_false in Hthr. apply Qgtb_false in Hmax.
  rewrite Hthr, Hmax, Hpath, Hsup.
  destruct (labelPair cosine getI18n ei ej _ cfg) as [lh|err]; simpl;
    [|discriminate].
  intros H; inversion H; subst. exists lh. split; reflexivity.
Qed.

Lemma loop_reports (cfg : config) (ps : list (entry vec * entry vec)) :
  forall st st',
    foldM (fun st p => compareEntries cosine getI18n cfg (fst p) (snd p) st) ps st
    = Ok st' ->
    incl (pairs st) (pairs st')
    /\ forall ei ej,
         In (ei, ej) ps ->
         compared cfg (ei, ej) = true ->
         (similarityThreshold cfg <= cosine (vector ei) (vector ej))%Q ->
         (cosine (vector ei) (vector ej) - maxThreshold cfg <= epsilon)%Q ->
         shouldSkipByPath (filePath (entryComponent ei))
           (filePath (entryComponent ej)) cfg = false ->
         suppressPair ei ej = None ->
         exists lh,
           labelPair cosine getI18n ei ej (cosine (vector ei) (vector ej)) cfg = Ok lh
           /\ In (reportOf cosine cfg ei ej lh) (pairs st').
Proof.
  induction ps as [|[e1 e2] ps IH]; intros st st' Hrun; simpl in Hrun.
  - inversion Hrun; subst. split; [apply incl_refl | intros ei ej []].
  - destruct (compareEntries cosine getI18n cfg e1 e2 st) as [st1|err] eqn:Hstep;
      simpl in Hrun; [|discriminate].
    destruct (IH st1 st' Hrun) as [Hincl Hall].
    assert (Hgrow : incl (pairs st) (pairs st1)).
    { destruct (@compareEntries_pairs _ _ _ _ _ _ _ _ Hstep) as [-> | (p & -> & _)];
        [apply incl_refl | apply incl_appl, incl_refl]. }
    split; [eapply incl_tran; eassumption|].
    intros ei ej [Heq | Hin] Hcmp Hthr Hmax Hpath Hsup; [|now apply Hall].
    inversion Heq; subst e1 e2.
    destruct (@compareEntries_reports _ _ _ _ _ Hcmp Hthr Hmax Hpath Hsup Hstep)
      as (lh & Hlabel & Hpush).
    exists lh. split; [exact Hlabel|]. apply Hincl. rewrite Hpush.
    apply in_app_iff. right. now left.
Qed.

(** X5: without a per-unit limit the report is complete: when
    [findSimilarities] returns, every pair of entries at positions [i < j]
    that passes the compare-mode filter, has a cosine of at least
    [similarityThreshold] (equality included) and at most one epsilon above the
    ceiling, is not skipped by the path gate and is not suppressed, is in the
    report, with the rounded cosine, the category decided by
    [highSimilarityThreshold] and the labels and hints of [labelPair]. *)
Theorem findSimilarities_reports_every_accepted_pair (entries : list (entry vec))
  (cfg : config) (reported : list reportedPair) (sc : scorecard)
  (i j : nat) (ei ej : entry vec) :
  findSimilarities cosine getI18n entries cfg = Ok (reported, sc) ->
  limit cfg = None ->
  (i < j)%nat -> nth_error entries i = Some ei -> nth_error entries j = Some ej ->
  compared cfg (ei, ej) = true ->
  (similarityThreshold cfg <= cosine (vector ei) (vector ej))%Q ->
  (cosine (vector ei) (vector ej) - maxThreshold cfg <= epsilon)%Q ->
  shouldSkipByPath (filePath (entryComponent ei)) (filePath (entryComponent ej)) cfg
  = false ->
  suppressPair ei ej = None ->
  exists p,
    In p reported
    /\ a p = id (entryComponent ei)
    /\ b p = id (entryComponent ej)
    /\ similarity p = round4 (cosine (vector ei) (vector ej))
    /\ category p
       = (if Qgeb (cosine (vector ei) (vector ej)) (highSimilarityThreshold cfg)
          then "almost-identical" else "near-duplicate")
    /\ labelPair cosine getI18n ei ej (cosine (vector ei) (vector ej)) cfg
       = Ok (labels p, hints p).
Proof.
  intros Hrun Hlimit Hlt Hi Hj Hcmp Hthr Hmax Hpath Hsup.
  unfold findSimilarities in Hrun.
  destruct (outerLoop cosine getI18n entries cfg initialState) as [st|err] eqn:Hloop;
    simpl in Hrun; [|discriminate].
  inversion Hrun; subst; clear Hrun.
  rewrite outerLoop_refines in Hloop.
  destruct (@loop_reports _ _ _ _ Hloop) as [_ Hall].
  destruct (Hall ei ej (@enumeratePairs_of_indices _ _ _ _ _ Hlt Hi Hj)
              Hcmp Hthr Hmax Hpath Hsup)
    as (lh & Hlabel & Hin).
  exists (reportOf cosine cfg ei ej lh).
  split.
  { rewrite Hlimit. unfold limitMatches. now apply sortDesc_In. }
  unfold reportOf; cbn [a b similarity category labels hints].
  repeat (split; [reflexivity|]). rewrite Hlabel. now destruct lh.
Qed.
End CompletenessFacts.

Lemma findSimilarities_reports_every_accepted_pair_witness :
  exists reported sc p,
    findSimilarities Sample.dot Sample.hintsOf [Sample.entryA; Sample.entryB]
      (Sample.settings (3 # 10) None None None) = Ok (reported, sc)
    /\ In p reported /\ a p = id Sample.unitA /\ b p = id Sample.unitB.
Proof.
  eassert (Hrun : findSimilarities Sample.dot Sample.hintsOf
                    [Sample.entryA; Sample.entryB]
                    (Sample.settings (3 # 10) None None None) = Ok (_, _))
    by (vm_compute; reflexivity).
  destruct (@findSimilarities_reports_every_accepted_pair _ Sample.dot Sample.hintsOf
              _ _ _ _ 0%nat 1%nat Sample.entryA Sample.entryB Hrun)
    as (p & Hin & Ha & Hb & _);
    try reflexivity; try lia; try (apply Qle_bool_iff; vm_compute; reflexivity).
  do 3 eexists. split; [exact Hrun|]. split; [exact Hin|]. split; assumption.
Defined.

(* ------------------------------------------------------------------ *)
(** ** Token overlap *)

Lemma dedupeInto_spec (l : list string) :
  forall seen,
    NoDup seen ->
    NoDup (dedupeInto seen l)
    /\ forall x, In x (dedupeInto seen l) <-> In x seen \/ In x l.
Proof.
  induction l as [|y l IH]; intros seen Hnd; simpl.
  - split; [exact Hnd | intros x; tauto].
  - destruct (mem y seen) eqn:Hmem.
    + destruct (IH seen Hnd) as [H1 H2]. split; [exact H1|].
      intros x. rewrite H2. apply mem_In in Hmem.
      split; [tauto|]. intros [H|[<-|H]]; auto.
    + assert (Hnd' : NoDup (seen ++ [y])).
      { apply NoDup_app; [exact Hnd | repeat constructor; simpl; tauto|].
        intros x Hx [<-|[]]. apply mem_In in Hx. congruence. }
      destruct (IH _ Hnd') as [H1 H2]. split; [exact H1|].
      intros x. rewrite H2, in_app_iff. simpl. tauto.
Qed.

Lemma dedupe_NoDup (l : list string) : NoDup (dedupe l).
Proof. exact (proj1 (dedupeInto_spec l (NoDup_nil _))). Qed.

Lemma dedupe_In (l : list string) (x : string) : In x (dedupe l) <-> In x l.
Proof.
  unfold dedupe. rewrite (proj2 (dedupeInto_spec l (NoDup_nil _))). simpl. tauto.
Qed.

Lemma dedupe_nonempty (l : list string) : l <> [] -> dedupe l <> [].
Proof.
  destruct l as [|x l]; [contradiction|]. intros _ H.
  assert (Hin : In x (dedupe (x :: l))) by (apply dedupe_In; now left).
  rewrite H in Hin. exact Hin.
Qed.

(** the number of common elements does not depend on the side counted from *)
Lemma common_count_sym (sa sb : list string) :
  NoDup sa -> NoDup sb ->
  List.length (filter (fun item => mem item sb) sa)
  = List.length (filter (fun item => mem item sa) sb).
Proof.
  intros Ha Hb. apply Permutation_length. apply NoDup_Permutation.
  - now apply NoDup_filter.
  - now apply NoDup_filter.
  - intros x. rewrite !filter_In, !mem_In. tauto.
Qed.

Lemma same_elements_length (sa sb : list string) :
  NoDup sa -> NoDup sb -> (forall x, In x sa <-> In x sb) ->
  List.length sa = List.length sb.
Proof.
  intros Ha Hb Hsame. apply Permutation_length. now apply NoDup_Permutation.
Qed.

Lemma Qnat_pos (n : nat) : (0 < n)%nat -> (0 < Qnat n)%Q.
Proof. intros H. change 0%Q with (Qnat 0). now apply Qnat_lt. Qed.

Lemma Qnat_ratio_range (m n : nat) :
  (0 < n)%nat -> (m <= n)%nat -> (0 <= Qnat m / Qnat n <= 1)%Q.
Proof.
  intros Hn Hm. pose proof (Qnat_pos Hn) as Hpos. split.
  - apply Qle_shift_div_l; [exact Hpos|]. rewrite Qmult_0_l.
    change 0%Q with (Qnat 0). apply Qnat_le. lia.
  - apply Qle_shift_div_r; [exact Hpos|]. rewrite Qmult_1_l. now apply Qnat_le.
Qed.

(** X6: on two lists that are present, [overlap] returns a number between 0
    and 1 that does not depend on the order of its arguments; it is 0 when
    either list is empty or the lists share no element, and 1 when the two
    non-empty lists hold the same elements (in any order, with any
    repetitions). *)
Theorem overlap_is_a_symmetric_ratio (la lb : list string) :
  exists q,
    overlap (Some la) (Some lb) = Ok q
    /\ overlap (Some lb) (Some la) = Ok q
    /\ (0 <= q <= 1)%Q
    /\ ((forall x, In x la -> ~ In x lb) -> (q == 0)%Q)
    /\ (la <> [] -> (forall x, In x la <-> In x lb) -> (q == 1)%Q).
Proof.
  unfold overlap, deref. cbn [bind].
  destruct la as [|x la'] eqn:Hla.
  { exists 0%Q. cbn [List.length Nat.eqb].
    destruct lb; cbn [List.length Nat.eqb]; repeat split; try reflexivity;
      try (intros; reflexivity); try lra; contradiction. }
  destruct lb as [|y lb'] eqn:Hlb.
  { exists 0%Q. cbn [List.length Nat.eqb]. repeat split; try reflexivity; try lra.
    intros _ Hsame. exfalso. apply (proj1 (Hsame x)). now left. }
  rewrite <- Hla, <- Hlb.
  assert (Hna : la <> []) by (rewrite Hla; discriminate).
  assert (Hnb : lb <> []) by (rewrite Hlb; discriminate).
  replace (List.length la =? 0)%nat with false
    by (rewrite Hla; reflexivity).
  replace (List.length lb =? 0)%nat with false
    by (rewrite Hlb; reflexivity).
  pose proof (dedupe_NoDup la) as Hda. pose proof (dedupe_NoDup lb) as Hdb.
  assert (Hpos : (0 < List.length (dedupe la))%nat).
  { pose proof (dedupe_nonempty Hna). destruct (dedupe la); [contradiction|simpl;lia]. }
  eexists. split; [reflexivity|]. split.
  { rewrite (common_count_sym Hdb Hda), Nat.max_comm. reflexivity. }
  split.
  { apply Qnat_ratio_range; [lia|].
    pose proof (filter_length_le (fun item => mem item (dedupe lb)) (dedupe la)).
    lia. }
  split.
  { intros Hdisj.
    assert (Hnone : filter (fun item => mem item (dedupe lb)) (dedupe la) = []).
    { destruct (filter _ (dedupe la)) as [|z zs] eqn:Hf; [reflexivity|].
      assert (Hz : In z (filter (fun item => mem item (dedupe lb)) (dedupe la)))
        by (rewrite Hf; now left).
      apply filter_In in Hz. destruct Hz as [Hz1 Hz2].
      apply (proj1 (mem_In _ _)) in Hz2.
      apply (proj1 (dedupe_In _ _)) in Hz1. apply (proj1 (dedupe_In _ _)) in Hz2.
      exfalso. exact (Hdisj z Hz1 Hz2). }
    rewrite Hnone. unfold Qdiv. apply Qmult_0_l. }
  intros _ Hsame.
  assert (Hall : filter (fun item => mem item (dedupe lb)) (dedupe la) = dedupe la).
  { apply forallb_filter_id. apply forallb_forall. intros z Hz.
    apply mem_In. apply dedupe_In. apply Hsame. now apply dedupe_In. }
  assert (Hlen : List.length (dedupe la) = List.length (dedupe lb)).
  { apply same_elements_length; try assumption.
    intros z. rewrite !dedupe_In. apply Hsame. }
  rewrite Hall, <- Hlen, Nat.max_id.
  apply Qmult_inv_r. intros H0. pose proof (Qnat_pos Hpos) as Hp.
  rewrite H0 in Hp. exact (Qlt_irrefl _ Hp).
Qed.

Lemma overlap_is_a_symmetric_ratio_witness :
  exists q,
    overlap (Some ["toggle"; "fetch"]) (Some ["fetch"; "toggle"; "fetch"]) = Ok q
    /\ (q == 1)%Q.
Proof.
  destruct (overlap_is_a_symmetric_ratio ["toggle"; "fetch"] ["fetch"; "toggle"; "fetch"])
    as (q & Hq & _ & _ & _ & Hone).
  exists q. split; [exact Hq|]. apply Hone; [discriminate|].
  intros x. simpl. tauto.
Defined.

(* ------------------------------------------------------------------ *)
(** ** The shape of a label list *)

Section LabelShapeFacts.
Variable vec : Type.
Variable cosine : vec -> vec -> Q.
Variable getI18n : option string -> messages.

Ltac enabled_check :=
  intros l Hin;
  unfold wrapperCheck, styleCheck, logicCheck, copyCheck, propCheck in Hin;
  match type of Hin with
  | context [isDisabled ?c ?s] => destruct (isDisabled c s) eqn:?
  end; [simpl in Hin; contradiction |];
  repeat match type of Hin with
         | context [if ?c then _ else _] =>
             match type of c with bool => destruct c end
         end;
  simpl in Hin; try contradiction; destruct Hin as [<-|[]]; assumption.

Lemma wrapperCheck_enabled (ctx : context vec) :
  forall l, In l (labelsOf (wrapperCheck ctx)) -> isDisabled (ctxConfig ctx) l = false.
Proof. enabled_check. Qed.

Lemma styleCheck_enabled (ctx : context vec) :
  forall l, In l (labelsOf (styleCheck ctx)) -> isDisabled (ctxConfig ctx) l = false.
Proof. enabled_check. Qed.

Lemma logicCheck_enabled (ctx : context vec) :
  forall l, In l (labelsOf (logicCheck ctx)) -> isDisabled (ctxConfig ctx) l = false.
Proof. enabled_check. Qed.

Lemma copyCheck_enabled (ctx : context vec) :
  forall l, In l (labelsOf (copyCheck ctx)) -> isDisabled (ctxConfig ctx) l = false.
Proof. enabled_check. Qed.

Lemma propCheck_enabled (ctx : context vec) :
  forall l, In l (labelsOf (propCheck ctx)) -> isDisabled (ctxConfig ctx) l = false.
Proof. enabled_check. Qed.

Lemma forkCheck_enabled (ctx : context vec) (soFar : list string) :
  forall l, In l (labelsOf (forkCheck ctx soFar)) -> isDisabled (ctxConfig ctx) l = false.
Proof.
  intros l Hin. unfold forkCheck in Hin.
  destruct (isDisabled (ctxConfig ctx) "forked-clone") eqn:Hd;
    [simpl in Hin; contradiction|].
  destruct (_ && _); simpl in Hin; try contradiction.
  destruct Hin as [<-|[]]; exact Hd.
Qed.

Lemma runCheck_hints (acc : list string * list string) (r : checkResult) :
  (List.length (snd acc) <= List.length (fst acc))%nat ->
  (List.length (snd (runCheck acc r)) <= List.length (fst (runCheck acc r)))%nat.
Proof.
  intros H. destruct r as [[label hint]|]; simpl; [|exact H].
  rewrite length_app. destruct (String.eqb hint ""); [simpl; lia|].
  rewrite length_app. simpl. lia.
Qed.

(** X7: the labels of a pair are a selection from the six labels in their
    fixed order, each at most once; a label whose analysis is disabled is never
    among them; and there are never more hints than labels. *)
Theorem labelPair_labels_are_well_formed (ea eb : entry vec) (sim : Q) (cfg : config)
  (labels hints : list string) :
  labelPair cosine getI18n ea eb sim cfg = Ok (labels, hints) ->
  labels = filter (fun l => mem l labels) allLabels
  /\ NoDup labels
  /\ (forall l, isDisabled cfg l = true -> ~ In l labels)
  /\ (List.length hints <= List.length labels)%nat.
Proof.
  intros Hrun.
  destruct (@labelPair_labels _ _ _ _ _ _ _ _ _ Hrun) as (ctx & Hctx & Hlabels).
  destruct (@buildContext_fields _ _ _ _ _ _ _ _ Hctx) as (_ & Hcfg & _).
  assert (Hshape : labels = filter (fun l => mem l labels) allLabels).
  { rewrite Hlabels. unfold earlierLabels.
    destruct (wrapperCheck_label ctx) as [-> | ->],
             (styleCheck_label ctx) as [-> | ->],
             (logicCheck_label ctx) as [-> | ->],
             (copyCheck_label ctx) as [-> | ->],
             (propCheck_label ctx) as [-> | ->];
      match goal with
      | |- context [forkCheck ctx ?l] =>
          destruct (forkCheck_label ctx l) as [-> | ->]
      end; reflexivity. }
  split; [exact Hshape|]. split.
  { rewrite Hshape. apply NoDup_filter. unfold allLabels.
    repeat constructor; simpl; intuition discriminate. }
  split.
  { intros l Hd Hin. rewrite Hlabels in Hin. unfold earlierLabels in Hin.
    rewrite !in_app_iff in Hin. rewrite <- Hcfg in Hd.
    assert (Hen : isDisabled (ctxConfig ctx) l = false).
    { destruct Hin as [[H|[H|[H|[H|H]]]]|H];
        eauto using wrapperCheck_enabled, styleCheck_enabled, logicCheck_enabled,
          copyCheck_enabled, propCheck_enabled, forkCheck_enabled. }
    congruence. }
  unfold labelPair in Hrun. rewrite Hctx in Hrun. cbn [bind] in Hrun.
  match type of Hrun with
  | Ok ?acc = _ =>
      assert (Hlen : (List.length (snd acc) <= List.length (fst acc))%nat)
        by (repeat apply runCheck_hints; simpl; lia);
      assert (Hacc : acc = (labels, hints)) by congruence
  end.
  rewrite Hacc in Hlen. exact Hlen.
Qed.
End LabelShapeFacts.

Lemma labelPair_labels_are_well_formed_witness :
  labelPair Sample.dot Sample.hintsOf (Sample.entryOf Sample.longUnit [1; 0]%Q)
    (Sample.entryOf Sample.shortUnit [1; 0]%Q) (85 # 100)
    (Sample.testConfig ["logic-duplicate"; "copy-paste-variant"; "prop-parameterizable"])
  = Ok (["forked-clone"], ["fork"])
  /\ NoDup ["forked-clone"]
  /\ ~ In "logic-duplicate" ["forked-clone"].
Proof.
  assert (Hrun :
            labelPair Sample.dot Sample.hintsOf (Sample.entryOf Sample.longUnit [1; 0]%Q)
              (Sample.entryOf Sample.shortUnit [1; 0]%Q) (85 # 100)
              (Sample.testConfig
                 ["logic-duplicate"; "copy-paste-variant"; "prop-parameterizable"])
            = Ok (["forked-clone"], ["fork"])) by reflexivity.
  destruct (@labelPair_labels_are_well_formed _ _ _ _ _ _ _ _ _ Hrun)
    as (_ & Hnd & Hoff & _).
  split; [exact Hrun|]. split; [exact Hnd|].
  apply Hoff. reflexivity.
Defined.

(* ------------------------------------------------------------------ *)
(** ** The path distance does not depend on the order of the pair *)

Lemma walkFromEnd_sym (ra rb : list string) (depth : nat) :
  walkFromEnd ra rb depth = walkFromEnd rb ra depth.
Proof.
  revert rb depth. induction ra as [|x ra IH]; intros [|y rb] depth; simpl;
    try reflexivity.
  rewrite (String.eqb_sym y x). destruct (String.eqb x y); [apply IH | reflexivity].
Qed.

Lemma walkFromEnd_bound (ra rb : list string) (depth : nat) :
  (walkFromEnd ra rb depth <= depth + Nat.min (List.length ra) (List.length rb))%nat.
Proof.
  revert rb depth. induction ra as [|x ra IH]; intros [|y rb] depth; simpl;
    try lia.
  destruct (String.eqb x y); [|lia].
  specialize (IH rb (S depth)). lia.
Qed.

(** X8: the distance between two paths is the same in both orders and is at
    most one more than the number of directories of the shallower path, so the
    path gate treats a pair the same whichever unit comes first. *)
Theorem pathDistance_symmetric_and_bounded (pathA pathB : option string) (cfg : config) :
  pathDistance pathA pathB = pathDistance pathB pathA
  /\ (pathDistance pathA pathB
      <= Nat.min (List.length (splitDirs pathA)) (List.length (splitDirs pathB)) + 1)%nat
  /\ shouldSkipByPath pathA pathB cfg = shouldSkipByPath pathB pathA cfg.
Proof.
  assert (Hsym : pathDistance pathA pathB = pathDistance pathB pathA).
  { rewrite !pathDistance_walk. apply walkFromEnd_sym. }
  split; [exact Hsym|]. split.
  - rewrite pathDistance_walk.
    pose proof (walkFromEnd_bound (rev (splitDirs pathA)) (rev (splitDirs pathB)) 1) as H.
    rewrite !length_rev in H. lia.
  - unfold shouldSkipByPath. rewrite Hsym. reflexivity.
Qed.

(* ------------------------------------------------------------------ *)
(** ** The embedding loop and a warm cache *)

Lemma string_app_inv_head (s t r : string) : s ++ t = s ++ r -> t = r.
Proof.
  induction s as [|ch s IH]; simpl; intros H; [exact H|].
  inversion H. auto.
Qed.

Lemma buildCacheKey_injective (modelKey id1 id2 : string) :
  Cache.buildCacheKey modelKey id1 = Cache.buildCacheKey modelKey id2 -> id1 = id2.
Proof.
  unfold Cache.buildCacheKey. intros H.
  apply string_app_inv_head in H. apply string_app_inv_head in H. exact H.
Qed.

Lemma cacheGet_cacheSet_same (m : list (string * Embedding.cacheEntry)) (k : string)
  (e : Embedding.cacheEntry) :
  Embedding.cacheGet (Embedding.cacheSet m k e) k = Some e.
Proof.
  induction m as [|[k' e'] m IH]; simpl.
  - now rewrite String.eqb_refl.
  - destruct (String.eqb k' k) eqn:Hk; simpl.
    + now rewrite String.eqb_refl.
    + now rewrite Hk.
Qed.

Lemma cacheGet_cacheSet_other (m : list (string * Embedding.cacheEntry)) (k k' : string)
  (e : Embedding.cacheEntry) :
  k <> k' ->
  Embedding.cacheGet (Embedding.cacheSet m k e) k' = Embedding.cacheGet m k'.
Proof.
  intros Hne. induction m as [|[k0 e0] m IH]; simpl.
  - destruct (String.eqb_spec k k'); [contradiction | reflexivity].
  - destruct (String.eqb_spec k0 k) as [->|Hk0]; simpl.
    + destruct (String.eqb_spec k k'); [contradiction | reflexivity].
    + destruct (String.eqb k0 k'); [reflexivity | exact IH].
Qed.

Lemma cacheSet_same_entry (m : list (string * Embedding.cacheEntry)) (k : string)
  (e : Embedding.cacheEntry) :
  Embedding.cacheGet m k = Some e -> Embedding.cacheSet m k e = m.
Proof.
  induction m as [|[k' e'] m IH]; simpl; [discriminate|].
  destruct (String.eqb_spec k' k) as [->|Hk]; intros H.
  - inversion H; reflexivity.
  - now rewrite IH.
Qed.

Section WarmCacheFacts.
Import Embedding.
Variable loadStyles : component -> styles.
Variable buildRepresentation : component -> option string -> representationT.
Variable embed : string -> result rvec.
Variable modelId : string.
Variable weight : weightT.

Local Abbreviation step1 :=
  (embedComponent loadStyles buildRepresentation embed modelId weight).
Local Abbreviation loop1 :=
  (embedLoop loadStyles buildRepresentation embed modelId weight).
Local Abbreviation fpOf c :=
  (Cache.fingerprintRepresentation
     (Some (codeRep (buildRepresentation c (lsStyleText (loadStyles c)))))
     (Some (styleRep (buildRepresentation c (lsStyleText (loadStyles c)))))
     (lsStyleText (loadStyles c))
     (Some (structureRep (buildRepresentation c (lsStyleText (loadStyles c)))))
     (Some (holisticRep (buildRepresentation c (lsStyleText (loadStyles c)))))).
Local Abbreviation keyOf c := (Cache.buildCacheKey modelId (id c)).

Lemma orEmbed_effect (slot : option rvec) (text : string) (d d' : bool)
  (log log' : list string) (v : rvec) :
  orEmbed embed slot text d log = Ok (v, d', log') ->
  exists calls,
    log' = (log ++ calls)%list
    /\ (calls <> [] -> d' = true)
    /\ (d = true -> d' = true)
    /\ (forall w, slot = Some w -> v = w /\ calls = [] /\ d' = d).
Proof.
  unfold orEmbed. destruct slot as [w|].
  - intros H. inversion H; subst. exists []. rewrite app_nil_r.
    split; [reflexivity|]. split; [congruence|]. split; [auto|].
    intros w' Hw. inversion Hw. auto.
  - destruct (embed text) as [v'|]; cbn [bind]; [|discriminate].
    intros H. inversion H; subst. exists [text].
    split; [reflexivity|]. split; [reflexivity|]. split; [reflexivity|].
    discriminate.
Qed.

(** what one iteration leaves behind, and what it does when it finds its own
    record in the cache *)
Lemma embedComponent_shape (st st' : embedState) (c : component) :
  step1 st c = Ok st' ->
  exists e calls,
    produced st' = (produced st ++ [e])%list
    /\ entryComponent e = c
    /\ cache st' = cacheSet (cache st) (keyOf c) (storedEntry (fpOf c) e)
    /\ embedCalls st' = (embedCalls st ++ calls)%list
    /\ (calls <> [] -> dirty st' = true)
    /\ (dirty st = true -> dirty st' = true)
    /\ (hits (stats st') + misses (stats st')
        = hits (stats st) + misses (stats st) + 1)%nat
    /\ (exists ids,
          uncached (stats st') = (uncached (stats st) ++ ids)%list
          /\ (List.length ids + misses (stats st) = misses (stats st'))%nat
          /\ incl ids [id c])
    /\ forall s,
         cacheGet (cache s) (keyOf c) = Some (storedEntry (fpOf c) e) ->
         step1 s c
         = Ok {| cache := cache s;
                 dirty := dirty s;
                 stats :=
                   if completeVectors e
                   then {| hits := hits (stats s) + 1;
                           misses := misses (stats s);
                           uncached := uncached (stats s) |}
                   else {| hits := hits (stats s);
                           misses := misses (stats s) + 1;
                           uncached := (uncached (stats s) ++ [id c])%list |};
                 produced := (produced s ++ [e])%list;
                 embedCalls := embedCalls s |}.
Proof.
  unfold embedComponent. cbv zeta.
  set (ls := loadStyles c). set (rep := buildRepresentation c (lsStyleText ls)).
  set (fp := Cache.fingerprintRepresentation _ _ _ _ _).
  set (key := Cache.buildCacheKey modelId (id c)).
  destruct (match cacheGet (cache st) key with
            | Some e => _
            | None => _
            end) as [[[code0 style0] structure0] holistic0].
  clearbody fp key. intros Hrun.
  destruct (orEmbed embed code0 (codeRep rep) (dirty st) (embedCalls st))
    as [[[vc d1] l1]|] eqn:H1; cbn [bind] in Hrun; [|discriminate].
  destruct (match style0 with
            | Some v => _
            | None => _
            end) as [[[vs d2] l2]|] eqn:H2; cbn [bind] in Hrun; [|discriminate].
  destruct (orEmbed embed structure0 (structureRep rep) d2 l2)
    as [[[vt d3] l3]|] eqn:H3; cbn [bind] in Hrun; [|discriminate].
  destruct (orEmbed embed holistic0 (holisticRep rep) d3 l3)
    as [[[vh d4] l4]|] eqn:H4; cbn [bind] in Hrun; [|discriminate].
  apply orEmbed_effect in H1, H3, H4.
  destruct H1 as (c1 & -> & Hd1 & Hm1 & _), H3 as (c3 & -> & Hd3 & Hm3 & _),
           H4 as (c4 & -> & Hd4 & Hm4 & _).
  assert (Hstyle : exists c2, l2 = ((embedCalls st ++ c1) ++ c2)%list
                              /\ (c2 <> [] -> d2 = true) /\ (d1 = true -> d2 = true)).
  { destruct style0 as [v|].
    - inversion H2; subst. exists []. rewrite app_nil_r. repeat split; congruence.
    - destruct (String.eqb (styleRep rep) "").
      + inversion H2; subst. exists []. rewrite app_nil_r. repeat split; congruence.
      + apply orEmbed_effect in H2. destruct H2 as (c2 & -> & Hd2 & Hm2 & _).
        exists c2. auto. }
  destruct Hstyle as (c2 & -> & Hd2 & Hm2).
  inversion Hrun; subst st'; clear Hrun.
  cbn [produced cache embedCalls dirty stats].
  eexists. exists (c1 ++ c2 ++ c3 ++ c4)%list.
  split; [reflexivity|]. split; [reflexivity|]. split; [reflexivity|].
  split; [now rewrite <- !app_assoc|].
  split.
  { intros Hne. destruct c4 as [|? ?]; [|apply Hd4; discriminate].
    apply Hm4. destruct c3 as [|? ?]; [|apply Hd3; discriminate].
    apply Hm3. destruct c2 as [|? ?]; [|apply Hd2; discriminate].
    apply Hm2. destruct c1 as [|? ?]; [|apply Hd1; discriminate].
    now contradiction Hne. }
  split; [auto|].
  split; [destruct (isCompleteCachedEntry _ _); cbn; lia|].
  split.
  { destruct (isCompleteCachedEntry _ _); cbn.
    - exists []. rewrite app_nil_r.
      split; [reflexivity|]. split; [reflexivity|]. intros ? [].
    - exists [id c].
      split; [reflexivity|]. split; [simpl; lia | apply incl_refl]. }
  intros s Hget. rewrite Hget.
  unfold isCompleteCachedEntry, storedEntry.
  cbn [fingerprint ceCodeVec ceStyleVec ceStructureVec ceHolisticVec ceFilePath
       codeVec styleVec structureVec holisticVec entryComponent].
  rewrite String.eqb_refl. cbn [negb]. rewrite orb_true_r.
  cbn [orEmbed bind].
  rewrite cacheSet_same_entry by exact Hget.
  unfold completeVectors.
  cbn [codeVec styleVec structureVec holisticVec]. reflexivity.
Qed.

Lemma embedLoop_appends (comps : list component) (st st' : embedState) :
  loop1 comps st = Ok st' ->
  exists es, produced st' = (produced st ++ es)%list.
Proof.
  unfold embedLoop. revert st. induction comps as [|c rest IH]; intros st Hrun.
  - inversion Hrun; subst. exists []. now rewrite app_nil_r.
  - cbn [foldM] in Hrun.
    destruct (step1 st c) as [sa|] eqn:Hstep; cbn [bind] in Hrun; [|discriminate].
    destruct (@embedComponent_shape _ _ _ Hstep) as (e & _ & Hprod & _).
    destruct (IH _ Hrun) as (es & Hes).
    exists (e :: es). rewrite Hes, Hprod, <- app_assoc. reflexivity.
Qed.

(** an iteration leaves the records of other units alone *)
Lemma embedLoop_keeps_other_keys (comps : list component) (st st' : embedState)
  (ident : string) :
  ~ In ident (map id comps) ->
  loop1 comps st = Ok st' ->
  cacheGet (cache st') (Cache.buildCacheKey modelId ident)
  = cacheGet (cache st) (Cache.buildCacheKey modelId ident).
Proof.
  unfold embedLoop. revert st. induction comps as [|c rest IH]; intros st Hnot Hrun.
  - inversion Hrun; subst. reflexivity.
  - cbn [foldM] in Hrun.
    destruct (step1 st c) as [sa|] eqn:Hstep; cbn [bind] in Hrun; [|discriminate].
    destruct (@embedComponent_shape _ _ _ Hstep) as (e & _ & _ & _ & Hcache & _).
    rewrite (IH sa) by (try exact Hrun; intros H; apply Hnot; right; exact H).
    rewrite Hcache. apply cacheGet_cacheSet_other.
    intros Hkey. apply buildCacheKey_injective in Hkey.
    apply Hnot. left. exact Hkey.
Qed.

(** X9: a successful pass of the embedding loop yields one entry per unit,
    in the units' order; every unit is counted once, as a hit or as a miss;
    the units listed as uncached are as many as the misses counted and are
    among the units given; backend calls are only added, and any call marks
    the cache as changed; and every unit has a record in the cache afterwards. *)
Theorem embedLoop_bookkeeping (comps : list component) (st st' : embedState) :
  loop1 comps st = Ok st' ->
  exists es calls ids,
    produced st' = (produced st ++ es)%list
    /\ map (@entryComponent rvec) es = comps
    /\ embedCalls st' = (embedCalls st ++ calls)%list
    /\ (calls <> [] -> dirty st' = true)
    /\ (dirty st = true -> dirty st' = true)
    /\ (hits (stats st') + misses (stats st')
        = hits (stats st) + misses (stats st) + List.length comps)%nat
    /\ uncached (stats st') = (uncached (stats st) ++ ids)%list
    /\ (List.length ids + misses (stats st) = misses (stats st'))%nat
    /\ incl ids (map id comps)
    /\ forall c, In c comps -> cacheGet (cache st') (keyOf c) <> None.
Proof.
  unfold embedLoop. revert st. induction comps as [|c rest IH]; intros st Hrun.
  - inversion Hrun; subst. exists [], [], []. rewrite !app_nil_r.
    split; [reflexivity|]. split; [reflexivity|]. split; [reflexivity|].
    split; [congruence|]. split; [auto|]. split; [simpl; lia|].
    split; [reflexivity|]. split; [reflexivity|].
    split; [apply incl_refl|]. intros c [].
  - cbn [foldM] in Hrun.
    destruct (step1 st c) as [sa|] eqn:Hstep; cbn [bind] in Hrun; [|discriminate].
    destruct (@embedComponent_shape _ _ _ Hstep)
      as (e & calls1 & Hprod & Hcomp & Hcache & Hcalls & Hdirty & Hmono & Hcount
          & (ids1 & Hunc & Hlen & Hincl) & _).
    destruct (IH _ Hrun)
      as (es & calls2 & ids2 & Hprod2 & Hcomp2 & Hcalls2 & Hdirty2 & Hmono2
          & Hcount2 & Hunc2 & Hlen2 & Hincl2 & Hkeys2).
    exists (e :: es), (calls1 ++ calls2)%list, (ids1 ++ ids2)%list.
    split; [rewrite Hprod2, Hprod, <- app_assoc; reflexivity|].
    split; [simpl; now rewrite Hcomp, Hcomp2|].
    split; [rewrite Hcalls2, Hcalls, <- app_assoc; reflexivity|].
    split.
    { intros Hne. destruct calls2 as [|? ?]; [|apply Hdirty2; discriminate].
      apply Hmono2, Hdirty. rewrite app_nil_r in Hne. exact Hne. }
    split; [auto|].
    split; [simpl; lia|].
    split; [rewrite Hunc2, Hunc, <- app_assoc; reflexivity|].
    split; [rewrite length_app; lia|].
    split.
    { apply incl_app.
      - intros x Hx. apply Hincl in Hx. destruct Hx as [<-|[]]. now left.
      - intros x Hx. right. now apply Hincl2. }
    intros c' [<-|Hin]; [|now apply Hkeys2].
    destruct (in_dec string_dec (id c) (map id rest)) as [Hdup|Hfresh].
    + apply in_map_iff in Hdup. destruct Hdup as (c2 & Hid & Hc2).
      rewrite <- Hid. now apply Hkeys2.
    + rewrite (@embedLoop_keeps_other_keys rest sa st' (id c) Hfresh Hrun).
      rewrite Hcache, cacheGet_cacheSet_same. discriminate.
Qed.

(** X10: run the loop again over the same units - with no two sharing an
    identity and their sources and styles unchanged - against the cache the
    first pass left: the backend is not called at all, the cache is left as
    it was and not marked as changed, and the entries produced are those of
    the first pass; if all their vectors are non-empty arrays, every unit is
    counted as a hit. *)
Theorem second_pass_is_served_from_cache (comps : list component)
  (st0 st1 : embedState) (es : list (entry rvec)) :
  NoDup (map id comps) ->
  loop1 comps st0 = Ok st1 ->
  produced st1 = (produced st0 ++ es)%list ->
  forall s,
    cache s = cache st1 ->
    exists s',
      loop1 comps s = Ok s'
      /\ cache s' = cache st1
      /\ embedCalls s' = embedCalls s
      /\ dirty s' = dirty s
      /\ produced s' = (produced s ++ es)%list
      /\ (forallb completeVectors es = true ->
          hits (stats s') = (hits (stats s) + List.length comps)%nat
          /\ misses (stats s') = misses (stats s)
          /\ uncached (stats s') = uncached (stats s)).
Proof.
  unfold embedLoop. revert st0 es.
  induction comps as [|c rest IH]; intros st0 es Hnd Hrun Hes s Hs.
  - inversion Hrun; subst st1.
    assert (es = []) as ->.
    { apply (app_inv_head (produced st0)). now rewrite app_nil_r. }
    exists s. cbn [foldM]. rewrite app_nil_r, Nat.add_0_r. repeat split; auto.
  - cbn [foldM] in Hrun.
    destruct (step1 st0 c) as [sa|] eqn:Hstep; cbn [bind] in Hrun; [|discriminate].
    destruct (@embedComponent_shape _ _ _ Hstep)
      as (e & _ & Hprod & _ & Hcache & _ & _ & _ & _ & _ & Hagain).
    destruct (embedLoop_appends _ _ Hrun) as (es' & Hes').
    assert (es = e :: es') as ->.
    { apply (app_inv_head (produced st0)). rewrite <- Hes, Hes', Hprod, <- app_assoc.
      reflexivity. }
    inversion Hnd as [|? ? Hfresh Hnd']; subst.
    assert (Hget : cacheGet (cache s) (keyOf c) = Some (storedEntry (fpOf c) e)).
    { rewrite Hs, (@embedLoop_keeps_other_keys rest sa st1 (id c) Hfresh Hrun).
      rewrite Hcache. apply cacheGet_cacheSet_same. }
    specialize (Hagain s Hget).
    match type of Hagain with _ = Ok ?x => set (sb := x) in * end.
    destruct (IH sa es' Hnd' Hrun Hes' sb Hs)
      as (s' & Hrun' & Hcache' & Hcalls' & Hdirty' & Hprod' & Hstats').
    exists s'. cbn [foldM]. rewrite Hagain. cbn [bind].
    split; [exact Hrun'|]. split; [exact Hcache'|].
    split; [exact Hcalls'|]. split; [exact Hdirty'|].
    split; [rewrite Hprod'; unfold sb; cbn [produced]; now rewrite <- app_assoc|].
    cbn [forallb]. intros Hall. apply andb_true_iff in Hall.
    destruct Hall as [He Hall]. destruct (Hstats' Hall) as (Hh & Hm & Hu).
    rewrite Hh, Hm, Hu. unfold sb. cbn [stats]. rewrite He.
    cbn [hits misses uncached List.length]. repeat split; lia.
Qed.
End WarmCacheFacts.


Lemma embedLoop_bookkeeping_witness :
  exists st',
    Embedding.embedLoop Sample.styleLoader Sample.representationOf Sample.mockEmbed
      "mock" Sample.noWeight [Sample.unitA; Sample.unitB] Sample.staleState = Ok st'
    /\ map (@entryComponent Embedding.rvec) (Embedding.produced st')
       = [Sample.unitA; Sample.unitB]
    /\ (Embedding.hits (Embedding.stats st') + Embedding.misses (Embedding.stats st')
        = 2)%nat.
Proof.
  destruct (Embedding.embedLoop Sample.styleLoader Sample.representationOf
              Sample.mockEmbed "mock" Sample.noWeight [Sample.unitA; Sample.unitB]
              Sample.staleState) as [st'|err] eqn:Hrun.
  - exists st'. split; [reflexivity|].
    destruct (@embedLoop_bookkeeping _ _ _ _ _ _ _ _ Hrun)
      as (es & calls & ids & Hprod & Hcomp & _ & _ & _ & Hcount & _).
    simpl in Hprod. rewrite Hprod. split; [exact Hcomp | exact Hcount].
  - vm_compute in Hrun. discriminate.
Defined.

Lemma second_pass_is_served_from_cache_witness :
  exists st1 s',
    Embedding.embedLoop Sample.styleLoader Sample.representationOf Sample.mockEmbed
      "mock" Sample.noWeight [Sample.unitA; Sample.unitB] Sample.staleState = Ok st1
    /\ Embedding.embedLoop Sample.styleLoader Sample.representationOf Sample.mockEmbed
         "mock" Sample.noWeight [Sample.unitA; Sample.unitB]
         (startState (Embedding.cache st1)) = Ok s'
    /\ Embedding.embedCalls s' = []
    /\ Embedding.dirty s' = false
    /\ Embedding.hits (Embedding.stats s') = 2%nat.
Proof.
  destruct (Embedding.embedLoop Sample.styleLoader Sample.representationOf
              Sample.mockEmbed "mock" Sample.noWeight [Sample.unitA; Sample.unitB]
              Sample.staleState) as [st1|err] eqn:Hrun.
  - assert (Hnd : NoDup (map id [Sample.unitA; Sample.unitB])).
    { repeat constructor; simpl; intuition discriminate. }
    destruct (@second_pass_is_served_from_cache Sample.styleLoader
                Sample.representationOf Sample.mockEmbed "mock" Sample.noWeight
                _ _ _ (Embedding.produced st1) Hnd Hrun eq_refl
                (startState (Embedding.cache st1)) eq_refl)
      as (s' & Hrun' & _ & Hcalls & Hdirty & Hprod & Hstats).
    exists st1, s'. split; [reflexivity|]. split; [exact Hrun'|].
    split; [exact Hcalls|]. split; [exact Hdirty|].
    apply Hstats.
    vm_compute in Hrun. inversion Hrun. reflexivity.
  - vm_compute in Hrun. discriminate.
Defined.

(* ------------------------------------------------------------------ *)
(** ** Cleaning the cache *)

Section CleaningFacts.
Import Embedding Cleaning.
Variable fsys : Cache.fileSystem.

Lemma cacheDelete_filter (m : list (string * cacheEntry)) (k : string) :
  NoDup (map fst m) ->
  cacheDelete m k = filter (fun kv => negb (String.eqb (fst kv) k)) m.
Proof.
  induction m as [|[k' e] m IH]; simpl; intros Hnd; [reflexivity|].
  inversion Hnd as [|? ? Hfresh Hnd']; subst.
  destruct (String.eqb_spec k' k) as [->|Hne]; simpl.
  - symmetry. apply forallb_filter_id. apply forallb_forall.
    intros [k2 e2] Hin. simpl. apply negb_true_iff, String.eqb_neq.
    intros ->. apply Hfresh. apply in_map_iff. exists (k, e2). auto.
  - now rewrite IH.
Qed.

(** dropping records keeps the keys distinct *)
Lemma filter_keeps_keys_distinct (keep : string * cacheEntry -> bool)
  (m : list (string * cacheEntry)) :
  NoDup (map fst m) -> NoDup (map fst (filter keep m)).
Proof.
  induction m as [|kv m IH]; simpl; intros Hnd; [constructor|].
  inversion Hnd as [|? ? Hfresh Hnd']; subst.
  destruct (keep kv); simpl; [|auto].
  constructor; [|auto].
  intros Hin. apply Hfresh. apply in_map_iff in Hin.
  destruct Hin as (y & Hy & Hin). apply filter_In in Hin.
  apply in_map_iff. exists y. tauto.
Qed.

Lemma filter_twice {A : Type} (p q : A -> bool) (l : list A) :
  filter p (filter q l) = filter (fun x => q x && p x) l.
Proof.
  induction l as [|x l IH]; simpl; [reflexivity|].
  destruct (q x); simpl; [|exact IH].
  destruct (p x); now rewrite IH.
Qed.

(** the loop over the snapshot [xs] deletes from the live object the keys of
    the orphans of [xs] *)
Lemma clean_fold (xs : list (string * cacheEntry)) :
  forall (live : list (string * cacheEntry)) (n : nat),
    NoDup (map fst live) ->
    fold_left (cleanStep fsys) xs (live, n)
    = (filter (fun kv => negb (mem (fst kv) (map fst (filter (isOrphan fsys) xs)))) live,
       (n + List.length (filter (isOrphan fsys) xs))%nat).
Proof.
  induction xs as [|x xs IH]; intros live n Hnd; simpl.
  - rewrite Nat.add_0_r. f_equal. symmetry. apply forallb_filter_id.
    apply forallb_forall. reflexivity.
  - unfold cleanStep at 2. destruct (isOrphan fsys x) eqn:Horphan; cbn [fst snd].
    + rewrite IH by (rewrite cacheDelete_filter by exact Hnd;
                     now apply filter_keeps_keys_distinct).
      rewrite cacheDelete_filter by exact Hnd.
      f_equal.
      * rewrite filter_twice. apply filter_ext. intros kv.
        unfold mem. cbn [map existsb]. rewrite negb_orb. reflexivity.
      * cbn [List.length]. lia.
    + apply IH. exact Hnd.
Qed.

(** X11: the occasional cache clean-up does nothing when the random draw
    exceeds the configured probability; otherwise it removes exactly the
    records whose file path (the stored one, or else the one read off the key)
    is non-empty and no longer exists, keeps the others in their order, and
    returns the number of records it removed. *)
Theorem maybeCleanCache_removes_exactly_the_orphans (random : Q)
  (cleanProbability : option Q) (m : list (string * cacheEntry)) :
  NoDup (map fst m) ->
  let p := match cleanProbability with Some p => p | None => 0%Q end in
  let kept := filter (fun kv => negb (isOrphan fsys kv)) m in
  ((p < random)%Q ->
   maybeCleanCache fsys random cleanProbability (Some m) = (Some m, 0%nat))
  /\ ((random <= p)%Q ->
      maybeCleanCache fsys random cleanProbability (Some m)
      = (Some kept, (List.length m - List.length kept)%nat)
      /\ (forall kv path,
            In kv m -> resolvePath (fst kv) (snd kv) = Some path ->
            Cache.existsSync fsys path = true -> In kv kept)
      /\ (forall kv path,
            In kv kept -> resolvePath (fst kv) (snd kv) = Some path ->
            path <> "" -> Cache.existsSync fsys path = true)).
Proof.
  intros Hnd p kept. unfold maybeCleanCache. fold p. unfold Qgtb. split.
  - intros Hlt. destruct (Qle_bool random p) eqn:Hle; [|reflexivity].
    apply Qle_bool_iff in Hle. exfalso. apply (Qlt_not_le _ _ Hlt Hle).
  - intros Hle. apply Qle_bool_iff in Hle. rewrite Hle. cbn [negb].
    rewrite clean_fold by exact Hnd. split; [|split].
    + f_equal.
      * f_equal. apply filter_ext_in. intros kv Hin. f_equal.
        destruct (isOrphan fsys kv) eqn:Horphan.
        -- apply mem_In, in_map_iff. exists kv. split; [reflexivity|].
           apply filter_In. auto.
        -- destruct (mem (fst kv) _) eqn:Hmem; [|reflexivity].
           apply mem_In, in_map_iff in Hmem.
           destruct Hmem as (kv' & Hkey & Hin'). apply filter_In in Hin'.
           destruct Hin' as [Hin' Horphan'].
           assert (kv' = kv) as ->; [|congruence].
           clear - Hnd Hin Hin' Hkey. induction m as [|x l IH]; [contradiction|].
           simpl in Hnd. inversion Hnd as [|? ? Hfresh Hnd']; subst.
           destruct Hin as [->|Hin], Hin' as [->|Hin']; auto.
           ++ exfalso. apply Hfresh. rewrite <- Hkey. now apply in_map.
           ++ exfalso. apply Hfresh. rewrite Hkey. now apply in_map.
      * unfold kept. pose proof (filter_length (isOrphan fsys) m) as Hlen. lia.
    + intros kv path Hin Hres Hexists. apply filter_In. split; [exact Hin|].
      unfold isOrphan. rewrite Hres, Hexists. now rewrite andb_false_r.
    + intros kv path Hin Hres Hne. apply filter_In in Hin.
      destruct Hin as [_ Hkeep]. unfold isOrphan in Hkeep. rewrite Hres in Hkeep.
      apply String.eqb_neq in Hne. rewrite Hne in Hkeep. cbn in Hkeep.
      now destruct (Cache.existsSync fsys path).
Qed.
End CleaningFacts.


Lemma maybeCleanCache_removes_exactly_the_orphans_witness :
  Cleaning.maybeCleanCache sourceDisk 0 (Some (1 # 100)) (Some [keptRecord; goneRecord])
  = (Some [keptRecord], 1%nat).
Proof.
  assert (Hnd : NoDup (map fst [keptRecord; goneRecord])).
  { repeat constructor; simpl; intuition discriminate. }
  assert (Hdraw : (0 <= 1 # 100)%Q) by (unfold Qle; simpl; lia).
  exact (proj1 (proj2 (@maybeCleanCache_removes_exactly_the_orphans sourceDisk 0
                         (Some (1 # 100)) [keptRecord; goneRecord] Hnd) Hdraw)).
Defined.

(* ------------------------------------------------------------------ *)
(** ** Cache keys and the paths read off them *)

Lemma lastIndexOf_absent (ch : ascii) (s : string) (i : nat) :
  ~ In ch (list_ascii_of_string s) -> Cleaning.lastIndexOf ch s i = None.
Proof.
  revert i. induction s as [|c s IH]; intros i Hnot; simpl; [reflexivity|].
  rewrite IH by (intros H; apply Hnot; right; exact H).
  destruct (Ascii.eqb_spec c ch) as [->|Hne]; [|reflexivity].
  exfalso. apply Hnot. now left.
Qed.

Lemma lastIndexOf_present (ch : ascii) (s : string) (i : nat) :
  In ch (list_ascii_of_string s) -> Cleaning.lastIndexOf ch s i <> None.
Proof.
  revert i. induction s as [|c s IH]; intros i Hin; simpl in *; [contradiction|].
  destruct (Cleaning.lastIndexOf ch s (S i)) eqn:Hrest; [discriminate|].
  destruct Hin as [->|Hin].
  - rewrite Ascii.eqb_refl. discriminate.
  - exfalso. exact (IH (S i) Hin Hrest).
Qed.

Lemma lastIndexOf_last (ch : ascii) (s t : string) (i : nat) :
  ~ In ch (list_ascii_of_string t) ->
  Cleaning.lastIndexOf ch (s ++ String ch t) i = Some (i + String.length s)%nat.
Proof.
  intros Hnot. revert i. induction s as [|c s IH]; intros i; simpl.
  - rewrite lastIndexOf_absent by exact Hnot. rewrite Ascii.eqb_refl.
    now rewrite Nat.add_0_r.
  - rewrite IH. f_equal. lia.
Qed.

Lemma substring_whole (s : string) : substring 0 (String.length s) s = s.
Proof. induction s as [|c s IH]; simpl; [reflexivity | now rewrite IH]. Qed.

Lemma slice_after (s t : string) :
  Cleaning.slice (String.length s) (s ++ t) = t.
Proof.
  unfold Cleaning.slice. induction s as [|c s IH]; simpl.
  - rewrite Nat.sub_0_r. apply substring_whole.
  - exact IH.
Qed.

Lemma firstField_stops (ch : ascii) (s t : string) :
  ~ In ch (list_ascii_of_string s) ->
  Cleaning.firstField ch (s ++ String ch t) = s.
Proof.
  induction s as [|c s IH]; simpl; intros Hnot.
  - now rewrite Ascii.eqb_refl.
  - destruct (Ascii.eqb_spec c ch) as [->|Hne].
    + exfalso. apply Hnot. now left.
    + rewrite IH; [reflexivity|]. intros H. apply Hnot. now right.
Qed.

Lemma firstField_free (ch : ascii) (s : string) :
  ~ In ch (list_ascii_of_string (Cleaning.firstField ch s)).
Proof.
  induction s as [|c s IH]; simpl; [tauto|].
  destruct (Ascii.eqb_spec c ch) as [->|Hne]; simpl; [tauto|].
  intros [H|H]; [contradiction | exact (IH H)].
Qed.

Lemma string_length_app (s t : string) :
  String.length (s ++ t) = (String.length s + String.length t)%nat.
Proof. induction s as [|c s IH]; simpl; [reflexivity | now rewrite IH]. Qed.

(** X12: the path read off a cache key is the part after the key's last
    colon, up to the first hash; there is none exactly when the key has no
    colon. For the key built from any model key and an identity of the form
    path, hash, name it is the path again - provided the path has neither
    character and the name has no colon. *)
Theorem extractFilePathFromCacheKey_inverts_buildCacheKey (modelKey path name : string) :
  ~ In ":"%char (list_ascii_of_string path) ->
  ~ In "#"%char (list_ascii_of_string path) ->
  ~ In ":"%char (list_ascii_of_string name) ->
  Cleaning.extractFilePathFromCacheKey
    (Cache.buildCacheKey modelKey (path ++ "#" ++ name))
  = Some path
  /\ (forall key,
        Cleaning.extractFilePathFromCacheKey key = None
        <-> ~ In ":"%char (list_ascii_of_string key))
  /\ (forall key p,
        Cleaning.extractFilePathFromCacheKey key = Some p ->
        ~ In "#"%char (list_ascii_of_string p)).
Proof.
  intros Hpath Hhash Hname. split; [|split].
  - unfold Cleaning.extractFilePathFromCacheKey, Cache.buildCacheKey.
    destruct (String.eqb_spec (modelKey ++ ":" ++ path ++ "#" ++ name) "") as [He|_].
    { exfalso. apply (f_equal String.length) in He.
      rewrite string_length_app in He. simpl in He. lia. }
    change (modelKey ++ ":" ++ path ++ "#" ++ name)
      with (modelKey ++ String ":" (path ++ "#" ++ name)).
    rewrite lastIndexOf_last.
    + cbn [Nat.add]. 
      replace (String.length modelKey + 1)%nat
        with (String.length (modelKey ++ ":")) by (rewrite string_length_app; reflexivity).
      change (modelKey ++ String ":" (path ++ "#" ++ name))
        with (modelKey ++ ":" ++ (path ++ "#" ++ name)).
      rewrite <- string_app_assoc, slice_after.
      change (path ++ "#" ++ name) with (path ++ String "#" name).
      now rewrite firstField_stops.
    + intros Hin. 
      assert (Hsplit : forall s t, In ":"%char (list_ascii_of_string (s ++ t)) ->
                In ":"%char (list_ascii_of_string s)
                \/ In ":"%char (list_ascii_of_string t)).
      { intros s t. induction s as [|c s IH]; simpl; [auto|].
        intros [H|H]; [auto|]. destruct (IH H); auto. }
      apply Hsplit in Hin. destruct Hin as [Hin|Hin]; [contradiction|].
      simpl in Hin. destruct Hin as [Hin|Hin]; [discriminate | contradiction].
  - intros key. unfold Cleaning.extractFilePathFromCacheKey.
    destruct (String.eqb_spec key "") as [->|_]; [simpl; tauto|].
    split.
    + intros Hnone Hin.
      apply (@lastIndexOf_present _ _ 0%nat) in Hin.
      destruct (Cleaning.lastIndexOf ":" key 0); [discriminate | contradiction].
    + intros Hnot. now rewrite lastIndexOf_absent.
  - intros key p. unfold Cleaning.extractFilePathFromCacheKey.
    destruct (String.eqb key ""); [discriminate|].
    destruct (Cleaning.lastIndexOf ":" key 0); [|discriminate].
    intros H. inversion H. apply firstField_free.
Qed.

Lemma extractFilePathFromCacheKey_inverts_buildCacheKey_witness :
  Cleaning.extractFilePathFromCacheKey
    (Cache.buildCacheKey "remote:text-embedding" "src/gone/B.tsx#B")
  = Some "src/gone/B.tsx".
Proof.
  refine (proj1 (@extractFilePathFromCacheKey_inverts_buildCacheKey
                   "remote:text-embedding" "src/gone/B.tsx" "B" _ _ _));
    simpl; intuition discriminate.
Defined.

(* ------------------------------------------------------------------ *)
(** ** The suppression heuristics do not depend on the order of the pair *)

Section SuppressionOrderFacts.
Variable vec : Type.

Lemma shares_element_sym (la lb : list string) :
  existsb (fun ref => mem ref la) lb = existsb (fun ref => mem ref lb) la.
Proof.
  apply eq_true_iff_eq. rewrite !existsb_exists. split.
  - intros (x & Hx & Hm). apply mem_In in Hm. exists x. split; [exact Hm|].
    now apply mem_In.
  - intros (x & Hx & Hm). apply mem_In in Hm. exists x. split; [exact Hm|].
    now apply mem_In.
Qed.

Lemma differentWrappedBases_sym (refsA refsB : option (list string)) :
  differentWrappedBases refsA refsB = differentWrappedBases refsB refsA.
Proof.
  unfold differentWrappedBases. cbv zeta.
  rewrite (orb_comm (List.length (orNil refsA) =? 0)%nat).
  now rewrite shares_element_sym.
Qed.

Lemma compositionSuppression_sym (ca cb : component) :
  compositionSuppression ca cb = compositionSuppression cb ca.
Proof. unfold compositionSuppression. cbv zeta. now rewrite orb_comm. Qed.

Lemma wrapperSuppression_sym (ca cb : component) :
  wrapperSuppression ca cb = wrapperSuppression cb ca.
Proof.
  unfold wrapperSuppression. cbv zeta.
  rewrite (orb_comm (negb (isWrapperLike ca))).
  rewrite (differentWrappedBases_sym (componentRefs ca)).
  rewrite (Nat.add_comm (listLength (logicTokens ca))),
          (Nat.add_comm (listLength (hooks ca))),
          (Nat.add_comm (listLength (textNodes ca))),
          (Nat.add_comm (listLength (literals ca))).
  assert (Hbase :
            match dominantTag ca, dominantTag cb with
            | Some ta, Some tb => negb (String.eqb ta "") && String.eqb ta tb
            | _, _ => false
            end
            = match dominantTag cb, dominantTag ca with
              | Some ta, Some tb => negb (String.eqb ta "") && String.eqb ta tb
              | _, _ => false
              end).
  { destruct (dominantTag ca) as [ta|], (dominantTag cb) as [tb|]; try reflexivity.
    destruct (String.eqb_spec ta tb) as [->|Hne].
    - now rewrite String.eqb_refl.
    - apply not_eq_sym in Hne. apply String.eqb_neq in Hne. rewrite Hne.
      now rewrite !andb_false_r. }
  rewrite Hbase. reflexivity.
Qed.

Lemma lowSignalSuppression_sym (ca cb : component) :
  lowSignalSuppression ca cb = lowSignalSuppression cb ca.
Proof.
  unfold lowSignalSuppression. cbv zeta.
  rewrite (andb_comm (countNonEmptyLines (source ca) <=? 16)%nat),
          (orb_comm (hasProps ca)), (orb_comm (isWrapperLike ca)),
          (andb_comm (componentSignal ca <=? 2)%nat).
  reflexivity.
Qed.

(** X13: whether a pair is suppressed, and for which reason, does not depend
    on which of the two units comes first; this holds for each of the three
    heuristics and so for their combination. *)
Theorem suppressPair_is_symmetric (ea eb : entry vec) :
  suppressPair ea eb = suppressPair eb ea
  /\ compositionSuppression (entryComponent ea) (entryComponent eb)
     = compositionSuppression (entryComponent eb) (entryComponent ea)
  /\ wrapperSuppression (entryComponent ea) (entryComponent eb)
     = wrapperSuppression (entryComponent eb) (entryComponent ea)
  /\ lowSignalSuppression (entryComponent ea) (entryComponent eb)
     = lowSignalSuppression (entryComponent eb) (entryComponent ea).
Proof.
  unfold suppressPair. cbv zeta.
  rewrite (compositionSuppression_sym (entryComponent ea)),
          (wrapperSuppression_sym (entryComponent ea)),
          (lowSignalSuppression_sym (entryComponent ea)).
  repeat split.
Qed.
End SuppressionOrderFacts.

(* ------------------------------------------------------------------ *)
(** ** The labels do not depend on the order of the pair *)

Lemma overlap_comm (la lb : list string) :
  overlap (Some la) (Some lb) = overlap (Some lb) (Some la).
Proof.
  unfold overlap, deref. cbn [bind].
  destruct la as [|x la'] eqn:Hla, lb as [|y lb'] eqn:Hlb; try reflexivity.
  rewrite <- Hla, <- Hlb.
  replace (List.length la =? 0)%nat with false by (rewrite Hla; reflexivity).
  replace (List.length lb =? 0)%nat with false by (rewrite Hlb; reflexivity).
  rewrite (common_count_sym (dedupe_NoDup la) (dedupe_NoDup lb)), Nat.max_comm.
  reflexivity.
Qed.

Lemma intersect_In (la lb : list string) (x : string) :
  In x (intersect la lb) <-> In x la /\ In x lb.
Proof. unfold intersect. rewrite dedupe_In, filter_In, mem_In. tauto. Qed.

Lemma difference_intersect_sym (l la lb : list string) :
  difference l (intersect la lb) = difference l (intersect lb la).
Proof.
  unfold difference. apply filter_ext. intros x. f_equal.
  apply eq_true_iff_eq. rewrite !mem_In, !intersect_In. tauto.
Qed.

Lemma intersect_empty_sym (la lb : list string) :
  (0 <? List.length (intersect la lb))%nat = (0 <? List.length (intersect lb la))%nat.
Proof.
  assert (H : forall pa pb, intersect pa pb = [] -> intersect pb pa = []).
  { intros pa pb He. destruct (intersect pb pa) as [|x xs] eqn:Hx; [reflexivity|].
    assert (Hin : In x (intersect pb pa)) by (rewrite Hx; now left).
    apply intersect_In in Hin.
    assert (Hin' : In x (intersect pa pb)) by (apply intersect_In; tauto).
    rewrite He in Hin'. contradiction. }
  destruct (intersect la lb) as [|x xs] eqn:Hab.
  - now rewrite (H _ _ Hab).
  - destruct (intersect lb la) as [|y ys] eqn:Hba; [|reflexivity].
    rewrite (H _ _ Hba) in Hab. discriminate.
Qed.

Lemma Qgeb_compat (x y c : Q) : (x == y)%Q -> Qgeb x c = Qgeb y c.
Proof.
  intros H. unfold Qgeb. apply eq_true_iff_eq. rewrite !Qle_bool_iff.
  now rewrite H.
Qed.

Section LabelOrderFacts.
Variable vec : Type.
Variable cosine : vec -> vec -> Q.
Variable getI18n : option string -> messages.

(** every rule gives the same answer on mirrored contexts *)
Lemma checks_mirrored (c1 c2 : context vec) :
  mirrored c1 c2 ->
  wrapperCheck c1 = wrapperCheck c2
  /\ styleCheck c1 = styleCheck c2
  /\ logicCheck c1 = logicCheck c2
  /\ copyCheck c1 = copyCheck c2
  /\ propCheck c1 = propCheck c2
  /\ forall soFar, forkCheck c1 soFar = forkCheck c2 soFar.
Proof.
  intros (Hcfg & Hi18n & Hsim & HwA & HwB & Hlo & Hli & Hss & Hto & Hld & Hhp & Hhs
          & HpA & HpB & HjA & HjB).
  repeat split.
  - unfold wrapperCheck. rewrite Hcfg, Hi18n, HwA, HwB. now rewrite andb_comm.
  - unfold styleCheck. cbv zeta.
    rewrite Hcfg, Hi18n, Hhs, HpA, HpB, HjA, HjB, (Qgeb_compat _ Hss).
    rewrite (intersect_empty_sym (stylePathsB c2) (stylePathsA c2)).
    rewrite (difference_intersect_sym (stylePathsB c2) (stylePathsB c2) (stylePathsA c2)).
    rewrite (difference_intersect_sym (stylePathsA c2) (stylePathsB c2) (stylePathsA c2)).
    destruct (0 <? List.length (intersect (stylePathsA c2) (stylePathsB c2)))%nat,
             (hasCssInJsA c2), (hasCssInJsB c2),
             (List.length (difference (stylePathsA c2)
                             (intersect (stylePathsA c2) (stylePathsB c2))) =? 0)%nat,
             (List.length (difference (stylePathsB c2)
                             (intersect (stylePathsA c2) (stylePathsB c2))) =? 0)%nat;
      reflexivity.
  - unfold logicCheck. now rewrite Hcfg, Hi18n, Hlo.
  - unfold copyCheck. now rewrite Hcfg, Hi18n, Hsim, Hto.
  - unfold propCheck. cbv zeta. now rewrite Hcfg, Hi18n, Hsim, Hli, Hhp.
  - intros soFar. unfold forkCheck. cbv zeta. now rewrite Hcfg, Hi18n, Hsim, Hld.
Qed.

(** X14: when both units carry their logic tokens, literals and source, and
    the similarity of the two style vectors is the same in both orders, the
    labels and hints of a pair do not depend on which unit comes first. *)
Theorem labelPair_is_symmetric (ea eb : entry vec) (sim : Q) (cfg : config)
  (la lb ta tb : list string) (sa sb : string) :
  logicTokens (entryComponent ea) = Some la ->
  logicTokens (entryComponent eb) = Some lb ->
  literals (entryComponent ea) = Some ta ->
  literals (entryComponent eb) = Some tb ->
  source (entryComponent ea) = Some sa ->
  source (entryComponent eb) = Some sb ->
  (cosine (styleVec ea) (styleVec eb) == cosine (styleVec eb) (styleVec ea))%Q ->
  exists r,
    labelPair cosine getI18n ea eb sim cfg = Ok r
    /\ labelPair cosine getI18n eb ea sim cfg = Ok r.
Proof.
  intros Hla Hlb Hta Htb Hsa Hsb Hcos.
  unfold labelPair, buildContext. cbv zeta.
  rewrite Hla, Hlb, Hta, Htb, Hsa, Hsb.
  rewrite (overlap_comm lb la), (overlap_comm tb ta).
  destruct (@overlap_present la lb) as (lo & Hlo & _).
  destruct (@overlap_present ta tb) as (li & Hli & _).
  rewrite Hlo, Hli. cbn [bind].
  unfold textOverlap, tokenize, lineCount. cbn [bind].
  rewrite (overlap_comm (fields _ (toLowerCase sb)) (fields _ (toLowerCase sa))).
  destruct (@overlap_present (fields (fun c => negb (isWordChar c)) (toLowerCase sa))
              (fields (fun c => negb (isWordChar c)) (toLowerCase sb))) as (tov & Htov & _).
  rewrite Htov. cbn [bind].
  match goal with
  | |- exists r, Ok (runCheck _ (forkCheck ?c1 _)) = Ok r
                 /\ Ok (runCheck _ (forkCheck ?c2 _)) = Ok r =>
      assert (Hmirror : mirrored c1 c2)
  end.
  { unfold mirrored.
    cbn [ctxEntryA ctxEntryB ctxSimilarity ctxConfig ctxI18n logicOverlap literalOverlap
         styleSimilarity tokenOverlap lineDiff ctxHasProps ctxHasStyles stylePathsA
         stylePathsB hasCssInJsA hasCssInJsB].
    repeat (split; [first [reflexivity | exact Hcos | apply andb_comm | apply orb_comm
                          | unfold absDiff; lia]|]).
    reflexivity. }
  destruct (checks_mirrored Hmirror) as (H1 & H2 & H3 & H4 & H5 & H6).
  rewrite H1, H2, H3, H4, H5, H6. eexists. split; reflexivity.
Qed.
End LabelOrderFacts.

Lemma labelPair_is_symmetric_witness :
  exists r,
    labelPair Sample.dot Sample.hintsOf (Sample.entryOf Sample.longUnit [1; 0]%Q)
      (Sample.entryOf Sample.shortUnit [1; 0]%Q) (85 # 100) (Sample.testConfig []) = Ok r
    /\ labelPair Sample.dot Sample.hintsOf (Sample.entryOf Sample.shortUnit [1; 0]%Q)
         (Sample.entryOf Sample.longUnit [1; 0]%Q) (85 # 100) (Sample.testConfig []) = Ok r.
Proof.
  eapply (@labelPair_is_symmetric _ Sample.dot Sample.hintsOf
            (Sample.entryOf Sample.longUnit [1; 0]%Q)
            (Sample.entryOf Sample.shortUnit [1; 0]%Q) (85 # 100) (Sample.testConfig []));
    reflexivity.
Defined.

(* ------------------------------------------------------------------ *)
(** ** Only the ratios of the weights matter *)

Section WeightScaleFacts.
Import Embedding.
Local Open Scope R_scope.

Lemma keepPart_scalePart (k : R) (p : part) :
  0 < k -> keepPart (scalePart k p) = keepPart p.
Proof.
  intros Hk. unfold keepPart, scalePart. cbn [partVec partWeight].
  destruct (partVec p) as [[|x xs]|]; try reflexivity.
  apply eq_true_iff_eq. rewrite !isPositive_true. split; intros H.
  - apply Rmult_lt_reg_l with (r := k); [exact Hk|]. now rewrite Rmult_0_r.
  - now apply Rmult_lt_0_compat.
Qed.

Lemma filter_scaleParts (k : R) (ps : list part) :
  0 < k -> filter keepPart (map (scalePart k) ps) = map (scalePart k) (filter keepPart ps).
Proof.
  intros Hk. induction ps as [|p ps IH]; simpl; [reflexivity|].
  rewrite keepPart_scalePart by exact Hk.
  destruct (keepPart p); simpl; now rewrite IH.
Qed.

Lemma kept_parts_survive (ps : list part) : allSurvive (filter keepPart ps).
Proof.
  unfold allSurvive. apply Forall_forall. intros p Hin.
  apply filter_In in Hin. destruct Hin as [_ Hkeep]. unfold keepPart in Hkeep.
  destruct (partVec p) as [[|x xs]|]; try discriminate.
  split; [now exists x, xs | now apply isPositive_true].
Qed.

Lemma minLength_scaleParts (k : R) (ps : list part) :
  minLength (map (scalePart k) ps) = minLength ps.
Proof.
  destruct ps as [|p ps]; [reflexivity|]. unfold minLength. cbn [map].
  rewrite map_map. reflexivity.
Qed.

Lemma totalWeight_scaleParts (k : R) (ps : list part) :
  totalWeight (map (scalePart k) ps) = k * totalWeight ps.
Proof.
  unfold totalWeight. induction ps as [|p ps IH]; simpl; [ring|].
  rewrite sumWeights_from, IH, (sumWeights_from ps (0 + partWeight p)). ring.
Qed.

Lemma accumulate_scaleParts (size : nat) (k : R) (coef coef' : part -> R)
  (ps : list part) :
  (forall p, In p ps -> coef' (scalePart k p) = coef p) ->
  forall init,
    fold_left (fun combined p => addScaled size combined (partArray p) (coef' p))
      (map (scalePart k) ps) init
    = fold_left (fun combined p => addScaled size combined (partArray p) (coef p))
        ps init.
Proof.
  induction ps as [|p ps IH]; intros Hcoef init; simpl; [reflexivity|].
  rewrite Hcoef by (now left).
  apply IH. intros q Hq. apply Hcoef. now right.
Qed.

Lemma weightedSum_scaleParts (k : R) (ps : list part) :
  0 < k -> allSurvive ps -> ps <> [] ->
  weightedSum (map (scalePart k) ps) = weightedSum ps.
Proof.
  intros Hk Hall Hne. unfold weightedSum. cbv zeta.
  rewrite minLength_scaleParts, totalWeight_scaleParts.
  apply accumulate_scaleParts.
  intros p _. cbn [scalePart partWeight].
  pose proof (totalWeight_positive Hall Hne) as Htotal.
  field. split; lra.
Qed.

(** X15: multiplying all four weights by one positive factor does not
    change the combined vector: only the ratios of the weights enter it. *)
Theorem combineVectors_weight_scale_invariant (vs : vectors) (c s t h k : R)
  (hasStyleSignal : option bool) :
  0 < k ->
  combineVectors vs (weightsOf (k * c) (k * s) (k * t) (k * h)) hasStyleSignal
  = combineVectors vs (weightsOf c s t h) hasStyleSignal.
Proof.
  intros Hk. unfold combineVectors, buildParts.
  assert (Hparts :
            allParts vs (weightsOf (k * c) (k * s) (k * t) (k * h)) hasStyleSignal
            = map (scalePart k) (allParts vs (weightsOf c s t h) hasStyleSignal)).
  { unfold allParts, weightsOf, scalePart, spread.
    cbn [wCode wStyle wStructure wHolistic DEFAULT_WEIGHT map partKey partVec partWeight].
    destruct hasStyleSignal as [[|]|]; repeat f_equal; ring. }
  rewrite Hparts, filter_scaleParts by exact Hk.
  destruct (filter keepPart (allParts vs (weightsOf c s t h) hasStyleSignal))
    as [|p ps] eqn:Hkept; [reflexivity|].
  cbn [map].
  change (scalePart k p :: map (scalePart k) ps) with (map (scalePart k) (p :: ps)).
  rewrite weightedSum_scaleParts; [reflexivity | exact Hk | | discriminate].
  rewrite <- Hkept. apply kept_parts_survive.
Qed.
End WeightScaleFacts.

Lemma combineVectors_weight_scale_invariant_witness :
  Embedding.combineVectors Sample.oneVectors
    (weightsOf (2 * 3) (2 * 1) (2 * 1) (2 * 1))%R (Some true)
  = Embedding.combineVectors Sample.oneVectors (weightsOf 3 1 1 1)%R (Some true).
Proof.
  apply combineVectors_weight_scale_invariant. lra.
Defined.

(* ------------------------------------------------------------------ *)
(** ** Units without a style signal *)

Section StyleSignalFacts.
Import Embedding.
Local Open Scope R_scope.

Lemma keepPart_zero_weight (key : string) (v : option rvec) :
  keepPart {| partKey := key; partVec := v; partWeight := 0 |} = false.
Proof.
  unfold keepPart. cbn [partVec partWeight].
  destruct v as [[|x xs]|]; try reflexivity.
  unfold isPositive. destruct (Rlt_dec 0 0) as [H|_]; [lra | reflexivity].
Qed.

Lemma weightedSum_single (key : string) (v : rvec) (w : R) :
  0 < w ->
  weightedSum [{| partKey := key; partVec := Some v; partWeight := w |}] = v.
Proof.
  intros Hw. unfold weightedSum, minLength, totalWeight, partLength, partArray.
  cbn [fold_left map partVec partWeight].
  unfold addScaled. apply nth_ext with (d := 0) (d' := 0).
  - now rewrite length_map, length_seq.
  - intros i Hi. rewrite length_map, length_seq in Hi.
    rewrite nth_map_seq by exact Hi. rewrite nth_repeat. field. lra.
Qed.

(** X16: with [hasStyleSignal] false the style part is dropped whatever
    its vector and weight, so the combined vector is computed from the other
    three parts alone; in particular, when the code vector is the only other
    one present, the result is that vector L2-normalised. *)
Theorem combineVectors_ignores_style_without_signal (code structure holistic : option rvec)
  (style style' : option rvec) (w w' : weightT) :
  wCode w = wCode w' -> wStructure w = wStructure w' -> wHolistic w = wHolistic w' ->
  combineVectors
    {| vCode := code; vStyle := style; vStructure := structure; vHolistic := holistic |}
    w (Some false)
  = combineVectors
      {| vCode := code; vStyle := style'; vStructure := structure; vHolistic := holistic |}
      w' (Some false)
  /\ (forall x xs,
        code = Some (x :: xs) -> structure = None -> holistic = None ->
        0 < spread (wCode DEFAULT_WEIGHT) (wCode w) ->
        combineVectors
          {| vCode := code; vStyle := style; vStructure := structure;
             vHolistic := holistic |} w (Some false)
        = normalize (x :: xs)).
Proof.
  intros Hc Ht Hh. split.
  - unfold combineVectors, buildParts, allParts.
    cbn [vCode vStyle vStructure vHolistic filter].
    rewrite !keepPart_zero_weight, Hc, Ht, Hh. reflexivity.
  - intros x xs -> -> -> Hw.
    unfold combineVectors, buildParts, allParts.
    cbn [vCode vStyle vStructure vHolistic filter].
    rewrite keepPart_zero_weight.
    unfold keepPart. cbn [partVec partWeight].
    replace (isPositive (spread (wCode DEFAULT_WEIGHT) (wCode w))) with true
      by (symmetry; now apply isPositive_true).
    now rewrite weightedSum_single.
Qed.
End StyleSignalFacts.

Lemma combineVectors_ignores_style_without_signal_witness :
  Embedding.combineVectors
    {| Embedding.vCode := Some [3; 4]%R;
       Embedding.vStyle := Some [0; 0]%R;
       Embedding.vStructure := None;
       Embedding.vHolistic := None |} Sample.noWeight (Some false)
  = Embedding.normalize [3; 4]%R.
Proof.
  refine (proj2 (@combineVectors_ignores_style_without_signal
                   (Some [3; 4]%R) None None (Some [0; 0]%R) None
                   Sample.noWeight Sample.noWeight eq_refl eq_refl eq_refl)
            3%R [4%R] eq_refl eq_refl eq_refl _).
  simpl. lra.
Defined.

(* ------------------------------------------------------------------ *)
(** ** Choosing the language *)

Section LanguageFacts.
Import I18n.

Lemma isSpace_lowerChar (c : ascii) : isSpace (lowerChar c) = isSpace c.
Proof. destruct c as [[] [] [] [] [] [] [] []]; reflexivity. Qed.

Lemma lowerChar_idempotent (c : ascii) : lowerChar (lowerChar c) = lowerChar c.
Proof. destruct c as [[] [] [] [] [] [] [] []]; reflexivity. Qed.

Lemma trimStart_lower (cs : list ascii) :
  trimStart (map lowerChar cs) = map lowerChar (trimStart cs).
Proof.
  induction cs as [|c cs IH]; simpl; [reflexivity|].
  rewrite isSpace_lowerChar. destruct (isSpace c); [exact IH | reflexivity].
Qed.

Lemma trimEnd_lower (cs : list ascii) :
  trimEnd (map lowerChar cs) = map lowerChar (trimEnd cs).
Proof.
  induction cs as [|c cs IH]; simpl; [reflexivity|].
  rewrite IH, isSpace_lowerChar.
  destruct (trimEnd cs); simpl; [destruct (isSpace c)|]; reflexivity.
Qed.

Lemma trimEnd_keeps (c : ascii) (cs : list ascii) :
  isSpace c = false -> trimEnd (c :: cs) = c :: trimEnd cs.
Proof. intros Hc. simpl. rewrite Hc. destruct (trimEnd cs); reflexivity. Qed.

Lemma toLowerCase_trim (s : string) : toLowerCase (trim s) = trim (toLowerCase s).
Proof.
  unfold toLowerCase, trim.
  rewrite !list_ascii_of_string_of_list_ascii, trimStart_lower, trimEnd_lower.
  reflexivity.
Qed.

Lemma toLowerCase_idempotent (s : string) : toLowerCase (toLowerCase s) = toLowerCase s.
Proof.
  unfold toLowerCase. rewrite list_ascii_of_string_of_list_ascii, map_map.
  f_equal. apply map_ext. apply lowerChar_idempotent.
Qed.

Lemma toLowerCase_empty (s : string) : toLowerCase s = "" -> s = "".
Proof. destruct s; [reflexivity | discriminate]. Qed.

Lemma normalizeLanguage_supported (value : option string) (l : string) :
  normalizeLanguage value = Some l -> In l SUPPORTED_LANGS.
Proof.
  unfold normalizeLanguage. destruct value as [v|]; [|discriminate].
  destruct (String.eqb v ""); [discriminate|]. cbv zeta.
  destruct (String.eqb (toLowerCase (trim v)) ""); [discriminate|].
  destruct (mem _ SUPPORTED_LANGS) eqn:Hmem; [|discriminate].
  intros H. inversion H; subst. now apply mem_In.
Qed.

(** X17: a language is only ever resolved to one of the six supported
    languages or to the caller's fallback. Each supported code resolves to
    itself, also when a region, encoding or modifier follows it after one of
    the separators dash, underscore, dot or at-sign, and the case of the letters
    makes no difference. *)
Theorem resolveLanguage_is_supported_or_fallback (value : option string)
  (fallback : string) :
  (In (resolveLanguage value fallback) SUPPORTED_LANGS
   \/ (normalizeLanguage value = None /\ resolveLanguage value fallback = fallback))
  /\ (forall l, In l SUPPORTED_LANGS -> resolveLanguage (Some l) fallback = l)
  /\ (forall l sep rest,
        In l SUPPORTED_LANGS -> In sep ["-"; "_"; "."; "@"]%char ->
        resolveLanguage (Some (l ++ String sep rest)) fallback = l)
  /\ (forall v, resolveLanguage (Some (toLowerCase v)) fallback
                = resolveLanguage (Some v) fallback).
Proof.
  split; [|split; [|split]].
  - unfold resolveLanguage.
    destruct (normalizeLanguage value) as [l|] eqn:Hn.
    + left. exact (normalizeLanguage_supported _ Hn).
    + right. split; reflexivity.
  - intros l Hl. simpl in Hl.
    repeat (destruct Hl as [<-|Hl]; [reflexivity|]). contradiction.
  - intros l sep rest Hl Hsep.
    assert (Hkeep : forall a b,
              isSpace a = false -> isSpace b = false -> isSpace sep = false ->
              trim (String a (String b (String sep rest)))
              = String a (String b (String sep
                  (string_of_list_ascii (trimEnd (list_ascii_of_string rest)))))).
    { intros a b Ha Hb Hs. unfold trim.
      cbn [list_ascii_of_string trimStart]. rewrite Ha.
      rewrite !trimEnd_keeps by assumption. reflexivity. }
    unfold resolveLanguage, normalizeLanguage. cbv zeta.
    simpl in Hl, Hsep.
    repeat (destruct Hl as [<-|Hl];
            [ repeat (destruct Hsep as [<-|Hsep];
                      [ cbn [String.append String.eqb Ascii.eqb Bool.eqb];
                        rewrite Hkeep by reflexivity; reflexivity |]);
              contradiction |]).
    contradiction.
  - intros v. unfold resolveLanguage, normalizeLanguage. cbv zeta.
    rewrite <- toLowerCase_trim, toLowerCase_idempotent.
    destruct (String.eqb_spec v "") as [->|Hne]; [reflexivity|].
    destruct (String.eqb_spec (toLowerCase v) "") as [He|_]; [|reflexivity].
    apply toLowerCase_empty in He. contradiction.
Qed.

Lemma argvLoop_skips (pre rest : list string) (fallback : string) :
  Forall (fun arg => arg <> "--lang" /\ String.prefix "--lang=" arg = false) pre ->
  argvLoop (pre ++ rest)%list fallback = argvLoop rest fallback.
Proof.
  induction 1 as [|arg pre [Hne Hpre] _ IH]; simpl; [reflexivity|].
  apply String.eqb_neq in Hne. now rewrite Hne, Hpre.
Qed.

(** X18: the first language option on the command line decides: after
    arguments that are neither the bare option nor the option with a value,
    the bare option resolves the argument that follows it (the fallback if
    none follows), the option with a value resolves that value, and a command
    line without either gives the fallback. *)
Theorem resolveLanguageFromArgv_first_option_wins (pre rest : list string)
  (fallback : string) :
  Forall (fun arg => arg <> "--lang" /\ String.prefix "--lang=" arg = false) pre ->
  resolveLanguageFromArgv (Some (pre ++ "--lang" :: rest)%list) fallback
  = resolveLanguage (hd_error rest) fallback
  /\ (forall v : string,
        resolveLanguageFromArgv (Some (pre ++ ("--lang=" ++ v)%string :: rest)%list) fallback
        = resolveLanguage (Some v) fallback)
  /\ resolveLanguageFromArgv (Some pre) fallback = fallback
  /\ resolveLanguageFromArgv (Some (pre ++ ["--lang"])%list) fallback = fallback.
Proof.
  intros Hpre. unfold resolveLanguageFromArgv. repeat split.
  - rewrite (argvLoop_skips _ _ Hpre). reflexivity.
  - intros v. rewrite (argvLoop_skips _ _ Hpre).
    cbn [argvLoop].
    replace (String.eqb ("--lang=" ++ v) "--lang") with false by reflexivity.
    replace (String.prefix "--lang=" ("--lang=" ++ v)) with true
      by (destruct v; reflexivity).
    now rewrite (slice_after "--lang=" v).
  - rewrite <- (app_nil_r pre), (argvLoop_skips _ _ Hpre). reflexivity.
  - rewrite (argvLoop_skips _ _ Hpre). reflexivity.
Qed.
End LanguageFacts.

Lemma resolveLanguageFromArgv_first_option_wins_witness :
  I18n.resolveLanguageFromArgv
    (Some (["node"; "duplicalis"; "--limit"] ++ "--lang" :: ["ru_RU.UTF-8"; "--lang=de"])%list)
    "en"
  = "ru".
Proof.
  refine (eq_trans
            (proj1 (@resolveLanguageFromArgv_first_option_wins
                      ["node"; "duplicalis"; "--limit"] ["ru_RU.UTF-8"; "--lang=de"]
                      "en" _)) _).
  - repeat constructor; discriminate.
  - vm_compute. reflexivity.
Defined.


Lemma resolveLanguage_is_supported_or_fallback_witness :
  I18n.resolveLanguage (Some "zh_CN.UTF-8") "en" = "zh".
Proof.
  refine (proj1 (proj2 (proj2 (resolveLanguage_is_supported_or_fallback None "en")))
            "zh" "_"%char "CN.UTF-8" _ _); simpl; tauto.
Defined.

(* ------------------------------------------------------------------ *)
(** ** The store [loadCache] returns, and reading back what was saved *)

Section StoreFacts.
Import Cache Saving.
Variable decode : list Z -> result jsval.
Variable JSON_parse : list Z -> result jsval.
Variable errCacheReadPrefix : option string -> string.

Local Abbreviation loadFrom disk :=
  (loadCache decode JSON_parse errCacheReadPrefix disk).

(** a store whose version is [CACHE_VERSION] and whose entries are truthy *)
Local Abbreviation validStore store :=
  (exists version entries,
     getProp store "version" = Ok version
     /\ strictEqNum version CACHE_VERSION = true
     /\ getProp store "entries" = Ok entries
     /\ truthy entries = true).

Lemma emptyStore_valid : validStore emptyStore.
Proof. exists (VNum CACHE_VERSION), (VObj []). repeat split. Qed.

(** the outcomes of [loadCache]: the empty store, with at most one warning,
    or the decoded content of the file, which passed both checks *)
Lemma loadCache_outcomes (disk : fileSystem) (cachePath language : option string)
  (store : jsval) (warnings : list string) :
  loadFrom disk cachePath language = Ok (store, warnings) ->
  (store = emptyStore /\ (List.length warnings <= 1)%nat)
  \/ (warnings = [] /\ validStore store
      /\ exists p raw,
           cachePath = Some p /\ readFileSync disk p = Ok raw
           /\ try_catch (decode raw) (fun _ => JSON_parse raw) = Ok store).
Proof.
  unfold loadCache. destruct cachePath as [p|].
  2:{ intros H. inversion H. left. split; [reflexivity | simpl; lia]. }
  destruct (String.eqb p "").
  { intros H. inversion H. left. split; [reflexivity | simpl; lia]. }
  destruct (existsSync disk p); cbn [negb].
  2:{ intros H. inversion H. left. split; [reflexivity | simpl; lia]. }
  destruct (readFileSync disk p) as [raw|e] eqn:Hread; cbn [bind try_catch].
  2:{ intros H. inversion H. left. split; [reflexivity | simpl; lia]. }
  destruct (try_catch (decode raw) (fun _ => JSON_parse raw)) as [parsed|e] eqn:Hdec;
    cbn [bind try_catch].
  2:{ intros H. inversion H. left. split; [reflexivity | simpl; lia]. }
  destruct (getProp parsed "version") as [version|e] eqn:Hversion; cbn [bind try_catch].
  2:{ intros H. inversion H. left. split; [reflexivity | simpl; lia]. }
  destruct (strictEqNum version CACHE_VERSION) eqn:Hv; cbn [negb bind try_catch].
  2:{ intros H. inversion H. left. split; [reflexivity | simpl; lia]. }
  destruct (getProp parsed "entries") as [entries|e] eqn:Hentries; cbn [bind try_catch].
  2:{ intros H. inversion H. left. split; [reflexivity | simpl; lia]. }
  destruct (truthy entries) eqn:Ht; cbn [negb bind try_catch].
  2:{ intros H. inversion H. left. split; [reflexivity | simpl; lia]. }
  intros H. inversion H; subst. right. split; [reflexivity|]. split.
  - now exists version, entries.
  - now exists p, raw.
Qed.

(** X19: whatever is on disk, the store [loadCache] returns has version
    [CACHE_VERSION] and truthy entries; it comes with at most one warning, and
    a warning only ever accompanies the empty store; a store other than the
    empty one is the decoded content of the cache file. *)
Theorem loadCache_returns_a_valid_store (disk : fileSystem)
  (cachePath language : option string) (store : jsval) (warnings : list string) :
  loadFrom disk cachePath language = Ok (store, warnings) ->
  validStore store
  /\ (List.length warnings <= 1)%nat
  /\ (warnings <> [] -> store = emptyStore)
  /\ (store <> emptyStore ->
      exists p raw,
        cachePath = Some p /\ readFileSync disk p = Ok raw
        /\ try_catch (decode raw) (fun _ => JSON_parse raw) = Ok store).
Proof.
  intros Hrun.
  destruct (loadCache_outcomes _ _ _ Hrun) as [[-> Hlen]|(-> & Hvalid & Hfile)].
  - split; [exact emptyStore_valid|]. split; [exact Hlen|].
    split; [reflexivity|]. intros Hne. now contradiction Hne.
  - split; [exact Hvalid|]. split; [simpl; lia|].
    split; [intros Hne; now contradiction Hne|]. intros _. exact Hfile.
Qed.

Variable encode : jsval -> list Z.
Variable dirname : string -> string.
Variable mkdirSync : fileSystem -> string -> result fileSystem.
Variable writeFileSync : fileSystem -> string -> list Z -> result fileSystem.

(** X20: a store that [loadCache] returned, once saved, is loaded back
    unchanged and without a warning - provided the written file exists and
    reads back as the bytes written, and decoding undoes encoding on this
    store; with no cache path, saving leaves the disk as it is. *)
Theorem saved_cache_is_loaded_back (disk disk0 disk' : fileSystem) (p : string)
  (language : option string) (store : jsval) (warnings : list string) :
  (forall d q data d',
     writeFileSync d q data = Ok d' ->
     existsSync d' q = true /\ readFileSync d' q = Ok data) ->
  decode (encode store) = Ok store ->
  p <> "" ->
  loadFrom disk0 (Some p) language = Ok (store, warnings) ->
  saveCache encode dirname mkdirSync writeFileSync disk (Some p) store = Ok disk' ->
  loadFrom disk' (Some p) language = Ok (store, [])
  /\ saveCache encode dirname mkdirSync writeFileSync disk None store = Ok disk
  /\ saveCache encode dirname mkdirSync writeFileSync disk (Some "") store = Ok disk.
Proof.
  intros Hwrite Hcodec Hp Hload Hsave.
  split; [|split; reflexivity].
  assert (Hvalid : validStore store).
  { destruct (loadCache_outcomes _ _ _ Hload) as [[-> _]|(_ & Hvalid & _)];
      [exact emptyStore_valid | exact Hvalid]. }
  destruct Hvalid as (version & entries & Hversion & Hv & Hentries & Ht).
  unfold saveCache in Hsave. apply String.eqb_neq in Hp. rewrite Hp in Hsave.
  destruct (mkdirSync disk (dirname p)) as [disk1|e]; cbn [bind] in Hsave;
    [|discriminate].
  destruct (Hwrite _ _ _ _ Hsave) as [Hexists Hread].
  unfold loadCache. rewrite Hp, Hexists, Hread. cbn [negb bind try_catch].
  rewrite Hcodec. cbn [bind try_catch].
  rewrite Hversion. cbn [bind try_catch]. rewrite Hv. cbn [negb bind try_catch].
  rewrite Hentries. cbn [bind try_catch]. rewrite Ht. reflexivity.
Qed.

(** X21: the model key tells the backends and their models apart: two
    configurations get the same key only if both are remote with the same
    remote model name, or both are mock, or both are local with the same
    model path. *)
Theorem modelKey_separates_models (c1 c2 : modelConfig) :
  modelKey c1 = modelKey c2 ->
  (model c1 = "remote" /\ model c2 = "remote"
   /\ orEmpty (remoteModel c1) = orEmpty (remoteModel c2))
  \/ (model c1 = "mock" /\ model c2 = "mock")
  \/ (model c1 <> "remote" /\ model c1 <> "mock"
      /\ model c2 <> "remote" /\ model c2 <> "mock"
      /\ modelPath c1 = modelPath c2).
Proof.
  unfold modelKey.
  destruct (String.eqb_spec (model c1) "remote") as [H1|H1],
           (String.eqb_spec (model c2) "remote") as [H2|H2].
  - intros H. left. simpl in H. inversion H. auto.
  - destruct (String.eqb_spec (model c2) "mock"); simpl; discriminate.
  - destruct (String.eqb_spec (model c1) "mock"); simpl; discriminate.
  - destruct (String.eqb_spec (model c1) "mock") as [M1|M1],
             (String.eqb_spec (model c2) "mock") as [M2|M2]; simpl;
      try discriminate.
    + intros _. right. left. auto.
    + intros H. inversion H. right. right. auto.
Qed.
End StoreFacts.


Lemma loadCache_returns_a_valid_store_witness :
  Cache.loadCache decodeSaved Sample.rejectJson Sample.cacheReadPrefix cacheDisk
    (Some "embeddings.json") None = Ok (savedStore, [])
  /\ exists version,
       Cache.getProp savedStore "version" = Ok version
       /\ Cache.strictEqNum version Cache.CACHE_VERSION = true.
Proof.
  assert (Hrun : Cache.loadCache decodeSaved Sample.rejectJson Sample.cacheReadPrefix
                   cacheDisk (Some "embeddings.json") None = Ok (savedStore, []))
    by reflexivity.
  split; [exact Hrun|].
  destruct (proj1 (@loadCache_returns_a_valid_store decodeSaved Sample.rejectJson
                     Sample.cacheReadPrefix cacheDisk (Some "embeddings.json") None
                     savedStore [] Hrun))
    as (version & entries & Hversion & Hv & _).
  exists version. split; assumption.
Defined.

Lemma saved_cache_is_loaded_back_witness :
  exists disk',
    Saving.saveCache encodeSaved (fun p => p) (fun d _ => Ok d) storeFile
      Sample.corruptDisk (Some "out/embeddings.json") savedStore = Ok disk'
    /\ Cache.loadCache decodeSaved Sample.rejectJson Sample.cacheReadPrefix disk'
         (Some "out/embeddings.json") None = Ok (savedStore, []).
Proof.
  eexists. split; [reflexivity|].
  refine (proj1 (@saved_cache_is_loaded_back decodeSaved Sample.rejectJson
                   Sample.cacheReadPrefix encodeSaved (fun p => p) (fun d _ => Ok d)
                   storeFile Sample.corruptDisk
                   {| Cache.existsSync := fun _ => true;
                      Cache.readFileSync := fun _ => Ok [130; 167; 118]%Z |}
                   _ "out/embeddings.json" None savedStore [] _ eq_refl _ eq_refl eq_refl)).
  - intros d q data d' H. inversion H; subst. simpl.
    rewrite String.eqb_refl. split; reflexivity.
  - discriminate.
Defined.

Lemma modelKey_separates_models_witness :
  Saving.modelPath
    {| Saving.model := "local"; Saving.remoteModel := None;
       Saving.modelPath := "models/all-MiniLM-L6-v2" |}
  = Saving.modelPath
      {| Saving.model := "onnx"; Saving.remoteModel := Some "text-embedding-3-small";
         Saving.modelPath := "models/all-MiniLM-L6-v2" |}.
Proof.
  destruct (@modelKey_separates_models
              {| Saving.model := "local"; Saving.remoteModel := None;
                 Saving.modelPath := "models/all-MiniLM-L6-v2" |}
              {| Saving.model := "onnx"; Saving.remoteModel := Some "text-embedding-3-small";
                 Saving.modelPath := "models/all-MiniLM-L6-v2" |} eq_refl)
    as [(H & _)|[(H & _)|(_ & _ & _ & _ & H)]]; [discriminate | discriminate | exact H].
Defined.

(* ------------------------------------------------------------------ *)
(** ** [normalize] *)

Section NormalizeFacts.
Import Embedding.
Local Open Scope R_scope.

Lemma map_div_one (v : rvec) : map (fun x => x / 1) v = v.
Proof.
  induction v as [|x v IH]; simpl; [reflexivity|].
  rewrite IH. f_equal. field.
Qed.

Lemma sumSquares_scaled (k : R) (v : rvec) :
  sumSquares (map (fun x => k * x) v) = k * k * sumSquares v.
Proof.
  induction v as [|x v IH]; simpl.
  - unfold sumSquares. simpl. ring.
  - rewrite !sumSquares_cons, IH. ring.
Qed.

Lemma l2norm_scaled (k : R) (v : rvec) :
  0 < k -> l2norm (map (fun x => k * x) v) = k * l2norm v.
Proof.
  intros Hk. unfold l2norm. rewrite sumSquares_scaled.
  rewrite sqrt_mult; [|nra | apply sumSquares_nonneg].
  rewrite sqrt_square by lra. reflexivity.
Qed.

Lemma Rabs_nonpos_zero (y : R) : Rabs y <= 0 -> y = 0.
Proof. unfold Rabs. destruct (Rcase_abs y); lra. Qed.

Lemma component_below_norm (v : rvec) (x : R) :
  In x v -> Rabs x <= l2norm v.
Proof.
  intros Hin. unfold l2norm.
  assert (Hsq : x * x <= sumSquares v).
  { induction v as [|y v IH]; [contradiction|].
    rewrite sumSquares_cons. destruct Hin as [->|Hin].
    - pose proof (sumSquares_nonneg v). lra.
    - specialize (IH Hin). pose proof (Rle_0_sqr y) as Hy. unfold Rsqr in Hy. lra. }
  rewrite <- sqrt_Rsqr_abs. apply sqrt_le_1_alt. exact Hsq.
Qed.

(** X22: the result of [normalize] has the length of its argument and all
    its components between -1 and 1; it has norm 1 unless the argument is a zero
    vector, which is returned as it is; normalising twice is the same as
    normalising once; and multiplying the argument by a positive factor does
    not change the result. *)
Theorem normalize_is_a_projection (v : rvec) (k : R) :
  0 < k ->
  List.length (normalize v) = List.length v
  /\ (forall x, In x (normalize v) -> -1 <= x <= 1)
  /\ (sumSquares v <> 0 -> l2norm (normalize v) = 1)
  /\ (sumSquares v = 0 -> normalize v = v)
  /\ normalize (normalize v) = normalize v
  /\ normalize (map (fun x => k * x) v) = normalize v.
Proof.
  intros Hk. pose proof (sumSquares_nonneg v) as Hpos.
  assert (Hzero : sumSquares v = 0 -> normalize v = v).
  { intros Hs. unfold normalize.
    assert (H0 : l2norm v = 0) by (unfold l2norm; rewrite Hs; apply sqrt_0).
    destruct (Req_dec_T (l2norm v) 0) as [_|Hne]; [|contradiction].
    apply map_div_one. }
  assert (Hnorm : sumSquares v <> 0 -> l2norm v <> 0).
  { intros Hs H0. unfold l2norm in H0. apply sqrt_eq_0 in H0; [contradiction|exact Hpos]. }
  split; [apply normalize_length|]. split; [|split; [|split; [|split]]].
  - intros x Hin. unfold normalize in Hin. apply in_map_iff in Hin.
    destruct Hin as (y & <- & Hy).
    pose proof (component_below_norm _ _ Hy) as Hle.
    pose proof (Rabs_pos y) as Hay.
    destruct (Req_dec_T (l2norm v) 0) as [H0|Hne].
    + assert (y = 0) as ->.
      { rewrite H0 in Hle. now apply Rabs_nonpos_zero. }
      replace (0 / 1) with 0 by field. lra.
    + assert (Hn : 0 < l2norm v).
      { unfold l2norm in *. pose proof (sqrt_pos (sumSquares v)). lra. }
      assert (Hinv : 0 < / l2norm v) by now apply Rinv_0_lt_compat.
      assert (Hunit : l2norm v * / l2norm v = 1) by now apply Rinv_r.
      unfold Rdiv. unfold Rabs in Hle. destruct (Rcase_abs y); nra.
  - apply normalize_unit.
  - exact Hzero.
  - destruct (Req_dec_T (sumSquares v) 0) as [Hs|Hs].
    + now rewrite (Hzero Hs), (Hzero Hs).
    + pose proof (@normalize_unit v Hs) as Hunit.
      unfold normalize at 1.
      destruct (Req_dec_T (l2norm (normalize v)) 0) as [H0|_]; [lra|].
      rewrite Hunit. apply map_div_one.
  - unfold normalize. rewrite l2norm_scaled by exact Hk. rewrite map_map.
    destruct (Req_dec_T (l2norm v) 0) as [H0|Hne].
    + destruct (Req_dec_T (k * l2norm v) 0) as [_|Hne']; [|rewrite H0 in Hne'; lra].
      apply map_ext_in. intros y Hy.
      pose proof (component_below_norm _ _ Hy) as Hle. pose proof (Rabs_pos y).
      assert (y = 0) as -> by (rewrite H0 in Hle; now apply Rabs_nonpos_zero).
      field.
    + destruct (Req_dec_T (k * l2norm v) 0) as [H0|_].
      { apply Rmult_integral in H0. destruct H0; [lra | contradiction]. }
      apply map_ext. intros y. field. split; [exact Hne | lra].
Qed.
End NormalizeFacts.

Lemma normalize_is_a_projection_witness :
  Embedding.normalize (map (fun x => 2 * x)%R [3; 4]%R) = Embedding.normalize [3; 4]%R.
Proof.
  refine (proj2 (proj2 (proj2 (proj2 (proj2
            (@normalize_is_a_projection [3; 4]%R 2%R _)))))).
  lra.
Defined.

(* ------------------------------------------------------------------ *)
(** ** The match coverage of the report *)

Lemma setAdd_spec (ids : list string) (x : string) :
  NoDup ids ->
  NoDup (Output.setAdd ids x)
  /\ (forall y, In y (Output.setAdd ids x) <-> In y ids \/ y = x)
  /\ (List.length (Output.setAdd ids x) <= S (List.length ids))%nat.
Proof.
  intros Hnd. unfold Output.setAdd. destruct (mem x ids) eqn:Hmem.
  - apply mem_In in Hmem. split; [exact Hnd|]. split; [|lia].
    intros y. split; [tauto|]. intros [H| ->]; assumption.
  - assert (Hnot : ~ In x ids).
    { intros H. apply mem_In in H. congruence. }
    split; [|split].
    + apply NoDup_app; [exact Hnd | repeat constructor; intros [] |].
      intros y Hy [<-|[]]. contradiction.
    + intros y. rewrite in_app_iff. simpl. intuition.
    + rewrite length_app. simpl. lia.
Qed.

Lemma addPair_spec (ids : list string) (p : reportedPair) :
  NoDup ids ->
  NoDup (Output.addPair ids p)
  /\ (forall y, In y (Output.addPair ids p)
                <-> In y ids \/ (y <> "" /\ (a p = y \/ b p = y)))
  /\ (List.length (Output.addPair ids p) <= 2 + List.length ids)%nat.
Proof.
  intros Hnd. unfold Output.addPair. cbv zeta.
  destruct (String.eqb_spec (a p) "") as [Ha|Ha],
           (String.eqb_spec (b p) "") as [Hb|Hb].
  - split; [exact Hnd|]. split; [|lia]. intros y. split; [tauto|].
    intros [H|(Hy & [H|H])]; [exact H | congruence | congruence].
  - destruct (setAdd_spec (b p) Hnd) as (H1 & H2 & H3).
    split; [exact H1|]. split; [|lia]. intros y. rewrite H2. split.
    + intros [H| ->]; [tauto|]. right. split; [exact Hb | tauto].
    + intros [H|(Hy & [H|H])]; [tauto | congruence | auto].
  - destruct (setAdd_spec (a p) Hnd) as (H1 & H2 & H3).
    split; [exact H1|]. split; [|lia]. intros y. rewrite H2. split.
    + intros [H| ->]; [tauto|]. right. split; [exact Ha | tauto].
    + intros [H|(Hy & [H|H])]; [tauto | auto | congruence].
  - destruct (setAdd_spec (a p) Hnd) as (H1 & H2 & H3).
    destruct (setAdd_spec (b p) H1) as (H4 & H5 & H6).
    split; [exact H4|]. split; [|lia]. intros y. rewrite H5, H2. split.
    + intros [[H| ->]| ->]; [tauto | right; split; [exact Ha | tauto]
                                | right; split; [exact Hb | tauto]].
    + intros [H|(Hy & [H|H])]; [tauto | left; right; auto | right; auto].
Qed.

Lemma pairedIds_spec (pairs : list reportedPair) :
  forall ids,
    NoDup ids ->
    NoDup (fold_left Output.addPair pairs ids)
    /\ (forall y, In y (fold_left Output.addPair pairs ids)
                  <-> In y ids
                      \/ (y <> "" /\ exists p, In p pairs /\ (a p = y \/ b p = y)))
    /\ (List.length (fold_left Output.addPair pairs ids)
        <= 2 * List.length pairs + List.length ids)%nat.
Proof.
  induction pairs as [|p pairs IH]; intros ids Hnd; cbn [fold_left].
  - split; [exact Hnd|]. split; [|simpl; lia]. intros y. split; [tauto|].
    intros [H|(_ & q & [] & _)]. exact H.
  - destruct (addPair_spec p Hnd) as (H1 & H2 & H3).
    destruct (IH _ H1) as (H4 & H5 & H6).
    split; [exact H4|]. split; [|cbn [List.length]; lia].
    intros y. rewrite H5, H2. split.
    + intros [[H|(Hy & H)]|(Hy & q & Hq & H)].
      * tauto.
      * right. split; [exact Hy|]. exists p. split; [now left | exact H].
      * right. split; [exact Hy|]. exists q. split; [now right | exact H].
    + intros [H|(Hy & q & [<-|Hq] & H)].
      * tauto.
      * left. right. tauto.
      * right. split; [exact Hy|]. exists q. tauto.
Qed.

Section CoverageFacts.
Variable vec : Type.
Variable cosine : vec -> vec -> Q.
Variable getI18n : option string -> messages.

(** X23: the number of paired units shown in the report counts the distinct
    non-empty identities that occur in the pairs; for the pairs that
    [findSimilarities] reports it is at most the number of entries - so the
    match coverage never exceeds 100 percent - and at most twice the number
    of pairs. *)
Theorem paired_components_are_bounded (entries : list (entry vec)) (cfg : config)
  (reported : list reportedPair) (sc : scorecard) :
  findSimilarities cosine getI18n entries cfg = Ok (reported, sc) ->
  (Output.countPairedComponents reported <= List.length entries)%nat
  /\ (Output.countPairedComponents reported <= 2 * List.length reported)%nat
  /\ exists ids,
       Output.countPairedComponents reported = List.length ids
       /\ NoDup ids
       /\ forall y, In y ids
                    <-> y <> "" /\ exists p, In p reported /\ (a p = y \/ b p = y).
Proof.
  intros Hrun. unfold Output.countPairedComponents.
  destruct (pairedIds_spec reported (NoDup_nil string)) as (Hnd & Hin & Hlen).
  assert (Hspec : forall y, In y (fold_left Output.addPair reported [])
                            <-> y <> "" /\ exists p, In p reported /\ (a p = y \/ b p = y)).
  { intros y. rewrite Hin. simpl. tauto. }
  split; [|split].
  - rewrite <- (length_map (fun e => id (entryComponent e)) entries).
    apply NoDup_incl_length; [exact Hnd|].
    intros y Hy. apply Hspec in Hy. destruct Hy as (_ & p & Hp & Hab).
    unfold findSimilarities in Hrun.
    destruct (outerLoop cosine getI18n entries cfg initialState) as [st|err] eqn:Hloop;
      simpl in Hrun; [|discriminate].
    inversion Hrun; subst; clear Hrun.
    apply limitMatches_In in Hp.
    destruct (@outerLoop_accepted _ _ _ _ _ _ Hloop p Hp)
      as (i & j & ei & ej & _ & Hi & Hj & Ha & Hb & _).
    apply nth_error_In in Hi, Hj.
    destruct Hab as [<-|<-]; [rewrite Ha | rewrite Hb];
      apply (in_map (fun e => id (entryComponent e))); assumption.
  - simpl in Hlen. lia.
  - exists (fold_left Output.addPair reported []). auto.
Qed.
End CoverageFacts.

Lemma paired_components_are_bounded_witness :
  exists reported sc,
    findSimilarities Sample.dot Sample.hintsOf [Sample.entryA; Sample.entryB]
      (Sample.settings (3 # 10) None None None) = Ok (reported, sc)
    /\ (Output.countPairedComponents reported <= 2)%nat.
Proof.
  eassert (Hrun : findSimilarities Sample.dot Sample.hintsOf
                    [Sample.entryA; Sample.entryB]
                    (Sample.settings (3 # 10) None None None) = Ok (_, _))
    by (vm_compute; reflexivity).
  do 2 eexists. split; [exact Hrun|].
  exact (proj1 (@paired_components_are_bounded _ _ _ _ _ _ _ Hrun)).
Defined.

(* ------------------------------------------------------------------ *)
(** ** Source snippets *)

Section SnippetFacts.
Import Output.

Lemma splitChars_clean (sep : ascii -> bool) (cs : list ascii) :
  forall l, In l (splitChars sep cs) -> forall c, In c l -> sep c = false.
Proof.
  induction cs as [|x cs IH]; simpl; intros l Hl c Hc.
  - destruct Hl as [<-|[]]. contradiction.
  - destruct (sep x) eqn:Hx.
    + destruct Hl as [<-|Hl]; [contradiction | eauto].
    + destruct (splitChars sep cs) as [|cur more] eqn:Hs.
      * destruct Hl as [<-|[]]. destruct Hc as [<-|[]]. exact Hx.
      * destruct Hl as [<-|Hl].
        -- destruct Hc as [<-|Hc]; [exact Hx|]. apply (IH cur); [now left | exact Hc].
        -- apply (IH l); [now right | exact Hc].
Qed.

Lemma splitChars_plain (sep : ascii -> bool) (l : list ascii) :
  (forall c, In c l -> sep c = false) -> splitChars sep l = [l].
Proof.
  induction l as [|x l IH]; intros Hl; simpl; [reflexivity|].
  rewrite (Hl x) by (now left). rewrite IH; [reflexivity|].
  intros c Hc. apply Hl. now right.
Qed.

Lemma splitChars_at_sep (sep : ascii -> bool) (l rest : list ascii) (c : ascii) :
  (forall x, In x l -> sep x = false) -> sep c = true ->
  splitChars sep (l ++ c :: rest) = l :: splitChars sep rest.
Proof.
  intros Hl Hc. induction l as [|x l IH]; simpl.
  - now rewrite Hc.
  - rewrite (Hl x) by (now left). rewrite IH; [reflexivity|].
    intros y Hy. apply Hl. now right.
Qed.

Lemma splitChars_joinLines (ls : list (list ascii)) :
  ls <> [] ->
  (forall l, In l ls -> forall c, In c l -> isNewline c = false) ->
  splitChars isNewline (joinLines ls) = ls.
Proof.
  induction ls as [|l ls IH]; intros Hne Hclean; [contradiction|].
  destruct ls as [|l2 rest].
  - simpl. apply splitChars_plain. apply Hclean. now left.
  - change (joinLines (l :: l2 :: rest))
      with (l ++ "010"%char :: joinLines (l2 :: rest))%list.
    rewrite splitChars_at_sep; [| apply Hclean; now left | reflexivity].
    rewrite IH; [reflexivity | discriminate |].
    intros l' Hl'. apply Hclean. now right.
Qed.

Lemma firstn_members {A : Type} (n : nat) (l : list A) (x : A) :
  In x (firstn n l) -> In x l.
Proof.
  revert l. induction n as [|n IH]; intros [|y l]; simpl; try tauto.
  intros [H|H]; [now left | right; now apply IH].
Qed.

Lemma clipLine_short (line : list ascii) :
  (List.length line <= 120)%nat -> clipLine line = line.
Proof.
  intros H. unfold clipLine.
  destruct (Nat.ltb_spec 120 (List.length line)); [lia | reflexivity].
Qed.

Lemma clipLine_spec (line : list ascii) :
  (List.length (clipLine line) <= 120)%nat
  /\ (forallb isSpace line = false -> forallb isSpace (clipLine line) = false)
  /\ (forall c, In c (clipLine line) ->
        In c line \/ c = "."%char).
Proof.
  unfold clipLine. destruct (Nat.ltb_spec 120 (List.length line)) as [Hlong|Hshort].
  - split; [|split].
    + rewrite length_app, firstn_length_le by lia. simpl. lia.
    + intros _. rewrite forallb_app. simpl. apply andb_false_r.
    + intros c Hc. apply in_app_iff in Hc. destruct Hc as [Hc|Hc].
      * left. now apply firstn_members in Hc.
      * right. simpl in Hc. intuition.
  - split; [lia|]. split; auto.
Qed.

(** X24: a snippet has at most 12 lines, none of them blank, each of at
    most 120 characters; and trimming a snippet again changes nothing. *)
Theorem trimSource_is_bounded_and_idempotent (source : option string) :
  (List.length (snippetLines source) <= 12)%nat
  /\ (forall line, In line (snippetLines source) ->
        (List.length line <= 120)%nat
        /\ forallb isSpace line = false
        /\ forall c, In c line -> isNewline c = false)
  /\ snippetLines (Some (trimSource source)) = snippetLines source
  /\ trimSource (Some (trimSource source)) = trimSource source.
Proof.
  assert (Hlen : (List.length (snippetLines source) <= 12)%nat).
  { unfold snippetLines. cbv zeta. rewrite length_map, length_firstn. lia. }
  assert (Hlines : forall line, In line (snippetLines source) ->
            (List.length line <= 120)%nat
            /\ forallb isSpace line = false
            /\ forall c, In c line -> isNewline c = false).
  { unfold snippetLines. cbv zeta. intros line Hin.
    apply in_map_iff in Hin. destruct Hin as (raw & <- & Hraw).
    apply firstn_members in Hraw. apply filter_In in Hraw. destruct Hraw as [Hsplit Hblank].
    apply negb_true_iff in Hblank.
    destruct (clipLine_spec raw) as (H1 & H2 & H3).
    split; [exact H1|]. split; [now apply H2|].
    intros c Hc. destruct (H3 c Hc) as [Hc'| ->]; [|reflexivity].
    exact (splitChars_clean _ _ _ Hsplit _ Hc'). }
  assert (Hagain : snippetLines (Some (trimSource source)) = snippetLines source).
  { unfold trimSource. unfold snippetLines at 1. cbv zeta. cbn [Cache.orEmpty].
    rewrite list_ascii_of_string_of_list_ascii.
    destruct (snippetLines source) as [|l ls] eqn:Hs; [reflexivity|].
    rewrite splitChars_joinLines;
      [| discriminate | intros l' Hl'; now apply Hlines].
    assert (Hkeep : filter (fun l0 => negb (forallb isSpace l0)) (l :: ls) = l :: ls).
    { apply forallb_filter_id. apply forallb_forall. intros l' Hl'.
      apply negb_true_iff. now apply Hlines. }
    rewrite Hkeep, firstn_all2 by exact Hlen.
    rewrite <- (map_id (l :: ls)) at 2. apply map_ext_in.
    intros l' Hl'. apply clipLine_short. now apply Hlines. }
  split; [exact Hlen|]. split; [exact Hlines|]. split; [exact Hagain|].
  unfold trimSource at 1. now rewrite Hagain.
Qed.
End SnippetFacts.

(* ------------------------------------------------------------------ *)
(** ** Cleaning option objects *)

Section StripFacts.
Import Cache Config.

Lemma jsval_nested_ind (P : jsval -> Prop) :
  P VUndefined -> P VNull -> (forall b, P (VBool b)) -> (forall n, P (VNum n)) ->
  (forall s, P (VStr s)) ->
  (forall items, Forall P items -> P (VArr items)) ->
  (forall fields, Forall (fun kv => P (snd kv)) fields -> P (VObj fields)) ->
  P VFunction ->
  forall v, P v.
Proof.
  intros HU HN HB HQ HS HA HO HF. fix IH 1.
  intros [ | | b | n | s | items | fields | ];
    [exact HU | exact HN | apply HB | apply HQ | apply HS | | | exact HF].
  - apply HA. induction items as [|x items IHl]; constructor; [apply IH | exact IHl].
  - apply HO. induction fields as [|[k x] fields IHl]; constructor;
      [apply IH | exact IHl].
Qed.

(** what holds of a value that [stripUndefined] returns *)
Local Abbreviation stripped w :=
  (match w with
   | VArr items => forallb (fun x => negb (isUndefinedValue x)) items = true
   | VObj fields => forallb (fun kv => cleanValue (snd kv)) fields = true
   | _ => True
   end).

Lemma cleanValue_stripped (v : jsval) : cleanValue v = true -> stripped v.
Proof.
  destruct v; simpl; try tauto; intros H; apply andb_true_iff in H; tauto.
Qed.

Lemma kept_is_clean (cleaned : jsval) :
  stripped cleaned -> isUndefinedValue cleaned = false ->
  keepsCleaned cleaned = Ok true -> cleanValue cleaned = true.
Proof.
  destruct cleaned; simpl; try reflexivity; try discriminate; intros Hs _ Hk;
    inversion Hk as [Hlen]; rewrite Hlen, Hs; reflexivity.
Qed.

Lemma stripFields_clean (strip : jsval -> result jsval) (fields : list (string * jsval)) :
  Forall (fun kv => forall w, strip (snd kv) = Ok w -> stripped w) fields ->
  forall acc out,
    forallb (fun kv => cleanValue (snd kv)) acc = true ->
    stripFields strip fields acc = Ok out ->
    forallb (fun kv => cleanValue (snd kv)) out = true.
Proof.
  induction 1 as [|[key val] fields Hval _ IH]; intros acc out Hacc Hrun;
    cbn [stripFields] in Hrun.
  - inversion Hrun; subst. exact Hacc.
  - destruct (isUndefinedValue val); [now apply (IH acc)|].
    destruct (strip val) as [cleaned|e] eqn:Hstrip; cbn [bind] in Hrun; [|discriminate].
    destruct (isUndefinedValue cleaned) eqn:Hu; cbn [bind] in Hrun;
      [now apply (IH acc)|].
    destruct (keepsCleaned cleaned) as [[|]|e] eqn:Hk; cbn [bind] in Hrun;
      [ | now apply (IH acc) | discriminate].
    apply (IH (acc ++ [(key, cleaned)])%list); [|exact Hrun].
    rewrite forallb_app, Hacc. cbn [forallb snd andb].
    rewrite (kept_is_clean cleaned); [reflexivity | | exact Hu | exact Hk].
    apply (Hval cleaned). exact Hstrip.
Qed.

Lemma stripUndefined_stripped (v : jsval) :
  forall w, stripUndefined v = Ok w -> stripped w.
Proof.
  induction v as [ | | b | n | s | items _ | fields IH | ] using jsval_nested_ind;
    intros w Hrun; cbn [stripUndefined] in Hrun;
    try (inversion Hrun; subst; exact I).
  - inversion Hrun; subst. apply forallb_forall. intros x Hx.
    apply filter_In in Hx. tauto.
  - destruct (stripFields stripUndefined fields []) as [acc|e] eqn:Hf;
      cbn [bind] in Hrun; [|discriminate].
    inversion Hrun; subst.
    exact (@stripFields_clean _ _ IH [] _ eq_refl Hf).
Qed.

Lemma stripFields_fixed (strip : jsval -> result jsval) (fields : list (string * jsval)) :
  Forall (fun kv => stripped (snd kv) -> strip (snd kv) = Ok (snd kv)) fields ->
  forallb (fun kv => cleanValue (snd kv)) fields = true ->
  forall acc, stripFields strip fields acc = Ok (acc ++ fields)%list.
Proof.
  induction 1 as [|[key val] fields Hval _ IH]; intros Hclean acc;
    cbn [stripFields].
  - now rewrite app_nil_r.
  - cbn [forallb snd] in Hclean. apply andb_true_iff in Hclean.
    destruct Hclean as [Hv Hrest]. cbn [snd] in Hval.
    rewrite (Hval (cleanValue_stripped _ Hv)).
    assert (Hu : isUndefinedValue val = false) by (destruct val; try reflexivity; discriminate).
    assert (Hk : keepsCleaned val = Ok true).
    { destruct val; try reflexivity; try discriminate;
        simpl in Hv; apply andb_true_iff in Hv; destruct Hv as [Hlen _];
        simpl; now rewrite Hlen. }
    rewrite Hu. cbn [bind]. rewrite Hu, Hk. cbn [bind].
    rewrite (IH Hrest). now rewrite <- app_assoc.
Qed.

Lemma stripped_fixed (w : jsval) : stripped w -> stripUndefined w = Ok w.
Proof.
  induction w as [ | | b | n | s | items _ | fields IH | ] using jsval_nested_ind;
    intros Hs; cbn [stripUndefined]; try reflexivity.
  - now rewrite forallb_filter_id.
  - rewrite (@stripFields_fixed _ _ IH Hs []). reflexivity.
Qed.

Lemma stripFields_null (strip : jsval -> result jsval) (fields : list (string * jsval))
  (key : string) :
  strip VNull = Ok VNull -> In (key, VNull) fields ->
  forall acc, exists e, stripFields strip fields acc = Throw e.
Proof.
  intros Hnull. induction fields as [|[k val] fields IH]; intros Hin acc;
    [contradiction|]. cbn [stripFields].
  destruct Hin as [Heq|Hin].
  - inversion Heq; subst. cbn [isUndefinedValue]. rewrite Hnull. cbn [bind].
    eexists. reflexivity.
  - destruct (isUndefinedValue val); [now apply IH|].
    destruct (strip val) as [cleaned|e]; cbn [bind]; [|now exists e].
    destruct (isUndefinedValue cleaned); cbn [bind]; [now apply IH|].
    destruct (keepsCleaned cleaned) as [keep|e]; cbn [bind]; [now apply IH | now exists e].
Qed.

(** X25: when [stripUndefined] returns, an object it returns has, at every
    depth of nested objects, no property that is undefined, null, an empty
    array, an empty object, or an array with an undefined element; an array it
    returns has no undefined element; and cleaning the result again returns it
    unchanged. An object with a property that is null makes it throw. *)
Theorem stripUndefined_cleans_and_is_idempotent (value : jsval) :
  (forall w,
     stripUndefined value = Ok w ->
     (forall fields, w = VObj fields ->
        forallb (fun kv => cleanValue (snd kv)) fields = true)
     /\ (forall items, w = VArr items ->
           forallb (fun x => negb (isUndefinedValue x)) items = true)
     /\ stripUndefined w = Ok w)
  /\ (forall fields key,
        value = VObj fields -> In (key, VNull) fields ->
        exists e, stripUndefined value = Throw e).
Proof.
  split.
  - intros w Hrun. pose proof (stripUndefined_stripped _ Hrun) as Hs.
    split; [intros fields ->; exact Hs|].
    split; [intros items ->; exact Hs|].
    now apply stripped_fixed.
  - intros fields key -> Hin. cbn [stripUndefined].
    destruct (stripFields_null stripUndefined fields key eq_refl Hin []) as (e & He).
    rewrite He. exists e. reflexivity.
Qed.
End StripFacts.

Lemma stripUndefined_cleans_and_is_idempotent_witness :
  Config.stripUndefined
    (Cache.VObj [("limit", Cache.VUndefined);
                 ("weight", Cache.VObj [("code", Cache.VNum 1); ("style", Cache.VUndefined)]);
                 ("exclude", Cache.VArr []);
                 ("remote", Cache.VObj [("url", Cache.VUndefined)])])
  = Ok (Cache.VObj [("weight", Cache.VObj [("code", Cache.VNum 1)])])
  /\ Config.stripUndefined (Cache.VObj [("weight", Cache.VObj [("code", Cache.VNum 1)])])
     = Ok (Cache.VObj [("weight", Cache.VObj [("code", Cache.VNum 1)])]).
Proof.
  assert (Hrun :
            Config.stripUndefined
              (Cache.VObj [("limit", Cache.VUndefined);
                           ("weight", Cache.VObj [("code", Cache.VNum 1);
                                                  ("style", Cache.VUndefined)]);
                           ("exclude", Cache.VArr []);
                           ("remote", Cache.VObj [("url", Cache.VUndefined)])])
            = Ok (Cache.VObj [("weight", Cache.VObj [("code", Cache.VNum 1)])]))
    by reflexivity.
  split; [exact Hrun|].
  exact (proj2 (proj2 (proj1 (stripUndefined_cleans_and_is_idempotent _) _ Hrun))).
Defined.

(* ------------------------------------------------------------------ *)
(** ** Merging option objects *)

Section MergeFacts.
Import Cache Config.

Lemma ownProp_objSet (fields : list (string * jsval)) (k k' : string) (v : jsval) :
  ownProp (objSet fields k v) k' = if String.eqb k k' then Some v else ownProp fields k'.
Proof.
  unfold ownProp. induction fields as [|[k0 v0] fields IH]; simpl.
  - destruct (String.eqb k k'); reflexivity.
  - destruct (String.eqb_spec k0 k) as [->|Hne]; simpl.
    + destruct (String.eqb k k'); reflexivity.
    + destruct (String.eqb_spec k0 k') as [->|Hne'].
      * destruct (String.eqb_spec k k'); [congruence | reflexivity].
      * exact IH.
Qed.

Lemma ownProp_cons (fields : list (string * jsval)) (k0 k : string) (v0 : jsval) :
  ownProp ((k0, v0) :: fields) k = if String.eqb k0 k then Some v0 else ownProp fields k.
Proof. unfold ownProp. simpl. destruct (String.eqb k0 k); reflexivity. Qed.

Lemma ownProp_absent (fields : list (string * jsval)) (k : string) :
  ~ In k (map fst fields) -> ownProp fields k = None.
Proof.
  unfold ownProp. induction fields as [|[k0 v0] fields IH]; simpl; intros Hnot;
    [reflexivity|].
  destruct (String.eqb_spec k0 k) as [->|Hne]; [exfalso; apply Hnot; now left|].
  apply IH. intros H. apply Hnot. now right.
Qed.

Lemma objSet_keys (fields : list (string * jsval)) (k : string) (v : jsval) :
  NoDup (map fst fields) -> NoDup (map fst (objSet fields k v)).
Proof.
  induction fields as [|[k0 v0] fields IH]; simpl; intros Hnd.
  - repeat constructor. intros [].
  - inversion Hnd as [|? ? Hfresh Hnd']; subst.
    destruct (String.eqb_spec k0 k) as [->|Hne]; simpl; [exact Hnd|].
    constructor; [|auto].
    intros Hin. apply Hfresh. clear - Hin Hne.
    induction fields as [|[k1 v1] fields IH]; simpl in *.
    + destruct Hin as [H|[]]. congruence.
    + destruct (String.eqb_spec k1 k); simpl in *; [exact Hin|].
      destruct Hin as [H|H]; [now left | right; now apply IH].
Qed.

Lemma spreadInto_keys (target : list (string * jsval))
  (source : option (list (string * jsval))) :
  NoDup (map fst target) -> NoDup (map fst (spreadInto target source)).
Proof.
  unfold spreadInto.
  generalize (match source with Some fields => fields | None => [] end).
  intros src. revert target. induction src as [|[k v] src IH]; intros target Hnd;
    simpl; [exact Hnd|].
  apply IH. now apply objSet_keys.
Qed.

Lemma ownProp_spreadInto (target : list (string * jsval))
  (source : option (list (string * jsval))) (k : string) :
  NoDup (map fst (match source with Some fields => fields | None => [] end)) ->
  ownProp (spreadInto target source) k
  = match ownProp (match source with Some fields => fields | None => [] end) k with
    | Some v => Some v
    | None => ownProp target k
    end.
Proof.
  unfold spreadInto.
  generalize (match source with Some fields => fields | None => [] end).
  intros src. revert target. induction src as [|[k0 v0] src IH]; intros target Hnd;
    [reflexivity|].
  inversion Hnd as [|? ? Hfresh Hnd']; subst.
  cbn [fold_left fst snd]. rewrite (IH _ Hnd'), ownProp_objSet, ownProp_cons.
  destruct (String.eqb_spec k0 k) as [->|Hne].
  - now rewrite (ownProp_absent _ _ Hfresh).
  - reflexivity.
Qed.

Lemma ownProp_defined (merged : list (string * jsval)) (k : string) :
  NoDup (map fst merged) ->
  forall acc,
    ownProp
      (fold_left
         (fun acc kv =>
            if negb (isUndefinedValue (snd kv)) then objSet acc (fst kv) (snd kv) else acc)
         merged acc) k
    = match ownProp merged k with
      | Some v => if isUndefinedValue v then ownProp acc k else Some v
      | None => ownProp acc k
      end.
Proof.
  induction merged as [|[k0 v0] merged IH]; intros Hnd acc; [reflexivity|].
  inversion Hnd as [|? ? Hfresh Hnd']; subst.
  cbn [fold_left fst snd]. rewrite (IH Hnd'), ownProp_cons.
  destruct (String.eqb_spec k0 k) as [->|Hne].
  - rewrite (ownProp_absent _ _ Hfresh).
    destruct (isUndefinedValue v0); cbn [negb]; [reflexivity|].
    now rewrite ownProp_objSet, String.eqb_refl.
  - destruct (isUndefinedValue v0); cbn [negb]; [reflexivity|].
    rewrite ownProp_objSet. apply String.eqb_neq in Hne. now rewrite Hne.
Qed.

(** X26: in a merged option object the command line wins over the
    configuration file, which wins over the defaults: a key has the value of
    the last of the three that has the key, and is absent when that value is
    undefined (the earlier ones are not consulted then). Merged arrays hold the
    elements of all the arrays given, in the order given, so the defaults are
    never dropped. *)
Theorem mergeObjects_precedence (base : list (string * jsval))
  (fromFile fromCli : option (list (string * jsval))) (key : string) :
  let fileFields := match fromFile with Some fields => fields | None => [] end in
  let cliFields := match fromCli with Some fields => fields | None => [] end in
  let defined := fun v => if isUndefinedValue v then None else Some v in
  NoDup (map fst base) -> NoDup (map fst fileFields) -> NoDup (map fst cliFields) ->
  ownProp (mergeObjects base fromFile fromCli) key
  = match ownProp cliFields key with
    | Some v => defined v
    | None =>
        match ownProp fileFields key with
        | Some v => defined v
        | None =>
            match ownProp base key with
            | Some v => defined v
            | None => None
            end
        end
    end
  /\ forall defaults file cli,
       mergeArrays [VArr defaults; VArr file; VArr cli] = (defaults ++ file ++ cli)%list
       /\ mergeArrays [VArr defaults; VUndefined; VArr cli] = (defaults ++ cli)%list
       /\ mergeArrays [VArr defaults; VUndefined; VUndefined] = defaults.
Proof.
  intros fileFields cliFields defined Hbase Hfile Hcli. split.
  - unfold mergeObjects.
    rewrite ownProp_defined
      by (apply spreadInto_keys, spreadInto_keys; exact Hbase).
    rewrite ownProp_spreadInto by exact Hcli. fold cliFields.
    rewrite ownProp_spreadInto by exact Hfile. fold fileFields.
    unfold defined.
    destruct (ownProp cliFields key) as [v|]; [destruct (isUndefinedValue v); reflexivity|].
    destruct (ownProp fileFields key) as [v|];
      [destruct (isUndefinedValue v); reflexivity|].
    destruct (ownProp base key) as [v|]; [destruct (isUndefinedValue v)|]; reflexivity.
  - intros defaults file cli. unfold mergeArrays. cbn [filter truthy flat_map flatOne].
    rewrite !app_nil_r. repeat split; reflexivity.
Qed.
End MergeFacts.

Lemma mergeObjects_precedence_witness :
  Config.ownProp
    (Config.mergeObjects
       [("code", Cache.VNum (55 # 100)); ("style", Cache.VNum (2 # 10))]
       (Some [("code", Cache.VNum (7 # 10))])
       (Some [("style", Cache.VUndefined)]))
    "code" = Some (Cache.VNum (7 # 10))
  /\ Config.ownProp
       (Config.mergeObjects
          [("code", Cache.VNum (55 # 100)); ("style", Cache.VNum (2 # 10))]
          (Some [("code", Cache.VNum (7 # 10))])
          (Some [("style", Cache.VUndefined)]))
       "style" = None.
Proof.
  assert (Hbase : NoDup (map fst [("code", Cache.VNum (55 # 100));
                                  ("style", Cache.VNum (2 # 10))])).
  { repeat constructor; simpl; intuition discriminate. }
  assert (Hfile : NoDup (map fst [("code", Cache.VNum (7 # 10))])).
  { repeat constructor; simpl; intuition. }
  assert (Hcli : NoDup (map fst [("style", Cache.VUndefined)])).
  { repeat constructor; simpl; intuition. }
  split.
  - exact (proj1 (@mergeObjects_precedence _ (Some _) (Some _) "code" Hbase Hfile Hcli)).
  - exact (proj1 (@mergeObjects_precedence _ (Some _) (Some _) "style" Hbase Hfile Hcli)).
Defined.

(* ------------------------------------------------------------------ *)
(** ** Exact copies *)

Lemma overlap_self (l : list string) :
  l <> [] -> exists q, overlap (Some l) (Some l) = Ok q /\ (q == 1)%Q.
Proof.
  intros Hne. unfold overlap, deref. cbn [bind].
  replace (List.length l =? 0)%nat with false
    by (destruct l; [contradiction | reflexivity]).
  eexists. split; [reflexivity|].
  assert (Hall : filter (fun item => mem item (dedupe l)) (dedupe l) = dedupe l).
  { apply forallb_filter_id. apply forallb_forall. intros z Hz. now apply mem_In. }
  rewrite Hall, Nat.max_id.
  assert (Hpos : (0 < List.length (dedupe l))%nat).
  { pose proof (dedupe_nonempty Hne). destruct (dedupe l); [contradiction | simpl; lia]. }
  apply Qmult_inv_r. intros H0. pose proof (Qnat_pos Hpos) as Hp.
  rewrite H0 in Hp. exact (Qlt_irrefl _ Hp).
Qed.

Section ExactCopyFacts.
Variable vec : Type.
Variable cosine : vec -> vec -> Q.
Variable getI18n : option string -> messages.

(** X27: a pair whose two sources are the same text with at least one word
    in it, or whose similarity is at least 0.95, is labelled
    copy-paste-variant unless that analysis is disabled, and is then never
    labelled forked-clone. *)
Theorem exact_copies_are_copy_paste_variants (ea eb : entry vec) (sim : Q)
  (cfg : config) (la lb ta tb : list string) (sa sb : string) :
  logicTokens (entryComponent ea) = Some la ->
  logicTokens (entryComponent eb) = Some lb ->
  literals (entryComponent ea) = Some ta ->
  literals (entryComponent eb) = Some tb ->
  source (entryComponent ea) = Some sa ->
  source (entryComponent eb) = Some sb ->
  isDisabled cfg "copy-paste-variant" = false ->
  (95 # 100 <= sim)%Q
  \/ (sa = sb /\ fields (fun c => negb (isWordChar c)) (toLowerCase sa) <> []) ->
  exists labels hints,
    labelPair cosine getI18n ea eb sim cfg = Ok (labels, hints)
    /\ In "copy-paste-variant" labels
    /\ ~ In "forked-clone" labels.
Proof.
  intros Hla Hlb Hta Htb Hsa Hsb Hdis Hcopy.
  destruct (@labelPair_returns _ cosine getI18n ea eb sim cfg _ _ _ _ _ _
              Hla Hlb Hta Htb Hsa Hsb) as ([labels hints] & Hrun).
  exists labels, hints. split; [exact Hrun|].
  destruct (@labelPair_labels _ _ _ _ _ _ _ _ _ Hrun) as (ctx & Hctx & Hlabels).
  assert (Hearlier : In "copy-paste-variant" (earlierLabels ctx)).
  { unfold earlierLabels. rewrite !in_app_iff. right. right. right. left.
    unfold buildContext in Hctx. rewrite Hla, Hlb, Hta, Htb, Hsa, Hsb in Hctx.
    destruct (overlap (Some la) (Some lb)) as [lo|]; cbn [bind] in Hctx; [|discriminate].
    destruct (overlap (Some ta) (Some tb)) as [li|]; cbn [bind] in Hctx; [|discriminate].
    destruct (textOverlap (Some sa) (Some sb)) as [tov|] eqn:Htov; cbn [bind] in Hctx;
      [|discriminate].
    unfold lineCount in Hctx. cbn [bind] in Hctx. inversion Hctx; subst ctx; clear Hctx.
    unfold copyCheck. cbn [ctxConfig ctxSimilarity tokenOverlap ctxI18n]. rewrite Hdis.
    assert (Hhit : Qgeb sim (95 # 100) || Qgeb tov (9 # 10) = true).
    { destruct Hcopy as [Hsim|[<- Htokens]].
      - apply orb_true_iff. left. unfold Qgeb. now apply Qle_bool_iff.
      - apply orb_true_iff. right.
        unfold textOverlap, tokenize in Htov. cbn [bind] in Htov.
        destruct (overlap_self Htokens) as (q & Hq & Hone).
        rewrite Hq in Htov. inversion Htov; subst tov.
        rewrite (Qgeb_compat (9 # 10) Hone). reflexivity. }
    rewrite Hhit. simpl. now left. }
  split; [rewrite Hlabels, in_app_iff; now left|].
  rewrite Hlabels, in_app_iff. intros [Hin|Hin].
  - exact (earlierLabels_no_fork ctx Hin).
  - apply forkCheck_spec in Hin. destruct Hin as (_ & _ & Hnil & _).
    rewrite Hnil in Hearlier. contradiction.
Qed.
End ExactCopyFacts.

Lemma exact_copies_are_copy_paste_variants_witness :
  exists labels hints,
    labelPair Sample.dot Sample.hintsOf (Sample.entryOf Sample.longUnit [1; 0]%Q)
      (Sample.entryOf Sample.longUnit [1; 0]%Q) (85 # 100) (Sample.testConfig [])
    = Ok (labels, hints)
    /\ In "copy-paste-variant" labels.
Proof.
  destruct (@exact_copies_are_copy_paste_variants _ Sample.dot Sample.hintsOf
              (Sample.entryOf Sample.longUnit [1; 0]%Q)
              (Sample.entryOf Sample.longUnit [1; 0]%Q) (85 # 100) (Sample.testConfig [])
              _ _ _ _ _ _ eq_refl eq_refl eq_refl eq_refl eq_refl eq_refl eq_refl)
    as (labels & hints & Hrun & Hin & _).
  - right. split; [reflexivity|]. vm_compute. discriminate.
  - exists labels, hints. split; assumption.
Defined.
